(** * client-go core: indexed store, key functions, work queue, rate limiters

    A shallow embedding of the Go sources

      - tools/cache/store.go              (key functions, [cache])
      - tools/cache/thread_safe_store.go  ([threadSafeMap] and its indices)
      - the controller file               ([FilteringResourceEventHandler])
      - util/workqueue/queue.go           (the base work queue)
      - util/workqueue/default_rate_limiters.go

    Go maps are finite maps ([gmap]); the maps of the store, which its
    caller hands over and which may be [nil], are [gomap]s.  [sets.String]
    and the work queue's [set] are finite sets ([gset]), slices are lists.
    Mutation of a receiver is explicit state passing; a Go [panic] is the
    [Panic] outcome of a small error monad; a Go [error] result is a
    sum. *)

From Stdlib Require Import ZArith Lia String Ascii List Bool.
From stdpp Require Import base option gmap sets list strings sorting.

Local Open Scope Z_scope.

(* [set_solver] clears hypotheses that may be gone already. *)
#[local] Set Warnings "-clear-no-such-hyp".

(** ** Results of fallible Go functions: [(value, error)] pairs *)

Inductive result (E A : Type) : Type :=
| Ok (a : A)
| Fail (e : E).
Arguments Ok {E A} a.
Arguments Fail {E A} e.

(* ================================================================== *)
(** * Key functions (tools/cache/store.go)                              *)
(* ================================================================== *)

Module Keys.

(** The dynamic cases of [obj interface{}] that [MetaNamespaceKeyFunc]
    distinguishes: an [ExplicitKey], a value for which [meta.Accessor]
    succeeds (only [GetNamespace] and [GetName] are read), and a value for
    which [meta.Accessor] returns an error. *)
Inductive object : Type :=
| ExplicitKey (key : string)
| WithMeta (namespace name : string)
| NoMeta (cause : string).

(** [fmt.Errorf] values, kept structured. *)
Inductive error : Type :=
| ErrNoMeta (cause : string)             (* "object has no meta: %v" *)
| ErrUnexpectedKeyFormat (key : string). (* "unexpected key format: %q" *)

Definition slash : ascii := "/"%char.

Definition MetaNamespaceKeyFunc (obj : object) : result error string :=
  match obj with
  | ExplicitKey key => Ok key
  | NoMeta cause => Fail (ErrNoMeta cause)
  | WithMeta namespace name =>
      if (0 <? String.length namespace)%nat
      then Ok (String.append namespace (String slash name))
      else Ok name
  end.

(** [strings.Split(s, sep)] for a one-byte separator: the substrings
    between separators, [count sep s + 1] of them. *)
Fixpoint Split (s : string) (sep : ascii) : list string :=
  match s with
  | EmptyString => [EmptyString]
  | String c rest =>
      if Ascii.eqb c sep then EmptyString :: Split rest sep
      else match Split rest sep with
           | part :: parts => String c part :: parts
           | [] => [String c EmptyString]
           end
  end.

Definition SplitMetaNamespaceKey (key : string) : result error (string * string) :=
  match Split key slash with
  | [name] => Ok (EmptyString, name)
  | [namespace; name] => Ok (namespace, name)
  | _ => Fail (ErrUnexpectedKeyFormat key)
  end.

(** Number of occurrences of a byte in a string. *)
Fixpoint count (c : ascii) (s : string) : nat :=
  match s with
  | EmptyString => 0
  | String a rest => ((if Ascii.eqb a c then 1 else 0) + count c rest)%nat
  end.

End Keys.

(* ================================================================== *)
(** * The thread-safe indexed store (tools/cache/thread_safe_store.go)  *)
(* ================================================================== *)

(** Outcome of a call that may [panic].  A panic ends the run; no state is
    kept. *)
Inductive outcome (P A : Type) : Type :=
| Return (a : A)
| Panic (p : P).
Arguments Return {P A} a.
Arguments Panic {P A} p.

Definition bind {P A B} (m : outcome P A) (k : A -> outcome P B) : outcome P B :=
  match m with
  | Return a => k a
  | Panic p => Panic p
  end.

Notation "'do' x <- m ; k" := (bind m (fun x => k))
  (at level 10, x name, m at level 100, k at level 200).

(** A Go map value with string keys: [nil], or a map made by [make] or by
    a literal.  A [nil] map reads as an empty one ([m[key]] is the zero
    value, [len(m)] is 0, [range m] visits nothing, [delete(m, key)] does
    nothing); an assignment [m[key] = v] to it panics. *)
Inductive gomap (V : Type) : Type :=
| nilMap
| madeMap (m : gmap string V).
Arguments nilMap {V}.
Arguments madeMap {V} m.

(** What a map holds. *)
Definition entries {V : Type} (m : gomap V) : gmap string V :=
  match m with
  | nilMap => ∅
  | madeMap m => m
  end.

Definition isMade {V : Type} (m : gomap V) : Prop :=
  match m with
  | nilMap => False
  | madeMap _ => True
  end.

(** [delete(m, key)] *)
Definition removeEntry {V : Type} (key : string) (m : gomap V) : gomap V :=
  match m with
  | nilMap => nilMap
  | madeMap m => madeMap (delete key m)
  end.

Module ThreadSafeStore.
Section ThreadSafeStore.

(** [object] are the non-nil dynamic values of [interface{}]; Go's [nil]
    is [None].  [error] is the type of the index functions' errors. *)
Context {object error : Type}.

Abbreviation obj := (option object).

(** [type IndexFunc func(obj interface{}) ([]string, error)] *)
Abbreviation IndexFunc := (obj -> result error (list string)).
(** [type Index map[string]sets.String] *)
Abbreviation Index := (gmap string (gset string)).
(** [type Indexers map[string]IndexFunc], by its entries *)
Abbreviation Indexers := (gmap string IndexFunc).
(** [type Indices map[string]Index], by its entries.  The code reads an
    entry whose [Index] is [nil] as a missing one ([index == nil]); the
    two are not kept apart. *)
Abbreviation Indices := (gmap string Index).

(** The three maps of the store are Go maps: [items] is the caller's map
    after [Replace], [indexers] and [indices] are the maps the caller gave
    to [NewThreadSafeStore]. *)
Record threadSafeMap : Type := {
  items : gomap obj;
  indexers : gomap IndexFunc;
  indices : gomap Index;
}.

(** The value of [panic(fmt.Errorf("unable to calculate an index entry for
    key %q on index %q: %v", key, name, err))]. *)
Record indexPanic : Type := {
  panicKey : string;
  panicIndex : string;
  panicErr : error;
}.

(** The panics of the store: its own, when an index function returns an
    error, and the runtime's "assignment to entry in nil map". *)
Inductive panicValue : Type :=
| IndexPanic (p : indexPanic)
| NilMapWrite.

Abbreviation M := (outcome panicValue).

(** [m[key] = v] *)
Definition assign {V : Type} (key : string) (v : V) (m : gomap V) : M (gomap V) :=
  match m with
  | nilMap => Panic NilMapWrite
  | madeMap m => Return (madeMap (<[key := v]> m))
  end.

Definition NewThreadSafeStore (indexers : gomap IndexFunc) (indices : gomap Index)
    : threadSafeMap :=
  {| items := madeMap ∅; indexers := indexers; indices := indices |}.

(** Body of the inner loop of [deleteFromIndices]:
    [set := index[indexValue]; if set != nil { set.Delete(key);
     if len(set) == 0 { delete(index, indexValue) } }]. *)
Definition deleteKey (key : string) (index : Index) (indexValue : string) : Index :=
  match index !! indexValue with
  | Some set =>
      let set' := set ∖ {[key]} in
      if decide (size set' = 0%nat) then delete indexValue index
      else <[indexValue := set']> index
  | None => index
  end.

(** One iteration of the outer loop of [deleteFromIndices]:
    [index := c.indices[name]; if index == nil { continue }], then the
    inner loop, which changes [index] in place. *)
Definition deleteFromIndex (o : obj) (key name : string) (indexFunc : IndexFunc)
    (indices : gomap Index) : M (gomap Index) :=
  match indexFunc o with
  | Fail err =>
      Panic (IndexPanic {| panicKey := key; panicIndex := name; panicErr := err |})
  | Ok indexValues =>
      match entries indices !! name with
      | None => Return indices
      | Some index =>
          Return (madeMap (<[name := foldl (deleteKey key) index indexValues]>
                             (entries indices)))
      end
  end.

(** [for name, indexFunc := range c.indexers]: the loop is a [map_fold];
    the order of the visit does not matter ([indexers_any_order] below). *)
Definition deleteFromIndices (o : obj) (key : string) (c : threadSafeMap) : M threadSafeMap :=
  do indices' <- map_fold
                   (fun name indexFunc acc =>
                      do ix <- acc; deleteFromIndex o key name indexFunc ix)
                   (Return (indices c)) (entries (indexers c));
  Return {| items := items c; indexers := indexers c; indices := indices' |}.

(** Body of the inner loop of [updateIndices]:
    [set := index[indexValue]; if set == nil { set = sets.String{};
     index[indexValue] = set }; set.Insert(key)]. *)
Definition insertKey (key : string) (index : Index) (indexValue : string) : Index :=
  match index !! indexValue with
  | Some set => <[indexValue := {[key]} ∪ set]> index
  | None => <[indexValue := {[key]}]> index
  end.

(** One iteration of the outer loop of [updateIndices]:
    [index := c.indices[name]; if index == nil { index = Index{};
     c.indices[name] = index }], an assignment that panics when
    [c.indices] is [nil]; then the inner loop, which changes [index] in
    place. *)
Definition addToIndex (newObj : obj) (key name : string) (indexFunc : IndexFunc)
    (indices : gomap Index) : M (gomap Index) :=
  match indexFunc newObj with
  | Fail err =>
      Panic (IndexPanic {| panicKey := key; panicIndex := name; panicErr := err |})
  | Ok indexValues =>
      match entries indices !! name with
      | Some index =>
          Return (madeMap (<[name := foldl (insertKey key) index indexValues]>
                             (entries indices)))
      | None =>
          do indices' <- assign name ∅ indices;
          Return (madeMap (<[name := foldl (insertKey key) ∅ indexValues]>
                             (entries indices')))
      end
  end.

Definition updateIndices (oldObj newObj : obj) (key : string) (c : threadSafeMap)
    : M threadSafeMap :=
  do c1 <- match oldObj with
           | Some _ => deleteFromIndices oldObj key c
           | None => Return c
           end;
  do indices' <- map_fold
                   (fun name indexFunc acc =>
                      do ix <- acc; addToIndex newObj key name indexFunc ix)
                   (Return (indices c1)) (entries (indexers c1));
  Return {| items := items c1; indexers := indexers c1; indices := indices' |}.

(** [c.items[key]]: a missing key reads as the zero value, [nil]. *)
Definition itemAt (c : threadSafeMap) (key : string) : obj :=
  match entries (items c) !! key with
  | Some o => o
  | None => None
  end.

(** [oldObject := c.items[key]; c.items[key] = obj;
     c.updateIndices(oldObject, obj, key)] *)
Definition Add (key : string) (o : obj) (c : threadSafeMap) : M threadSafeMap :=
  let oldObject := itemAt c key in
  do items' <- assign key o (items c);
  updateIndices oldObject o key
    {| items := items'; indexers := indexers c; indices := indices c |}.

Definition Update (key : string) (o : obj) (c : threadSafeMap) : M threadSafeMap :=
  let oldObject := itemAt c key in
  do items' <- assign key o (items c);
  updateIndices oldObject o key
    {| items := items'; indexers := indexers c; indices := indices c |}.

Definition Delete (key : string) (c : threadSafeMap) : M threadSafeMap :=
  match entries (items c) !! key with
  | Some o =>
      do c1 <- deleteFromIndices o key c;
      Return {| items := removeEntry key (items c1); indexers := indexers c1;
                indices := indices c1 |}
  | None => Return c
  end.

Definition Get (key : string) (c : threadSafeMap) : obj * bool :=
  match entries (items c) !! key with
  | Some o => (o, true)
  | None => (None, false)
  end.

(** [c.items = items; c.indices = Indices{}], then [updateIndices(nil,
    item, key)] for every new item, in any order ([Replace_any_order]).
    The store keeps the caller's map, [nil] or not. *)
Definition Replace (newItems : gomap obj) (c : threadSafeMap) : M threadSafeMap :=
  map_fold
    (fun key item acc => do c1 <- acc; updateIndices None item key c1)
    (Return {| items := newItems; indexers := indexers c; indices := madeMap ∅ |})
    (entries newItems).

(** Sequences of mutating operations. *)
Inductive op : Type :=
| OpAdd (key : string) (o : obj)
| OpUpdate (key : string) (o : obj)
| OpDelete (key : string)
| OpReplace (newItems : gomap obj).

Definition apply (c : threadSafeMap) (x : op) : M threadSafeMap :=
  match x with
  | OpAdd key o => Add key o c
  | OpUpdate key o => Update key o c
  | OpDelete key => Delete key c
  | OpReplace newItems => Replace newItems c
  end.

Fixpoint run (ops : list op) (c : threadSafeMap) : M threadSafeMap :=
  match ops with
  | [] => Return c
  | x :: rest => do c1 <- apply c x; run rest c1
  end.

(** The objects an operation puts into the store. *)
Definition stored (x : op) : list obj :=
  match x with
  | OpAdd _ o | OpUpdate _ o => [o]
  | OpDelete _ => []
  | OpReplace newItems => (map_to_list (entries newItems)).*2
  end.

(** The operation hands no [nil] map to the store. *)
Definition handsMade (x : op) : Prop :=
  match x with
  | OpReplace newItems => isMade newItems
  | _ => True
  end.

(** ** The index view *)

(** [index[value]], the empty set when the entry is missing. *)
Definition members (index : Index) (value : string) : gset string :=
  match index !! value with Some set => set | None => ∅ end.

(** [indices[name][value]], the empty set when either entry is missing. *)
Definition bucket (ix : Indices) (name value : string) : gset string :=
  match ix !! name with
  | Some index => members index value
  | None => ∅
  end.

(** [value] is among the values [indexFunc] returns for [o]. *)
Definition indexedUnder (indexFunc : IndexFunc) (o : obj) (value : string) : Prop :=
  exists values, indexFunc o = Ok values /\ value ∈ values.

Definition consistent (c : threadSafeMap) : Prop :=
  forall name indexFunc, entries (indexers c) !! name = Some indexFunc ->
  forall value key,
    key ∈ bucket (entries (indices c)) name value <->
    exists o, entries (items c) !! key = Some o /\ indexedUnder indexFunc o value.

Definition noEmptySet (index : Index) : Prop :=
  forall value set, index !! value = Some set -> set <> ∅.

Definition noEmptyBucket (ix : Indices) : Prop :=
  forall name index, ix !! name = Some index -> noEmptySet index.

(** Every index function yields no value for the object. *)
Definition unindexed (ixs : Indexers) (o : obj) : Prop :=
  forall name indexFunc values,
    ixs !! name = Some indexFunc -> indexFunc o = Ok values -> values = [].

(** The object is not [nil], or it is [nil] and carries no index value. *)
Definition plain (ixs : Indexers) (o : obj) : Prop :=
  o = None -> unindexed ixs o.

(** Every index function succeeds on the object. *)
Definition indexable (ixs : Indexers) (o : obj) : Prop :=
  forall name indexFunc, ixs !! name = Some indexFunc ->
  exists values, indexFunc o = Ok values.

(** ** The order of a [range] loop *)

(** Go ranges over a map in an order of its choosing, and [map_fold]
    visits the entries in the order of the map's representation.
    [rangeIn order body b] is the loop that visits them in the order
    given. *)
Definition rangeIn {A B : Type} (order : list (string * A))
    (body : string -> A -> B -> B) (b : B) : B :=
  foldl (fun acc entry => body entry.1 entry.2 acc) b order.

(** The same result, or a panic in both; which panic it is (which index
    function's error, or the write to a [nil] map) depends on the
    order. *)
Definition sameOutcome {A : Type} (r1 r2 : M A) : Prop :=
  match r1, r2 with
  | Return a1, Return a2 => a1 = a2
  | Panic _, Panic _ => True
  | _, _ => False
  end.

(** ** Vocabulary of the proofs *)

(** Both loops compute [indexFunc(o)] for every index and panic on an
    error.  Otherwise, on a made [indices], they rewrite only
    [indices[name]], as [upd] says; on a [nil] one the loop of
    [updateIndices] panics ([strict]) and the loop of [deleteFromIndices]
    does nothing. *)
Definition rewrites (o : obj) (upd : list string -> option Index -> option Index)
    (strict : bool) (body : string -> IndexFunc -> gomap Index -> M (gomap Index))
    : Prop :=
  forall name indexFunc ix,
    match indexFunc o with
    | Fail _ => exists p, body name indexFunc ix = Panic p
    | Ok values =>
        match ix with
        | madeMap m =>
            exists m', body name indexFunc ix = Return (madeMap m') /\
                       m' !! name = upd values (m !! name) /\
                       forall other, other <> name -> m' !! other = m !! other
        | nilMap =>
            if strict then body name indexFunc ix = Panic NilMapWrite
            else body name indexFunc ix = Return nilMap
        end
    end.

Definition deleted (key : string) (values : list string) (old : option Index)
    : option Index :=
  match old with
  | Some index => Some (foldl (deleteKey key) index values)
  | None => None
  end.

Definition inserted (key : string) (values : list string) (old : option Index)
    : option Index :=
  Some (foldl (insertKey key)
          (match old with Some index => index | None => ∅ end) values).

(** The index view files exactly the objects of [view]. *)
Definition agrees (ixs : Indexers) (ix : Indices) (view : gmap string obj) : Prop :=
  forall name indexFunc, ixs !! name = Some indexFunc ->
  forall value key,
    key ∈ bucket ix name value <->
    exists o, view !! key = Some o /\ indexedUnder indexFunc o value.

(** [oldObj] is what [updateIndices] is told about the object filed under
    [key]: that object itself, or [nil] when the key is not filed or its
    object has no index value. *)
Definition describes (ixs : Indexers) (view : gmap string obj) (key : string)
    (oldObj : obj) : Prop :=
  match oldObj with
  | Some _ => view !! key = Some oldObj
  | None => forall o, view !! key = Some o -> unindexed ixs o
  end.

(** The invariant of the runs that store no [nil] with an index value: the
    index view is that of the items, no bucket is empty, and every stored
    object has been indexed without error and, when it is [nil], has no
    index value. *)
Definition invariant (ixs : Indexers) (c : threadSafeMap) : Prop :=
  entries (indexers c) = ixs /\
  agrees ixs (entries (indices c)) (entries (items c)) /\
  noEmptyBucket (entries (indices c)) /\
  (forall key o, entries (items c) !! key = Some o -> plain ixs o /\ indexable ixs o).

(** The maps that [Add] and [Update] write to are made: [items], and
    [indices] unless there is no index function. *)
Definition writable (c : threadSafeMap) : Prop :=
  isMade (items c) /\ (isMade (indices c) \/ entries (indexers c) = ∅).


End ThreadSafeStore.

(** ** Reads, and the indexers *)

(** [sets.String.List()] (apimachinery): the members as a sorted slice;
    Go orders strings byte-wise. *)
Definition byteOrder : relation string := fun a b => Is_true (String.leb a b).

#[export] Instance byteOrder_dec : RelDecision byteOrder :=
  fun a b => Is_true_dec (String.leb a b).

Definition sortedList (set : gset string) : list string :=
  merge_sort byteOrder (elements set).

Section Reads.

Context {object error : Type}.

Local Abbreviation obj := (option object).
Local Abbreviation IndexFunc := (obj -> result error (list string)).
Local Abbreviation store := (@threadSafeMap object error).
Local Abbreviation M := (outcome (@panicValue error)).

(** The [error] values of the reads and of [AddIndexers]. *)
Inductive indexError : Type :=
| ErrNoIndex (indexName : string)           (* "Index with name %s does not exist" *)
| ErrIndexFunc (err : error)                (* the index function's own error *)
| ErrRunningIndex                           (* "cannot add indexers to running index" *)
| ErrIndexerConflict (names : gset string). (* "indexer conflict: %v" *)

(** [for _, item := range c.items { list = append(list, item) }] *)
Definition List (c : store) : list obj :=
  map_fold (fun _ item list => list ++ [item]) [] (entries (items c)).

Definition ListKeys (c : store) : list string :=
  map_fold (fun key _ list => list ++ [key]) [] (entries (items c)).

(** [c.indices[indexName]]: a missing entry is the nil [Index], which
    reads as an empty one. *)
Definition indexAt (c : store) (indexName : string) : gmap string (gset string) :=
  match entries (indices c) !! indexName with
  | Some index => index
  | None => ∅
  end.

(** The last loop of [Index] and the loop of [ByIndex]: the items of the
    keys of a set, in the order of the visit. *)
Definition itemsOf (c : store) (set : gset string) : list obj :=
  itemAt c <$> elements set.

Definition Index (indexName : string) (o : obj) (c : store)
    : result indexError (list obj) :=
  match entries (indexers c) !! indexName with
  | None => Fail (ErrNoIndex indexName)
  | Some indexFunc =>
      match indexFunc o with
      | Fail err => Fail (ErrIndexFunc err)
      | Ok indexedValues =>
          let index := indexAt c indexName in
          let storeKeySet :=
            match indexedValues with
            | [indexedValue] => members index indexedValue
            | _ => foldl (fun set indexedValue => members index indexedValue ∪ set)
                     ∅ indexedValues
            end in
          Ok (itemsOf c storeKeySet)
      end
  end.

Definition ByIndex (indexName indexedValue : string) (c : store)
    : result indexError (list obj) :=
  match entries (indexers c) !! indexName with
  | None => Fail (ErrNoIndex indexName)
  | Some _ => Ok (itemsOf c (members (indexAt c indexName) indexedValue))
  end.

Definition IndexKeys (indexName indexedValue : string) (c : store)
    : result indexError (list string) :=
  match entries (indexers c) !! indexName with
  | None => Fail (ErrNoIndex indexName)
  | Some _ => Ok (sortedList (members (indexAt c indexName) indexedValue))
  end.

Definition ListIndexFuncValues (indexName : string) (c : store) : list string :=
  map_fold (fun key _ names => names ++ [key]) [] (indexAt c indexName).

Definition GetIndexers (c : store) : gomap IndexFunc := indexers c.

(** [oldKeys.HasAny(newKeys.List()...)], then
    [for k, v := range newIndexers { c.indexers[k] = v }], whose
    assignment panics when [c.indexers] is [nil]. *)
Definition AddIndexers (newIndexers : gomap IndexFunc) (c : store)
    : M (store * option indexError) :=
  if decide (0 < size (entries (items c)))%nat then Return (c, Some ErrRunningIndex)
  else
    let oldKeys : gset string := dom (entries (indexers c)) in
    let newKeys : gset string := dom (entries newIndexers) in
    if existsb (fun name => bool_decide (name ∈ oldKeys)) (sortedList newKeys)
    then Return (c, Some (ErrIndexerConflict (oldKeys ∩ newKeys)))
    else
      do indexers' <- map_fold (fun k v acc => do ixs <- acc; assign k v ixs)
                        (Return (indexers c)) (entries newIndexers);
      Return ({| items := items c; indexers := indexers'; indices := indices c |},
              None).

Definition Resync (c : store) : option indexError := None.

End Reads.
End ThreadSafeStore.

(* ================================================================== *)
(** * The cache: a store with a key function (tools/cache/store.go)     *)
(* ================================================================== *)

Module Cache.
Section Cache.

Context {object error : Type}.

Abbreviation obj := (option object).

(** [type KeyFunc func(obj interface{}) (string, error)] *)
Abbreviation KeyFunc := (obj -> result error string).

(** [type KeyError struct { Obj interface{}; Err error }] *)
Record KeyError : Type := {
  Obj : obj;
  Err : error;
}.

Record cache : Type := {
  cacheStorage : @ThreadSafeStore.threadSafeMap object error;
  keyFunc : KeyFunc;
}.

Abbreviation M := (outcome (@ThreadSafeStore.panicValue error)).

Definition withStorage (c : cache) (s : ThreadSafeStore.threadSafeMap) : cache :=
  {| cacheStorage := s; keyFunc := keyFunc c |}.

(** The methods return Go's [error]: [None] is the [nil] error. *)
Definition Add (o : obj) (c : cache) : M (cache * option KeyError) :=
  match keyFunc c o with
  | Fail err => Return (c, Some {| Obj := o; Err := err |})
  | Ok key =>
      do s <- ThreadSafeStore.Add key o (cacheStorage c);
      Return (withStorage c s, None)
  end.

Definition Update (o : obj) (c : cache) : M (cache * option KeyError) :=
  match keyFunc c o with
  | Fail err => Return (c, Some {| Obj := o; Err := err |})
  | Ok key =>
      do s <- ThreadSafeStore.Update key o (cacheStorage c);
      Return (withStorage c s, None)
  end.

Definition Delete (o : obj) (c : cache) : M (cache * option KeyError) :=
  match keyFunc c o with
  | Fail err => Return (c, Some {| Obj := o; Err := err |})
  | Ok key =>
      do s <- ThreadSafeStore.Delete key (cacheStorage c);
      Return (withStorage c s, None)
  end.

Definition GetByKey (key : string) (c : cache) : obj * bool :=
  ThreadSafeStore.Get key (cacheStorage c).

(** The loop of [Replace]: build [items], a map made by [make], stopping
    at the first object whose key cannot be computed. *)
Fixpoint keyAll (f : KeyFunc) (list : list obj) (items : gmap string obj)
    : result KeyError (gmap string obj) :=
  match list with
  | [] => Ok items
  | item :: rest =>
      match f item with
      | Fail err => Fail {| Obj := item; Err := err |}
      | Ok key => keyAll f rest (<[key := item]> items)
      end
  end.

Definition Replace (list : list obj) (c : cache) : M (cache * option KeyError) :=
  match keyAll (keyFunc c) list ∅ with
  | Fail keyError => Return (c, Some keyError)
  | Ok items =>
      do s <- ThreadSafeStore.Replace (madeMap items) (cacheStorage c);
      Return (withStorage c s, None)
  end.

(** [NewThreadSafeStore(Indexers{}, Indices{})] *)
Definition NewStore (keyFunc : KeyFunc) : cache :=
  {| cacheStorage := ThreadSafeStore.NewThreadSafeStore (madeMap ∅) (madeMap ∅);
     keyFunc := keyFunc |}.

(** [NewThreadSafeStore(indexers, Indices{})] *)
Definition NewIndexer (keyFunc : KeyFunc)
    (indexers : gomap (obj -> result error (list string))) : cache :=
  {| cacheStorage := ThreadSafeStore.NewThreadSafeStore indexers (madeMap ∅);
     keyFunc := keyFunc |}.

(** ** Reads *)

(** [Get] returns [(item, exists, err)]. *)
Definition Get (o : obj) (c : cache) : obj * bool * option KeyError :=
  match keyFunc c o with
  | Fail err => (None, false, Some {| Obj := o; Err := err |})
  | Ok key => (GetByKey key c, None)
  end.

Definition List (c : cache) : list obj := ThreadSafeStore.List (cacheStorage c).

Definition ListKeys (c : cache) : list string := ThreadSafeStore.ListKeys (cacheStorage c).

Definition GetIndexers (c : cache) : gomap (obj -> result error (list string)) :=
  ThreadSafeStore.GetIndexers (cacheStorage c).

Definition Index (indexName : string) (o : obj) (c : cache)
    : result (@ThreadSafeStore.indexError error) (list obj) :=
  ThreadSafeStore.Index indexName o (cacheStorage c).

Definition IndexKeys (indexName indexKey : string) (c : cache)
    : result (@ThreadSafeStore.indexError error) (list string) :=
  ThreadSafeStore.IndexKeys indexName indexKey (cacheStorage c).

Definition ListIndexFuncValues (indexName : string) (c : cache) : list string :=
  ThreadSafeStore.ListIndexFuncValues indexName (cacheStorage c).

Definition ByIndex (indexName indexKey : string) (c : cache)
    : result (@ThreadSafeStore.indexError error) (list obj) :=
  ThreadSafeStore.ByIndex indexName indexKey (cacheStorage c).

Definition AddIndexers (newIndexers : gomap (obj -> result error (list string)))
    (c : cache) : M (cache * option (@ThreadSafeStore.indexError error)) :=
  do r <- ThreadSafeStore.AddIndexers newIndexers (cacheStorage c);
  Return (withStorage c r.1, r.2).

Definition Resync (c : cache) : option KeyError := None.

End Cache.
End Cache.

(* ================================================================== *)
(** * The work queue (util/workqueue/queue.go)                          *)
(* ================================================================== *)

Module WorkQueue.
Section WorkQueue.

(** [type t interface{}]: the items, used as map keys. *)
Context {t : Type} `{Countable t}.

(** The bookkeeping fields of [type Type struct]; [cond] is the lock,
    [metrics] and [clock] only observe. *)
Record workqueue : Type := {
  queue : list t;
  dirty : gset t;
  processing : gset t;
  shuttingDown : bool;
}.

Definition newQueue : workqueue :=
  {| queue := []; dirty := ∅; processing := ∅; shuttingDown := false |}.

Definition Add (item : t) (q : workqueue) : workqueue :=
  if shuttingDown q then q
  else if decide (item ∈ dirty q) then q
  else
    let dirty' := {[item]} ∪ dirty q in
    if decide (item ∈ processing q)
    then {| queue := queue q; dirty := dirty';
            processing := processing q; shuttingDown := shuttingDown q |}
    else {| queue := queue q ++ [item]; dirty := dirty';
            processing := processing q; shuttingDown := shuttingDown q |}.

Definition Len (q : workqueue) : nat := length (queue q).

(** [Get] waits on the condition variable while the queue is empty and not
    shutting down: [None].  Otherwise it returns [(item, shutdown)] and the
    new state; the [nil] item is [None]. *)
Definition Get (q : workqueue) : option (option t * bool * workqueue) :=
  match queue q with
  | [] => if shuttingDown q then Some (None, true, q) else None
  | item :: rest =>
      Some (Some item, false,
            {| queue := rest; dirty := dirty q ∖ {[item]};
               processing := {[item]} ∪ processing q;
               shuttingDown := shuttingDown q |})
  end.

Definition Done (item : t) (q : workqueue) : workqueue :=
  let processing' := processing q ∖ {[item]} in
  if decide (item ∈ dirty q)
  then {| queue := queue q ++ [item]; dirty := dirty q;
          processing := processing'; shuttingDown := shuttingDown q |}
  else {| queue := queue q; dirty := dirty q;
          processing := processing'; shuttingDown := shuttingDown q |}.

Definition ShutDown (q : workqueue) : workqueue :=
  {| queue := queue q; dirty := dirty q; processing := processing q;
     shuttingDown := true |}.

Definition ShuttingDown (q : workqueue) : bool := shuttingDown q.

(** Calls in the order in which they take the lock.  A [Get] stands where
    it returns; a sequence that places one where it would wait has no
    run. *)
Inductive op : Type :=
| OpAdd (item : t)
| OpGet
| OpDone (item : t)
| OpShutDown.

Definition exec (q : workqueue) (x : op) : option workqueue :=
  match x with
  | OpAdd item => Some (Add item q)
  | OpGet => match Get q with Some (_, _, q') => Some q' | None => None end
  | OpDone item => Some (Done item q)
  | OpShutDown => Some (ShutDown q)
  end.

Fixpoint run (q : workqueue) (ops : list op) : option workqueue :=
  match ops with
  | [] => Some q
  | x :: rest => match exec q x with Some q' => run q' rest | None => None end
  end.

(** The caller's obligation stated at [Get]: [Done] is called with an item
    that is being processed. *)
Definition permitted (q : workqueue) (x : op) : bool :=
  match x with
  | OpDone item => bool_decide (item ∈ processing q)
  | _ => true
  end.

Fixpoint disciplined (q : workqueue) (ops : list op) : bool :=
  match ops with
  | [] => true
  | x :: rest =>
      permitted q x &&
      match exec q x with Some q' => disciplined q' rest | None => true end
  end.

(** The bookkeeping invariant; its third part is the comment on the
    [queue] field: no element of [queue] is in the processing set. *)
Definition wellFormed (q : workqueue) : Prop :=
  NoDup (queue q) /\
  (forall x, x ∈ queue q -> x ∈ dirty q) /\
  (forall x, x ∈ queue q -> x ∉ processing q).

(** The items of [xs] that are not in [seen], each where it occurs first. *)
Fixpoint firsts (seen : gset t) (xs : list t) : list t :=
  match xs with
  | [] => []
  | x :: rest =>
      if decide (x ∈ seen) then firsts seen rest
      else x :: firsts ({[x]} ∪ seen) rest
  end.

(** [n] calls of [Get] in a row that each hand out an item: the items in
    the order of the calls, and the queue after the last; [None] when one
    of the calls waits or reports the shutdown. *)
Fixpoint gets (n : nat) (q : workqueue) : option (list t * workqueue) :=
  match n with
  | O => Some ([], q)
  | S n' =>
      match Get q with
      | Some (Some item, _, q1) =>
          match gets n' q1 with
          | Some (items, q2) => Some (item :: items, q2)
          | None => None
          end
      | _ => None
      end
  end.

End WorkQueue.
End WorkQueue.

(* ================================================================== *)
(** * IEEE-754 binary64, as far as the rate limiters use it             *)
(* ================================================================== *)

Module Float64.

(** A finite [float64] is [m * 2^e]; the sign of a zero is not kept (no
    operation used here distinguishes the two zeros). *)
Inductive float64 : Type :=
| Finite (m e : Z)
| Infinity (negative : bool)
| NaN.

(** Number of binary digits of [|m|]. *)
Definition bits (m : Z) : Z :=
  if m =? 0 then 0 else Z.log2 (Z.abs m) + 1.

Definition precision : Z := 53.
Definition emin : Z := -1074.   (* the least subnormal is 2^-1074 *)
Definition emax : Z := 1024.    (* finite values are below 2^1024 *)

(** Rounding of the real [m * 2^e] to the nearest [float64], ties to even:
    [drop] low digits of [m] do not fit in 53 digits above [2^emin]. *)
Definition round (m e : Z) : float64 :=
  let drop := Z.max (bits m - precision) (emin - e) in
  if drop <=? 0 then
    if emax <? bits m + e then Infinity (m <? 0) else Finite m e
  else
    let a := Z.abs m in
    let q := Z.shiftr a drop in
    let r := a - Z.shiftl q drop in
    let half := Z.shiftl 1 (drop - 1) in
    let q' := if (half <? r) || ((r =? half) && Z.odd q) then q + 1 else q in
    let m' := Z.sgn m * q' in
    if emax <? bits m' + (e + drop) then Infinity (m <? 0)
    else Finite m' (e + drop).

(** [float64(n)] for an integer [n]. *)
Definition of_int (n : Z) : float64 := round n 0.

(** [a * b] *)
Definition mul (a b : float64) : float64 :=
  match a, b with
  | NaN, _ | _, NaN => NaN
  | Infinity s, Infinity s' => Infinity (xorb s s')
  | Infinity s, Finite m _ | Finite m _, Infinity s =>
      if m =? 0 then NaN else Infinity (xorb s (m <? 0))
  | Finite m1 e1, Finite m2 e2 => round (m1 * m2) (e1 + e2)
  end.

(** [a > b]; false when either is a NaN. *)
Definition gt (a b : float64) : bool :=
  match a, b with
  | NaN, _ | _, NaN => false
  | Infinity s, Infinity s' => negb s && s'
  | Infinity s, Finite _ _ => negb s
  | Finite _ _, Infinity s' => s'
  | Finite m1 e1, Finite m2 e2 =>
      let e0 := Z.min e1 e2 in
      Z.shiftl m2 (e2 - e0) <? Z.shiftl m1 (e1 - e0)
  end.

(** [math.Pow(2, y)] for an integral [y] (a [float64] made from an
    integer has [e >= 0]): exactly [2^y] between the least subnormal and
    the largest binade, [+Inf] above, [0] below. *)
Definition Pow2 (y : float64) : float64 :=
  match y with
  | NaN => NaN
  | Infinity false => Infinity false
  | Infinity true => Finite 0 0
  | Finite m e =>
      let n := Z.shiftl m e in
      if emax <=? n then Infinity false
      else if n <? emin then Finite 0 0
      else Finite 1 n
  end.

Definition MinInt64 : Z := - 2 ^ 63.
Definition MaxInt64 : Z := 2 ^ 63 - 1.

(** [int64(f)]: truncation toward zero.  When the truncated value is not
    an [int64] (or [f] is not finite) Go leaves the result to the
    implementation: [indefinite f]. *)
Definition to_int64 (indefinite : float64 -> Z) (f : float64) : Z :=
  match f with
  | Finite m e =>
      let t := if 0 <=? e then Z.shiftl m e else Z.quot m (2 ^ (- e)) in
      if (MinInt64 <=? t) && (t <=? MaxInt64) then t else indefinite f
  | _ => indefinite f
  end.

(** amd64: CVTTSD2SQ yields the "integer indefinite" value [0x8000...0]. *)
Definition amd64 (f : float64) : Z := MinInt64.

(** arm64: FCVTZS saturates, and converts a NaN to 0. *)
Definition arm64 (f : float64) : Z :=
  match f with
  | NaN => 0
  | Infinity negative => if negative then MinInt64 else MaxInt64
  | Finite m _ => if m <? 0 then MinInt64 else MaxInt64
  end.

End Float64.

(* ================================================================== *)
(** * Rate limiters (util/workqueue/default_rate_limiters.go)           *)
(* ================================================================== *)

(** [time.Duration] is an [int64] count of nanoseconds and, on a 64-bit
    platform, [int] is 64 bits wide: both are integers in [-2^63, 2^63),
    with wrap-around. *)
Definition wrap64 (z : Z) : Z := (z + 2 ^ 63) mod 2 ^ 64 - 2 ^ 63.

Definition Nanosecond : Z := 1.
Definition Millisecond : Z := 1000000.
Definition Second : Z := 1000000000.

(** [type RateLimiter interface { When; Forget; NumRequeues }] *)
Module RateLimiter.
Section RateLimiter.

Context {item : Type}.

(** The method set for receivers of type [L]; a method takes the
    receiver's state and gives the new one. *)
Record methods (L : Type) : Type := {
  When : item -> L -> Z * L;
  Forget : item -> L -> L;
  NumRequeues : item -> L -> Z * L;
}.

(** An interface value: a dynamic type, its methods, and the receiver. *)
Record RateLimiter : Type := {
  dynamicType : Type;
  table : methods dynamicType;
  receiver : dynamicType;
}.

Definition callWhen (x : item) (l : RateLimiter) : Z * RateLimiter :=
  let r := When _ (table l) x (receiver l) in
  (r.1, {| table := table l; receiver := r.2 |}).

Definition callForget (x : item) (l : RateLimiter) : RateLimiter :=
  {| table := table l; receiver := Forget _ (table l) x (receiver l) |}.

Definition callNumRequeues (x : item) (l : RateLimiter) : Z * RateLimiter :=
  let r := NumRequeues _ (table l) x (receiver l) in
  (r.1, {| table := table l; receiver := r.2 |}).

End RateLimiter.
Arguments methods : clear implicits.
Arguments RateLimiter : clear implicits.
End RateLimiter.

Module ItemExponentialFailureRateLimiter.
Section ItemExponentialFailureRateLimiter.

Context {item : Type} `{Countable item}.

(** What [time.Duration(backoff)] yields when [backoff] is out of range. *)
Variable indefinite : Float64.float64 -> Z.

Record limiter : Type := {
  failures : gmap item Z;
  baseDelay : Z;
  maxDelay : Z;
}.

Definition NewItemExponentialFailureRateLimiter (baseDelay maxDelay : Z) : limiter :=
  {| failures := ∅; baseDelay := baseDelay; maxDelay := maxDelay |}.

(** [r.failures[item]]: a missing key reads as 0. *)
Definition failuresAt (r : limiter) (x : item) : Z :=
  match failures r !! x with
  | Some n => n
  | None => 0
  end.

Definition When (x : item) (r : limiter) : Z * limiter :=
  let exp := failuresAt r x in
  let r' := {| failures := <[x := wrap64 (failuresAt r x + 1)]> (failures r);
               baseDelay := baseDelay r; maxDelay := maxDelay r |} in
  let backoff :=
    Float64.mul (Float64.of_int (baseDelay r))
                (Float64.Pow2 (Float64.of_int exp)) in
  if Float64.gt backoff (Float64.of_int Float64.MaxInt64) then (maxDelay r, r')
  else
    let calculated := Float64.to_int64 indefinite backoff in
    if maxDelay r <? calculated then (maxDelay r, r')
    else (calculated, r').

Definition NumRequeues (x : item) (r : limiter) : Z * limiter :=
  (failuresAt r x, r).

Definition Forget (x : item) (r : limiter) : limiter :=
  {| failures := delete x (failures r);
     baseDelay := baseDelay r; maxDelay := maxDelay r |}.

Definition asRateLimiter (r : limiter) : RateLimiter.RateLimiter item :=
  {| RateLimiter.table :=
       {| RateLimiter.When := When;
          RateLimiter.Forget := Forget;
          RateLimiter.NumRequeues := NumRequeues |};
     RateLimiter.receiver := r |}.

(** Calls on one limiter, in the order in which they take [failuresLock]. *)
Inductive call : Type :=
| CallWhen (x : item)
| CallForget (x : item)
| CallNumRequeues (x : item).

Definition step (r : limiter) (c : call) : limiter :=
  match c with
  | CallWhen x => (When x r).2
  | CallForget x => Forget x r
  | CallNumRequeues x => (NumRequeues x r).2
  end.

Definition run (r : limiter) (calls : list call) : limiter :=
  foldl step r calls.

(** The results of [n] successive [When(x)] calls, and the limiter after. *)
Fixpoint whens (n : nat) (x : item) (r : limiter) : list Z * limiter :=
  match n with
  | O => ([], r)
  | S n' => let '(d, r1) := When x r in
            let '(ds, r2) := whens n' x r1 in (d :: ds, r2)
  end.

(** Number of [When(x)] calls since the last [Forget(x)], or since the
    start when there is none. *)
Definition countCall (x : item) (n : Z) (c : call) : Z :=
  match c with
  | CallWhen y => if decide (x = y) then n + 1 else n
  | CallForget y => if decide (x = y) then 0 else n
  | CallNumRequeues _ => n
  end.

Definition sinceForget (x : item) (calls : list call) : Z :=
  foldl (countCall x) 0 calls.

End ItemExponentialFailureRateLimiter.
End ItemExponentialFailureRateLimiter.

Module MaxOfRateLimiter.
Section MaxOfRateLimiter.

Context {item : Type}.

Record limiter : Type := {
  limiters : list (RateLimiter.RateLimiter item);
}.

Definition NewMaxOfRateLimiter (limiters : list (RateLimiter.RateLimiter item)) : limiter :=
  {| limiters := limiters |}.

(** The loops visit the children in order; [visited] collects them with
    the state each call left. *)
Definition When (x : item) (r : limiter) : Z * limiter :=
  let loop :=
    foldl (fun '(ret, visited) child =>
             let '(curr, child') := RateLimiter.callWhen x child in
             (if ret <? curr then curr else ret, visited ++ [child']))
          (0, []) (limiters r) in
  (loop.1, {| limiters := loop.2 |}).

Definition NumRequeues (x : item) (r : limiter) : Z * limiter :=
  let loop :=
    foldl (fun '(ret, visited) child =>
             let '(curr, child') := RateLimiter.callNumRequeues x child in
             (if ret <? curr then curr else ret, visited ++ [child']))
          (0, []) (limiters r) in
  (loop.1, {| limiters := loop.2 |}).

Definition Forget (x : item) (r : limiter) : limiter :=
  {| limiters :=
       foldl (fun visited child => visited ++ [RateLimiter.callForget x child])
             [] (limiters r) |}.

(** [x] is the greatest element of [xs]. *)
Definition maximum (x : Z) (xs : list Z) : Prop :=
  x ∈ xs /\ forall y, y ∈ xs -> y <= x.

End MaxOfRateLimiter.
End MaxOfRateLimiter.

Module ItemFastSlowRateLimiter.
Section ItemFastSlowRateLimiter.

Context {item : Type} `{Countable item}.

Record limiter : Type := {
  failures : gmap item Z;
  maxFastAttempts : Z;
  fastDelay : Z;
  slowDelay : Z;
}.

Definition NewItemFastSlowRateLimiter (fastDelay slowDelay maxFastAttempts : Z) : limiter :=
  {| failures := ∅; fastDelay := fastDelay; slowDelay := slowDelay;
     maxFastAttempts := maxFastAttempts |}.

(** [r.failures[item]]: a missing key reads as 0. *)
Definition failuresAt (r : limiter) (x : item) : Z :=
  match failures r !! x with
  | Some n => n
  | None => 0
  end.

Definition When (x : item) (r : limiter) : Z * limiter :=
  let r' := {| failures := <[x := wrap64 (failuresAt r x + 1)]> (failures r);
               maxFastAttempts := maxFastAttempts r;
               fastDelay := fastDelay r; slowDelay := slowDelay r |} in
  if failuresAt r' x <=? maxFastAttempts r' then (fastDelay r', r')
  else (slowDelay r', r').

Definition NumRequeues (x : item) (r : limiter) : Z * limiter :=
  (failuresAt r x, r).

Definition Forget (x : item) (r : limiter) : limiter :=
  {| failures := delete x (failures r);
     maxFastAttempts := maxFastAttempts r;
     fastDelay := fastDelay r; slowDelay := slowDelay r |}.

Definition asRateLimiter (r : limiter) : RateLimiter.RateLimiter item :=
  {| RateLimiter.table :=
       {| RateLimiter.When := When;
          RateLimiter.Forget := Forget;
          RateLimiter.NumRequeues := NumRequeues |};
     RateLimiter.receiver := r |}.

(** The results of [n] successive [When(x)] calls, and the limiter after. *)
Fixpoint whens (n : nat) (x : item) (r : limiter) : list Z * limiter :=
  match n with
  | O => ([], r)
  | S n' => let '(d, r1) := When x r in
            let '(ds, r2) := whens n' x r1 in (d :: ds, r2)
  end.

End ItemFastSlowRateLimiter.
End ItemFastSlowRateLimiter.

Module BucketRateLimiter.
Section BucketRateLimiter.

Context {item : Type}.

(** [rate.Limiter] (golang.org/x/time/rate) is outside the repository: a
    token bucket with a state of type [rate_Limiter]; [reserveDelay] is
    [Reserve().Delay()], which takes a token and tells how long to wait
    for it. *)
Variable rate_Limiter : Type.
Variable reserveDelay : rate_Limiter -> Z * rate_Limiter.

Record limiter : Type := {
  Limiter : rate_Limiter;
}.

Definition When (x : item) (r : limiter) : Z * limiter :=
  let reservation := reserveDelay (Limiter r) in
  (reservation.1, {| Limiter := reservation.2 |}).

Definition NumRequeues (x : item) (r : limiter) : Z * limiter := (0, r).

Definition Forget (x : item) (r : limiter) : limiter := r.

Definition asRateLimiter (r : limiter) : RateLimiter.RateLimiter item :=
  {| RateLimiter.table :=
       {| RateLimiter.When := When;
          RateLimiter.Forget := Forget;
          RateLimiter.NumRequeues := NumRequeues |};
     RateLimiter.receiver := r |}.

End BucketRateLimiter.
End BucketRateLimiter.

Module DefaultControllerRateLimiter.
Section DefaultControllerRateLimiter.

Context {item : Type} `{Countable item}.

Variable indefinite : Float64.float64 -> Z.
Variable rate_Limiter : Type.
Variable reserveDelay : rate_Limiter -> Z * rate_Limiter.
(** [rate.NewLimiter(rate.Limit(10), 100)] *)
Variable newLimiter : rate_Limiter.

Definition DefaultControllerRateLimiter : @MaxOfRateLimiter.limiter item :=
  MaxOfRateLimiter.NewMaxOfRateLimiter
    [ItemExponentialFailureRateLimiter.asRateLimiter indefinite
       (ItemExponentialFailureRateLimiter.NewItemExponentialFailureRateLimiter
          (5 * Millisecond) (1000 * Second));
     BucketRateLimiter.asRateLimiter rate_Limiter reserveDelay
       {| BucketRateLimiter.Limiter := newLimiter |}].

(** Calls on the composed limiter, in the order in which they are made. *)
Definition step (r : @MaxOfRateLimiter.limiter item)
    (c : @ItemExponentialFailureRateLimiter.call item) : MaxOfRateLimiter.limiter :=
  match c with
  | ItemExponentialFailureRateLimiter.CallWhen x => (MaxOfRateLimiter.When x r).2
  | ItemExponentialFailureRateLimiter.CallForget x => MaxOfRateLimiter.Forget x r
  | ItemExponentialFailureRateLimiter.CallNumRequeues x =>
      (MaxOfRateLimiter.NumRequeues x r).2
  end.

Definition run (r : @MaxOfRateLimiter.limiter item)
    (calls : list (@ItemExponentialFailureRateLimiter.call item))
    : MaxOfRateLimiter.limiter :=
  foldl step r calls.

End DefaultControllerRateLimiter.
End DefaultControllerRateLimiter.

(* ================================================================== *)
(** * The rate-limiting queue (util/workqueue/rate_limiting_queue.go)   *)
(* ================================================================== *)

Module RateLimitingQueue.
Section RateLimitingQueue.

Context {item : Type}.

(** [DelayingInterface] (delaying_queue.go) is not among the files
    embedded here: a delaying queue has a state of type [delaying], and
    [AddAfter(item, duration)] changes it. *)
Variable delaying : Type.
Variable AddAfter : item -> Z -> delaying -> delaying.

Record rateLimitingType : Type := {
  DelayingInterface : delaying;
  rateLimiter : RateLimiter.RateLimiter item;
}.

Definition NewRateLimitingQueue (NewDelayingQueue : delaying)
    (rateLimiter : RateLimiter.RateLimiter item) : rateLimitingType :=
  {| DelayingInterface := NewDelayingQueue; rateLimiter := rateLimiter |}.

Definition AddRateLimited (x : item) (q : rateLimitingType) : rateLimitingType :=
  let when := RateLimiter.callWhen x (rateLimiter q) in
  {| DelayingInterface := AddAfter x when.1 (DelayingInterface q);
     rateLimiter := when.2 |}.

Definition NumRequeues (x : item) (q : rateLimitingType) : Z * rateLimitingType :=
  let n := RateLimiter.callNumRequeues x (rateLimiter q) in
  (n.1, {| DelayingInterface := DelayingInterface q; rateLimiter := n.2 |}).

Definition Forget (x : item) (q : rateLimitingType) : rateLimitingType :=
  {| DelayingInterface := DelayingInterface q;
     rateLimiter := RateLimiter.callForget x (rateLimiter q) |}.

(** Calls on the queue: [CallWhen x] stands for [AddRateLimited(x)]. *)
Definition step (q : rateLimitingType)
    (c : @ItemExponentialFailureRateLimiter.call item) : rateLimitingType :=
  match c with
  | ItemExponentialFailureRateLimiter.CallWhen x => AddRateLimited x q
  | ItemExponentialFailureRateLimiter.CallForget x => Forget x q
  | ItemExponentialFailureRateLimiter.CallNumRequeues x => (NumRequeues x q).2
  end.

Definition run (q : rateLimitingType)
    (calls : list (@ItemExponentialFailureRateLimiter.call item)) : rateLimitingType :=
  foldl step q calls.

(** What the delaying queue of a queue over an exponential limiter [e]
    is to become by the calls: one [AddAfter] per [AddRateLimited], with
    the delay of the limiter's [When]. *)
Context `{Countable item}.
Variable indefinite : Float64.float64 -> Z.

Fixpoint scheduled (e : @ItemExponentialFailureRateLimiter.limiter item _ _) (d : delaying)
    (calls : list (@ItemExponentialFailureRateLimiter.call item)) : delaying :=
  match calls with
  | [] => d
  | ItemExponentialFailureRateLimiter.CallWhen x :: rest =>
      scheduled (ItemExponentialFailureRateLimiter.When indefinite x e).2
        (AddAfter x (ItemExponentialFailureRateLimiter.When indefinite x e).1 d) rest
  | c :: rest => scheduled (ItemExponentialFailureRateLimiter.step indefinite e c) d rest
  end.

End RateLimitingQueue.
End RateLimitingQueue.

(* ================================================================== *)
(** * Event handlers (the controller file)                              *)
(* ================================================================== *)

(** [type ResourceEventHandler interface { OnAdd; OnUpdate; OnDelete }]:
    a handler of type [H] is changed by each notification. *)
Module ResourceEventHandler.
Record methods (obj H : Type) : Type := {
  OnAdd : obj -> H -> H;
  OnUpdate : obj -> obj -> H -> H;
  OnDelete : obj -> H -> H;
}.
Arguments OnAdd {obj H} _ _ _.
Arguments OnUpdate {obj H} _ _ _ _.
Arguments OnDelete {obj H} _ _ _.
End ResourceEventHandler.

Module FilteringResourceEventHandler.
Section FilteringResourceEventHandler.

Context {obj H : Type}.

Record handler : Type := {
  FilterFunc : obj -> bool;
  Handler : ResourceEventHandler.methods obj H;
}.

Definition OnAdd (r : handler) (o : obj) (h : H) : H :=
  if negb (FilterFunc r o) then h
  else ResourceEventHandler.OnAdd (Handler r) o h.

Definition OnUpdate (r : handler) (oldObj newObj : obj) (h : H) : H :=
  let newer := FilterFunc r newObj in
  let older := FilterFunc r oldObj in
  if newer && older then ResourceEventHandler.OnUpdate (Handler r) oldObj newObj h
  else if newer && negb older then ResourceEventHandler.OnAdd (Handler r) newObj h
  else if negb newer && older then ResourceEventHandler.OnDelete (Handler r) oldObj h
  else h.

Definition OnDelete (r : handler) (o : obj) (h : H) : H :=
  if negb (FilterFunc r o) then h
  else ResourceEventHandler.OnDelete (Handler r) o h.

End FilteringResourceEventHandler.
End FilteringResourceEventHandler.

(** [type ResourceEventHandlerFuncs struct { AddFunc; UpdateFunc;
    DeleteFunc }]: each function may be [nil]. *)
Module ResourceEventHandlerFuncs.
Section ResourceEventHandlerFuncs.

Context {obj H : Type}.

Record funcs : Type := {
  AddFunc : option (obj -> H -> H);
  UpdateFunc : option (obj -> obj -> H -> H);
  DeleteFunc : option (obj -> H -> H);
}.

Definition OnAdd (r : funcs) (o : obj) (h : H) : H :=
  match AddFunc r with
  | Some f => f o h
  | None => h
  end.

Definition OnUpdate (r : funcs) (oldObj newObj : obj) (h : H) : H :=
  match UpdateFunc r with
  | Some f => f oldObj newObj h
  | None => h
  end.

Definition OnDelete (r : funcs) (o : obj) (h : H) : H :=
  match DeleteFunc r with
  | Some f => f o h
  | None => h
  end.

Definition asHandler (r : funcs) : ResourceEventHandler.methods obj H :=
  {| ResourceEventHandler.OnAdd := OnAdd r;
     ResourceEventHandler.OnUpdate := OnUpdate r;
     ResourceEventHandler.OnDelete := OnDelete r |}.

End ResourceEventHandlerFuncs.
End ResourceEventHandlerFuncs.

(** Sequences of notifications, as a handler receives them. *)
Module Notifications.
Section Notifications.

Context {obj H : Type}.

Inductive notification : Type :=
| NotifyAdd (o : obj)
| NotifyUpdate (oldObj newObj : obj)
| NotifyDelete (o : obj).

(** The call of the handler's method. *)
Definition deliver (h : ResourceEventHandler.methods obj H) (hs : H) (n : notification)
    : H :=
  match n with
  | NotifyAdd o => ResourceEventHandler.OnAdd h o hs
  | NotifyUpdate oldObj newObj => ResourceEventHandler.OnUpdate h oldObj newObj hs
  | NotifyDelete o => ResourceEventHandler.OnDelete h o hs
  end.

(** The call of the filtering handler's method. *)
Definition deliverFiltered (r : @FilteringResourceEventHandler.handler obj H) (hs : H)
    (n : notification) : H :=
  match n with
  | NotifyAdd o => FilteringResourceEventHandler.OnAdd r o hs
  | NotifyUpdate oldObj newObj => FilteringResourceEventHandler.OnUpdate r oldObj newObj hs
  | NotifyDelete o => FilteringResourceEventHandler.OnDelete r o hs
  end.

(** What the filtering handler passes on to the wrapped handler. *)
Definition filtered (filter : obj -> bool) (n : notification) : list notification :=
  match n with
  | NotifyAdd o => if filter o then [NotifyAdd o] else []
  | NotifyUpdate oldObj newObj =>
      match filter newObj, filter oldObj with
      | true, true => [NotifyUpdate oldObj newObj]
      | true, false => [NotifyAdd newObj]
      | false, true => [NotifyDelete oldObj]
      | false, false => []
      end
  | NotifyDelete o => if filter o then [NotifyDelete o] else []
  end.

(** The notifications about one object, from the state [known] of the
    receiver: it knows no object ([None]) or the last one it was told
    ([Some]).  An add comes when none is known, an update replaces the
    known object, a delete removes it. *)
Fixpoint lifecycle (known : option obj) (ns : list notification) : Prop :=
  match ns with
  | [] => True
  | NotifyAdd o :: rest => known = None /\ lifecycle (Some o) rest
  | NotifyUpdate oldObj newObj :: rest => known = Some oldObj /\ lifecycle (Some newObj) rest
  | NotifyDelete o :: rest => known = Some o /\ lifecycle None rest
  end.

(** The object known after the notifications. *)
Definition after (known : option obj) (ns : list notification) : option obj :=
  foldl (fun known n =>
           match n with
           | NotifyAdd o | NotifyUpdate _ o => Some o
           | NotifyDelete _ => None
           end) known ns.

(** The part of a receiver's knowledge that passes a filter. *)
Definition passing (filter : obj -> bool) (known : option obj) : option obj :=
  match known with
  | Some o => if filter o then Some o else None
  | None => None
  end.

End Notifications.
End Notifications.

(* ================================================================== *)
(** * The informer's [Process] function (the controller file)           *)
(* ================================================================== *)

Module Informer.
Section Informer.

Context {object error H : Type}.

Local Abbreviation obj := (option object).
Local Abbreviation cache := (@Cache.cache object error).
Local Abbreviation KeyError := (@Cache.KeyError object error).
Local Abbreviation M := (outcome (@ThreadSafeStore.panicValue error)).

(** [DeltaType], [Delta] and [Deltas] are declared in delta_fifo.go, which
    is not among the files embedded here.  [newInformer] reads a [Deltas]
    as a slice of values with the fields [Type] and [Object], and
    distinguishes the five types below. *)
Inductive DeltaType : Type :=
| Added
| Updated
| Deleted
| Replaced
| Sync.

Record Delta : Type := {
  Type' : DeltaType;
  Object : obj;
}.

(** One iteration of [for _, d := range obj.(Deltas)]: the new store, the
    handler after its notification, and the error returned, if any. *)
Definition processDelta (h : ResourceEventHandler.methods obj H) (d : Delta)
    (clientState : cache) (hs : H) : M (cache * H * option KeyError) :=
  match Type' d with
  | Sync | Replaced | Added | Updated =>
      let '(old, exists_, err) := Cache.Get (Object d) clientState in
      match err, exists_ with
      | None, true =>
          do r <- Cache.Update (Object d) clientState;
          match r.2 with
          | Some err => Return (r.1, hs, Some err)
          | None => Return (r.1, ResourceEventHandler.OnUpdate h old (Object d) hs, None)
          end
      | _, _ =>
          do r <- Cache.Add (Object d) clientState;
          match r.2 with
          | Some err => Return (r.1, hs, Some err)
          | None => Return (r.1, ResourceEventHandler.OnAdd h (Object d) hs, None)
          end
      end
  | Deleted =>
      do r <- Cache.Delete (Object d) clientState;
      match r.2 with
      | Some err => Return (r.1, hs, Some err)
      | None => Return (r.1, ResourceEventHandler.OnDelete h (Object d) hs, None)
      end
  end.

(** The [Process] function that [newInformer] gives the controller. *)
Fixpoint Process (h : ResourceEventHandler.methods obj H) (deltas : list Delta)
    (clientState : cache) (hs : H) : M (cache * H * option KeyError) :=
  match deltas with
  | [] => Return (clientState, hs, None)
  | d :: rest =>
      do r <- processDelta h d clientState hs;
      match r.2 with
      | Some err => Return r
      | None => Process h rest r.1.1 r.1.2
      end
  end.

(** ** What a handler can make of its notifications *)

(** A handler that keeps its own copy of the store, by key. *)
Definition replay (keyFunc : obj -> result error string) (view : gmap string obj)
    (n : @Notifications.notification obj) : gmap string obj :=
  match n with
  | Notifications.NotifyAdd o | Notifications.NotifyUpdate _ o =>
      match keyFunc o with
      | Ok key => <[key := o]> view
      | Fail _ => view
      end
  | Notifications.NotifyDelete o =>
      match keyFunc o with
      | Ok key => delete key view
      | Fail _ => view
      end
  end.

(** The notification fits the copy: an add is for a key that is not in
    it, an update names the object that the copy holds for the key. *)
Definition fits (keyFunc : obj -> result error string) (view : gmap string obj)
    (n : @Notifications.notification obj) : Prop :=
  match n with
  | Notifications.NotifyAdd o =>
      exists key, keyFunc o = Ok key /\ view !! key = None
  | Notifications.NotifyUpdate oldObj o =>
      exists key, keyFunc o = Ok key /\ view !! key = Some oldObj
  | Notifications.NotifyDelete o =>
      exists key, keyFunc o = Ok key
  end.

Fixpoint coherent (keyFunc : obj -> result error string) (view : gmap string obj)
    (ns : list (@Notifications.notification obj)) : Prop :=
  match ns with
  | [] => True
  | n :: rest => fits keyFunc view n /\ coherent keyFunc (replay keyFunc view n) rest
  end.

(** The notification is the one for the delta. *)
Definition announces (d : Delta) (n : @Notifications.notification obj) : Prop :=
  match n with
  | Notifications.NotifyAdd o | Notifications.NotifyUpdate _ o =>
      Type' d <> Deleted /\ o = Object d
  | Notifications.NotifyDelete o => Type' d = Deleted /\ o = Object d
  end.

End Informer.
End Informer.

(* ================================================================== *)
(** * Concrete instances                                                *)
(* ================================================================== *)

Module Fixtures.

Local Open Scope string_scope.

(** Objects are strings; [nil] has no key. *)
Definition nameKey (o : option string) : result string string :=
  match o with
  | Some name => Ok name
  | None => Fail "object has no meta"
  end.

Definition emptyStore : @Cache.cache string string := Cache.NewStore nameKey.

(** An index function that files [nil] under a value of its own. *)
Definition byValue (o : option string) : result string (list string) :=
  match o with
  | Some value => Ok [value]
  | None => Ok ["<nil>"]
  end.

Definition valueIndexers : gomap (option string -> result string (list string)) :=
  madeMap {[ "byValue" := byValue ]}.

(** A run of the store over non-nil objects. *)
Definition sampleOps : list (@ThreadSafeStore.op string) :=
  [ThreadSafeStore.OpAdd "a" (Some "x"); ThreadSafeStore.OpAdd "b" (Some "x");
   ThreadSafeStore.OpUpdate "a" (Some "y"); ThreadSafeStore.OpDelete "b";
   ThreadSafeStore.OpReplace (madeMap {["c" := Some "x"; "d" := Some "y"]});
   ThreadSafeStore.OpAdd "c" (Some "z")].

(** Three objects, two of them filed under the same value. *)
Definition indexedOps : list (@ThreadSafeStore.op string) :=
  [ThreadSafeStore.OpAdd "a" (Some "x"); ThreadSafeStore.OpAdd "b" (Some "x");
   ThreadSafeStore.OpAdd "c" (Some "y")].

Definition indexedStore : @ThreadSafeStore.threadSafeMap string string :=
  match ThreadSafeStore.run indexedOps
          (ThreadSafeStore.NewThreadSafeStore valueIndexers (madeMap ∅)) with
  | Return c => c
  | Panic _ => ThreadSafeStore.NewThreadSafeStore valueIndexers (madeMap ∅)
  end.

(** A handler that records the notifications it gets, latest first. *)
Inductive notification : Type :=
| Added (o : string)
| Updated (oldObj newObj : string)
| Deleted (o : string).

Definition recorder : ResourceEventHandler.methods string (list notification) :=
  {| ResourceEventHandler.OnAdd := fun o h => Added o :: h;
     ResourceEventHandler.OnUpdate := fun oldObj newObj h => Updated oldObj newObj :: h;
     ResourceEventHandler.OnDelete := fun o h => Deleted o :: h |}.

(** A handler that keeps a journal of its notifications, oldest first. *)
Definition journal {obj : Type}
    : ResourceEventHandler.methods obj (list (@Notifications.notification obj)) :=
  {| ResourceEventHandler.OnAdd := fun o h => (h ++ [Notifications.NotifyAdd o])%list;
     ResourceEventHandler.OnUpdate :=
       fun oldObj newObj h => (h ++ [Notifications.NotifyUpdate oldObj newObj])%list;
     ResourceEventHandler.OnDelete :=
       fun o h => (h ++ [Notifications.NotifyDelete o])%list |}.

(** The filter "object.label == foo" in front of the journal. *)
Definition fooJournal
    : @FilteringResourceEventHandler.handler string
        (list (@Notifications.notification string)) :=
  {| FilteringResourceEventHandler.FilterFunc := String.eqb "foo";
     FilteringResourceEventHandler.Handler := journal |}.

(** Deltas of an informer over objects that are their name. *)
Definition sampleDeltas : list (@Informer.Delta string) :=
  [{| Informer.Type' := Informer.Added; Informer.Object := Some "a" |};
   {| Informer.Type' := Informer.Sync; Informer.Object := Some "a" |};
   {| Informer.Type' := Informer.Updated; Informer.Object := Some "b" |};
   {| Informer.Type' := Informer.Deleted; Informer.Object := Some "a" |}].

(** Filter "object.label == foo" over objects that are their label. *)
Definition labelIsFoo : @FilteringResourceEventHandler.handler string (list notification) :=
  {| FilteringResourceEventHandler.FilterFunc := String.eqb "foo";
     FilteringResourceEventHandler.Handler := recorder |}.

(** [exponential(10ms, 40ms)] of scenario S4. *)
Definition exponential_10_40 : @ItemExponentialFailureRateLimiter.limiter string _ _ :=
  ItemExponentialFailureRateLimiter.NewItemExponentialFailureRateLimiter
    (10 * Millisecond) (40 * Millisecond).

(** A base delay above the maximal delay. *)
Definition exponential_50_40 : @ItemExponentialFailureRateLimiter.limiter string _ _ :=
  ItemExponentialFailureRateLimiter.NewItemExponentialFailureRateLimiter
    (50 * Millisecond) (40 * Millisecond).

(** A base delay of one nanosecond. *)
Definition exponential_1ns : @ItemExponentialFailureRateLimiter.limiter string _ _ :=
  ItemExponentialFailureRateLimiter.NewItemExponentialFailureRateLimiter
    (1 * Nanosecond) (1000 * Second).

(** A negative base delay. *)
Definition exponential_negative : @ItemExponentialFailureRateLimiter.limiter string _ _ :=
  ItemExponentialFailureRateLimiter.NewItemExponentialFailureRateLimiter
    (- (1 * Millisecond)) (1 * Second).

(** [DefaultItemBasedRateLimiter()] *)
Definition DefaultItemBasedRateLimiter : @ItemExponentialFailureRateLimiter.limiter string _ _ :=
  ItemExponentialFailureRateLimiter.NewItemExponentialFailureRateLimiter
    (1 * Millisecond) (1000 * Second).

End Fixtures.

(* ================================================================== *)
(** * Properties of the key functions                                   *)
(* ================================================================== *)

Module KeyFacts.
Import Keys.

Lemma Split_length s sep : length (Split s sep) = S (count sep s).
Proof.
  induction s as [|a s IH]; simpl; [reflexivity|].
  destruct (Ascii.eqb a sep); simpl.
  - now rewrite IH.
  - destruct (Split s sep) as [|p ps]; simpl in *; congruence.
Qed.

Lemma Split_no_sep s sep : count sep s = 0%nat -> Split s sep = [s].
Proof.
  induction s as [|a s IH]; simpl; [reflexivity|].
  destruct (Ascii.eqb a sep); simpl; [discriminate|].
  intros H. now rewrite (IH H).
Qed.

Lemma Split_append s t sep :
  count sep s = 0%nat ->
  Split (String.append s (String sep t)) sep = s :: Split t sep.
Proof.
  induction s as [|a s IH]; simpl.
  - intros _. now rewrite Ascii.eqb_refl.
  - destruct (Ascii.eqb a sep); simpl; [discriminate|].
    intros H. now rewrite (IH H).
Qed.

(** C8. [MetaNamespaceKeyFunc] yields "namespace/name", or just "name" for
    an empty namespace; [SplitMetaNamespaceKey] inverts it on every object
    whose namespace and name contain no '/'; and it rejects every key with
    two or more '/'. *)
Theorem key_round_trip :
  (forall namespace name,
      MetaNamespaceKeyFunc (WithMeta namespace name)
      = Ok (match namespace with
            | EmptyString => name
            | _ => String.append namespace (String slash name)
            end)) /\
  (forall namespace name,
      count slash namespace = 0%nat -> count slash name = 0%nat ->
      exists key,
        MetaNamespaceKeyFunc (WithMeta namespace name) = Ok key /\
        SplitMetaNamespaceKey key = Ok (namespace, name)) /\
  (forall key,
      (2 <= count slash key)%nat ->
      SplitMetaNamespaceKey key = Fail (ErrUnexpectedKeyFormat key)).
Proof.
  split; [|split].
  - intros [|c ns] name; reflexivity.
  - intros ns name Hns Hname.
    destruct ns as [|c ns].
    + exists name. split; [reflexivity|].
      unfold SplitMetaNamespaceKey. now rewrite Split_no_sep.
    + eexists. split; [reflexivity|].
      unfold SplitMetaNamespaceKey.
      rewrite Split_append by exact Hns.
      now rewrite Split_no_sep.
  - intros key Hk. unfold SplitMetaNamespaceKey.
    pose proof (Split_length key slash) as Hlen.
    destruct (Split key slash) as [|a [|b [|c l]]]; simpl in Hlen;
      try reflexivity; lia.
Qed.

Lemma key_round_trip_witness :
  SplitMetaNamespaceKey "kube-system/coredns" = Ok ("kube-system", "coredns")%string /\
  SplitMetaNamespaceKey "a/b/c" = Fail (ErrUnexpectedKeyFormat "a/b/c").
Proof.
  split.
  - destruct (proj1 (proj2 key_round_trip) "kube-system" "coredns"%string
                eq_refl eq_refl) as [key [Hkey Hsplit]].
    injection Hkey as <-. exact Hsplit.
  - apply (proj2 (proj2 key_round_trip)). vm_compute. lia.
Defined.

End KeyFacts.

(* ================================================================== *)
(** * Properties of the filtering handler                               *)
(* ================================================================== *)

Module HandlerFacts.
Import FilteringResourceEventHandler.

(** C5. [OnUpdate] of the filtering handler calls the wrapped handler's
    [OnUpdate(old, new)] when the filter passes both objects, its
    [OnAdd(new)] when only the new one passes, its [OnDelete(old)] when
    only the old one passes, and nothing when neither passes. *)
Theorem filtering_transitions {obj H : Type} (r : @handler obj H)
    (oldObj newObj : obj) (h : H) :
  (FilterFunc r newObj = true -> FilterFunc r oldObj = true ->
   OnUpdate r oldObj newObj h
   = ResourceEventHandler.OnUpdate (Handler r) oldObj newObj h) /\
  (FilterFunc r newObj = true -> FilterFunc r oldObj = false ->
   OnUpdate r oldObj newObj h = ResourceEventHandler.OnAdd (Handler r) newObj h) /\
  (FilterFunc r newObj = false -> FilterFunc r oldObj = true ->
   OnUpdate r oldObj newObj h = ResourceEventHandler.OnDelete (Handler r) oldObj h) /\
  (FilterFunc r newObj = false -> FilterFunc r oldObj = false ->
   OnUpdate r oldObj newObj h = h).
Proof.
  unfold OnUpdate.
  split; [|split; [|split]]; intros Hnew Hold; rewrite Hnew, Hold; reflexivity.
Qed.

(** Scenario S6 on the recording handler. *)
Lemma filtering_transitions_witness :
  OnUpdate Fixtures.labelIsFoo "bar" "foo" [] = [Fixtures.Added "foo"] /\
  OnUpdate Fixtures.labelIsFoo "foo" "bar" [] = [Fixtures.Deleted "foo"] /\
  OnUpdate Fixtures.labelIsFoo "foo" "foo" [] = [Fixtures.Updated "foo" "foo"] /\
  OnUpdate Fixtures.labelIsFoo "bar" "baz" [] = [].
Proof.
  split; [|split; [|split]].
  - apply (proj1 (proj2 (filtering_transitions Fixtures.labelIsFoo "bar" "foo" [])));
      reflexivity.
  - apply (proj1 (proj2 (proj2 (filtering_transitions Fixtures.labelIsFoo "foo" "bar" []))));
      reflexivity.
  - apply (proj1 (filtering_transitions Fixtures.labelIsFoo "foo" "foo" []));
      reflexivity.
  - apply (proj2 (proj2 (proj2 (filtering_transitions Fixtures.labelIsFoo "bar" "baz" []))));
      reflexivity.
Defined.

End HandlerFacts.

(* ================================================================== *)
(** * Properties of the cache                                           *)
(* ================================================================== *)

Module CacheFacts.
Import Cache.

Section CacheFacts.

Context {object error : Type}.

Lemma keyAll_first_failure (f : option object -> result error string)
    (before : list (option object)) item after err items :
  Forall (fun o => exists key, f o = Ok key) before ->
  f item = Fail err ->
  keyAll f (before ++ item :: after) items = Fail {| Obj := item; Err := err |}.
Proof.
  intros Hbefore Hitem. revert items.
  induction Hbefore as [|o before [key Hkey] _ IH]; intros items; simpl.
  - now rewrite Hitem.
  - rewrite Hkey. apply IH.
Qed.

(** C4, as the code has it.  When the key function fails on an object of
    the list, [Replace] returns the [KeyError] of the first such object
    and the cache is left as it was: no object of the list is stored. *)
Theorem Replace_key_failure (c : @cache object error)
    (before : list (option object)) item after err :
  Forall (fun o => exists key, keyFunc c o = Ok key) before ->
  keyFunc c item = Fail err ->
  Replace (before ++ item :: after) c
  = Return (c, Some {| Obj := item; Err := err |}).
Proof.
  intros Hbefore Hitem. unfold Replace.
  now rewrite (keyAll_first_failure _ _ _ _ _ _ Hbefore Hitem).
Qed.

(** C9. When the key function fails on [o], each of [Add], [Update] and
    [Delete] returns the [KeyError] carrying [o] and the cause, and the
    cache, its store included, is the one before the call. *)
Theorem key_failure_leaves_store (c : @cache object error) (o : option object) err :
  keyFunc c o = Fail err ->
  Add o c = Return (c, Some {| Obj := o; Err := err |}) /\
  Update o c = Return (c, Some {| Obj := o; Err := err |}) /\
  Delete o c = Return (c, Some {| Obj := o; Err := err |}).
Proof.
  intros Hkey. unfold Add, Update, Delete. rewrite Hkey. auto.
Qed.

End CacheFacts.

Local Open Scope string_scope.

(** The claim of C4 fails: the key function fails on the second object
    only, and neither of the two others is stored by [Replace]. *)
Lemma Replace_stores_nothing_on_failure :
  exists c' keyError,
    Replace [Some "a"; None; Some "b"] Fixtures.emptyStore = Return (c', Some keyError) /\
    Obj keyError = None /\
    keyFunc Fixtures.emptyStore (Some "a") = Ok "a" /\
    keyFunc Fixtures.emptyStore (Some "b") = Ok "b" /\
    GetByKey "a" c' = (None, false) /\
    GetByKey "b" c' = (None, false).
Proof.
  eexists _, _. split; [reflexivity|]. repeat split.
Qed.

Lemma Replace_key_failure_witness :
  Replace [Some "a"; None; Some "b"] Fixtures.emptyStore
  = Return (Fixtures.emptyStore,
            Some {| Obj := None; Err := "object has no meta" |}).
Proof.
  apply (Replace_key_failure Fixtures.emptyStore [Some "a"] None [Some "b"]).
  - constructor; [|constructor]. exists "a". reflexivity.
  - reflexivity.
Defined.

Lemma key_failure_leaves_store_witness :
  Add None Fixtures.emptyStore
  = Return (Fixtures.emptyStore, Some {| Obj := None; Err := "object has no meta" |}) /\
  Update None Fixtures.emptyStore
  = Return (Fixtures.emptyStore, Some {| Obj := None; Err := "object has no meta" |}) /\
  Delete None Fixtures.emptyStore
  = Return (Fixtures.emptyStore, Some {| Obj := None; Err := "object has no meta" |}).
Proof.
  apply (key_failure_leaves_store Fixtures.emptyStore None). reflexivity.
Defined.

End CacheFacts.

(* ================================================================== *)
(** * Properties of the work queue                                      *)
(* ================================================================== *)

Module QueueFacts.
Import WorkQueue.

Section QueueFacts.

Context {t : Type} `{Countable t}.

Local Abbreviation wq := (@workqueue t _ _).

Lemma wellFormed_newQueue : wellFormed (newQueue : wq).
Proof.
  split; [constructor|]. split; intros x Hx; inversion Hx.
Qed.

Lemma wellFormed_Add item (q : wq) : wellFormed q -> wellFormed (Add item q).
Proof.
  intros (Hnodup & Hdirty & Hproc). unfold Add.
  destruct (shuttingDown q); [easy|].
  destruct (decide (item ∈ dirty q)) as [|Hfresh]; [easy|].
  destruct (decide (item ∈ processing q)) as [|Hidle]; unfold wellFormed; simpl.
  - split; [exact Hnodup|]. split; [|exact Hproc].
    intros x Hx. apply elem_of_union_r. auto.
  - split; [|split].
    + apply NoDup_app. split; [exact Hnodup|]. split; [|apply NoDup_singleton].
      intros x Hx Hx'. apply list_elem_of_singleton in Hx'. subst x. auto.
    + intros x Hx. apply elem_of_app in Hx as [Hx|Hx].
      * apply elem_of_union_r. auto.
      * apply list_elem_of_singleton in Hx. subst x.
        apply elem_of_union_l, elem_of_singleton. reflexivity.
    + intros x Hx. apply elem_of_app in Hx as [Hx|Hx]; [auto|].
      apply list_elem_of_singleton in Hx. now subst x.
Qed.

Lemma wellFormed_Get (q : wq) item shutdown q' :
  wellFormed q -> Get q = Some (item, shutdown, q') -> wellFormed q'.
Proof.
  intros (Hnodup & Hdirty & Hproc). unfold Get.
  destruct (queue q) as [|head rest] eqn:Hqueue.
  - destruct (shuttingDown q); [|discriminate].
    intros [= <- <- <-]. unfold wellFormed. rewrite Hqueue.
    split; [constructor|]. split; intros x Hx; inversion Hx.
  - intros [= <- <- <-]. unfold wellFormed; simpl.
    apply NoDup_cons in Hnodup as [Hhead Hrest].
    split; [exact Hrest|]. split.
    + intros x Hx. apply elem_of_difference. split.
      * apply Hdirty. apply elem_of_cons; now right.
      * intros Heq. apply elem_of_singleton in Heq. now subst x.
    + intros x Hx Hin. apply elem_of_union in Hin as [Hin|Hin].
      * apply elem_of_singleton in Hin. now subst x.
      * revert Hin. apply Hproc. apply elem_of_cons; now right.
Qed.

Lemma wellFormed_Done item (q : wq) :
  wellFormed q -> item ∈ processing q -> wellFormed (Done item q).
Proof.
  intros (Hnodup & Hdirty & Hproc) Hitem. unfold Done.
  assert (Houtside : item ∉ queue q) by (intros Hin; now apply (Hproc item)).
  assert (Hkeep : forall x, x ∈ queue q -> x ∉ processing q ∖ {[item]}).
  { intros x Hx Hin. apply elem_of_difference in Hin as [Hin _].
    now apply (Hproc x). }
  destruct (decide (item ∈ dirty q)) as [Hdirty'|]; unfold wellFormed; simpl.
  - split; [|split].
    + apply NoDup_app. split; [exact Hnodup|]. split; [|apply NoDup_singleton].
      intros x Hx Hx'. apply list_elem_of_singleton in Hx'. now subst x.
    + intros x Hx. apply elem_of_app in Hx as [Hx|Hx]; [auto|].
      apply list_elem_of_singleton in Hx. now subst x.
    + intros x Hx. apply elem_of_app in Hx as [Hx|Hx]; [auto|].
      apply list_elem_of_singleton in Hx. subst x.
      intros Hin. apply elem_of_difference in Hin as [_ Hne].
      apply Hne, elem_of_singleton. reflexivity.
  - auto.
Qed.

Lemma wellFormed_ShutDown (q : wq) : wellFormed q -> wellFormed (ShutDown q).
Proof. intros Hq. exact Hq. Qed.

Lemma wellFormed_exec (q : wq) x q' :
  wellFormed q -> permitted q x = true -> exec q x = Some q' -> wellFormed q'.
Proof.
  intros Hq Hx. destruct x as [item| |item|]; simpl.
  - intros [= <-]. now apply wellFormed_Add.
  - destruct (Get q) as [[[item shutdown] q1]|] eqn:Hget; [|discriminate].
    intros [= <-]. eapply wellFormed_Get; eauto.
  - intros [= <-]. apply wellFormed_Done; [exact Hq|].
    simpl in Hx. now apply bool_decide_eq_true in Hx.
  - intros [= <-]. now apply wellFormed_ShutDown.
Qed.

Lemma wellFormed_run ops : forall (q q' : wq),
  wellFormed q -> disciplined q ops = true -> run q ops = Some q' -> wellFormed q'.
Proof.
  induction ops as [|x ops IH]; intros q q' Hq Hops; simpl.
  - now intros [= <-].
  - simpl in Hops. apply andb_true_iff in Hops as [Hx Hrest].
    destruct (exec q x) as [q1|] eqn:Hexec; [|discriminate].
    apply IH; [|exact Hrest]. eapply wellFormed_exec; eauto.
Qed.

(** C2, for callers that keep to the protocol.  After every sequence of
    [Add], [Get], [Done] and [ShutDown] calls on a fresh queue in which
    [Done] is only called with an item that is being processed: the queue
    has no duplicate; every item of the queue is dirty; an [Add] of an item
    that is being processed leaves the queue as it is and, unless the queue
    is shutting down, leaves the item dirty; and [Done] of such an item
    appends it to the queue exactly when it is dirty. *)
Theorem queue_bookkeeping (ops : list (@op t)) (q : workqueue) :
  disciplined newQueue ops = true ->
  run newQueue ops = Some q ->
  NoDup (queue q) /\
  (forall x, x ∈ queue q -> x ∈ dirty q) /\
  (forall x, x ∈ processing q ->
     queue (Add x q) = queue q /\
     (shuttingDown q = false -> x ∈ dirty (Add x q)) /\
     queue (Done x q) = (if decide (x ∈ dirty q) then queue q ++ [x] else queue q) /\
     NoDup (queue (Done x q))).
Proof.
  intros Hops Hrun.
  pose proof (wellFormed_run ops _ _ wellFormed_newQueue Hops Hrun) as Hq.
  destruct Hq as (Hnodup & Hdirty & Hproc).
  split; [exact Hnodup|]. split; [exact Hdirty|].
  intros x Hx. split; [|split; [|split]].
  - unfold Add. destruct (shuttingDown q); [reflexivity|].
    destruct (decide (x ∈ dirty q)); [reflexivity|].
    destruct (decide (x ∈ processing q)); [reflexivity|contradiction].
  - intros Hup. unfold Add. rewrite Hup.
    destruct (decide (x ∈ dirty q)); [assumption|].
    destruct (decide (x ∈ processing q)); simpl;
      apply elem_of_union_l, elem_of_singleton; reflexivity.
  - unfold Done. destruct (decide (x ∈ dirty q)); reflexivity.
  - apply (wellFormed_Done x q); [|exact Hx]. split; [|split]; assumption.
Qed.

End QueueFacts.

Local Open Scope string_scope.

(** The claim of C2 fails for an arbitrary sequence: [Done] of an item
    that is queued, and not being processed, queues it a second time.  And
    once the queue is shutting down, an [Add] of an item that is being
    processed records nothing. *)
Lemma Done_without_Get_duplicates :
  (exists q : @workqueue string _ _,
     run newQueue [OpAdd "x"; OpDone "x"] = Some q /\
     queue q = ["x"; "x"] /\
     (NoDup (queue q) -> False)) /\
  (exists q : @workqueue string _ _,
     run newQueue [OpAdd "x"; OpGet; OpShutDown] = Some q /\
     processing q = {["x"]} /\
     dirty (Add "x" q) = ∅).
Proof.
  split.
  - eexists. split; [reflexivity|]. split; [reflexivity|].
    intros Hnodup. apply NoDup_cons in Hnodup as [Hhead _].
    apply Hhead. constructor.
  - eexists. split; [reflexivity|]. split; vm_compute; reflexivity.
Qed.

(** Scenario S3: Add, Get, two Adds while processing, Done. *)
Lemma queue_bookkeeping_witness :
  exists q : @workqueue string _ _,
    run newQueue [OpAdd "x"; OpGet; OpAdd "x"; OpAdd "x"] = Some q /\
    queue q = [] /\ dirty q = {["x"]} /\ processing q = {["x"]} /\
    queue (Done "x" q) = ["x"] /\
    NoDup (queue (Done "x" q)).
Proof.
  eexists. split; [reflexivity|].
  split; [reflexivity|]. split; [reflexivity|]. split; [reflexivity|].
  split; [reflexivity|].
  refine (proj2 (proj2 (proj2 (proj2 (proj2
    (queue_bookkeeping [OpAdd "x"; OpGet; OpAdd "x"; OpAdd "x"] _ _ eq_refl))
    "x" _)))).
  - reflexivity.
  - vm_compute. reflexivity.
Defined.

End QueueFacts.

(* ================================================================== *)
(** * Properties of binary64 rounding                                   *)
(* ================================================================== *)

Module Float64Facts.
Import Float64.

Lemma bits_bound m : Z.abs m < 2 ^ 53 -> 0 <= bits m <= 53.
Proof.
  intros Hm. unfold bits. destruct (Z.eqb_spec m 0) as [|Hne]; [lia|].
  assert (Hpos : 0 < Z.abs m) by lia.
  pose proof (Z.log2_nonneg (Z.abs m)).
  assert (Z.log2 (Z.abs m) < 53) by (apply Z.log2_lt_pow2; lia).
  lia.
Qed.

Lemma bits_lower m : 0 < m -> 2 ^ (bits m - 1) <= m.
Proof.
  intros Hm. unfold bits. destruct (Z.eqb_spec m 0) as [|Hne]; [lia|].
  rewrite Z.abs_eq by lia.
  replace (Z.log2 m + 1 - 1) with (Z.log2 m) by lia.
  apply Z.log2_spec. exact Hm.
Qed.

(** A value with at most 53 digits, above the subnormal exponent and
    below [2^1024], is a [float64]: rounding leaves it as it is. *)
Lemma round_exact m e :
  Z.abs m < 2 ^ 53 -> emin <= e -> bits m + e <= emax -> round m e = Finite m e.
Proof.
  intros Hm He Hmax. pose proof (bits_bound m Hm) as Hbits.
  unfold round, precision.
  replace (Z.max (bits m - 53) (emin - e) <=? 0) with true
    by (symmetry; apply Z.leb_le; lia).
  replace (emax <? bits m + e) with false by (symmetry; apply Z.ltb_ge; lia).
  reflexivity.
Qed.

Lemma round_overflow m e :
  0 < m < 2 ^ 53 -> emin <= e -> emax < bits m + e -> round m e = Infinity false.
Proof.
  intros Hm He Hmax.
  assert (Habs : Z.abs m < 2 ^ 53) by lia.
  pose proof (bits_bound m Habs) as Hbits.
  unfold round, precision.
  replace (Z.max (bits m - 53) (emin - e) <=? 0) with true
    by (symmetry; apply Z.leb_le; lia).
  replace (emax <? bits m + e) with true by (symmetry; apply Z.ltb_lt; lia).
  replace (m <? 0) with false by (symmetry; apply Z.ltb_ge; lia).
  reflexivity.
Qed.

Lemma of_int_exact m : Z.abs m < 2 ^ 53 -> of_int m = Finite m 0.
Proof.
  intros Hm. pose proof (bits_bound m Hm). unfold of_int.
  apply round_exact; unfold emin, emax; lia.
Qed.

(** [float64(math.MaxInt64)] is [2^63]. *)
Lemma of_int_MaxInt64 : of_int MaxInt64 = Finite (2 ^ 53) 10.
Proof. reflexivity. Qed.

(** [math.Pow(2, float64(n))] for a count [n]. *)
Lemma Pow2_of_int n :
  0 <= n < 2 ^ 53 ->
  Pow2 (of_int n) = if emax <=? n then Infinity false else Finite 1 n.
Proof.
  intros Hn. rewrite of_int_exact by lia. unfold Pow2.
  rewrite Z.shiftl_0_r.
  destruct (emax <=? n); [reflexivity|].
  replace (n <? emin) with false by (symmetry; apply Z.ltb_ge; unfold emin; lia).
  reflexivity.
Qed.

End Float64Facts.

(* ================================================================== *)
(** * Properties of the exponential failure rate limiter                *)
(* ================================================================== *)

Module ExponentialFacts.
Import Float64 Float64Facts ItemExponentialFailureRateLimiter.

Lemma wrap64_small z : - 2 ^ 63 <= z < 2 ^ 63 -> wrap64 z = z.
Proof.
  intros Hz. unfold wrap64. rewrite Z.mod_small; lia.
Qed.

Lemma wrap64_succ z : wrap64 (wrap64 z + 1) = wrap64 (z + 1).
Proof.
  unfold wrap64. f_equal.
  replace ((z + 2 ^ 63) mod 2 ^ 64 - 2 ^ 63 + 1 + 2 ^ 63)
    with ((z + 2 ^ 63) mod 2 ^ 64 + 1) by lia.
  rewrite Zplus_mod_idemp_l. f_equal. lia.
Qed.

Lemma gt_Finite m1 e1 m2 e2 :
  0 <= e1 -> 0 <= e2 ->
  gt (Finite m1 e1) (Finite m2 e2) = (m2 * 2 ^ e2 <? m1 * 2 ^ e1).
Proof.
  intros He1 He2. unfold gt.
  set (e0 := Z.min e1 e2).
  assert (He0 : 0 <= e0 /\ e0 <= e1 /\ e0 <= e2) by (unfold e0; lia).
  rewrite !Z.shiftl_mul_pow2 by lia.
  assert (Hpos : 0 < 2 ^ e0) by (apply Z.pow_pos_nonneg; lia).
  replace (2 ^ e1) with (2 ^ (e1 - e0) * 2 ^ e0)
    by (rewrite <- Z.pow_add_r by lia; f_equal; lia).
  replace (2 ^ e2) with (2 ^ (e2 - e0) * 2 ^ e0)
    by (rewrite <- Z.pow_add_r by lia; f_equal; lia).
  rewrite !Z.mul_assoc.
  destruct (Z.ltb_spec (m2 * 2 ^ (e2 - e0)) (m1 * 2 ^ (e1 - e0)));
    symmetry; [apply Z.ltb_lt|apply Z.ltb_ge]; nia.
Qed.

Section ExponentialFacts.

Context {item : Type} `{Countable item}.
Variable indefinite : float64 -> Z.

Local Abbreviation When := (ItemExponentialFailureRateLimiter.When indefinite).
Local Abbreviation whens := (ItemExponentialFailureRateLimiter.whens indefinite).
Local Abbreviation run := (ItemExponentialFailureRateLimiter.run indefinite).
Local Abbreviation step := (ItemExponentialFailureRateLimiter.step indefinite).

Lemma When_state (x : item) r :
  (When x r).2 =
  {| failures := <[x := wrap64 (failuresAt r x + 1)]> (failures r);
     baseDelay := baseDelay r; maxDelay := maxDelay r |}.
Proof.
  unfold ItemExponentialFailureRateLimiter.When.
  destruct (gt _ _); [reflexivity|]. destruct (_ <? _); reflexivity.
Qed.

Lemma failuresAt_When (x y : item) r :
  failuresAt (When x r).2 y =
  if decide (y = x) then wrap64 (failuresAt r x + 1) else failuresAt r y.
Proof.
  rewrite When_state. unfold failuresAt at 1. simpl.
  destruct (decide (y = x)) as [->|Hne].
  - now rewrite lookup_insert_eq.
  - rewrite lookup_insert_ne by congruence. reflexivity.
Qed.

Lemma failuresAt_Forget (x y : item) r :
  failuresAt (Forget x r) y = if decide (y = x) then 0 else failuresAt r y.
Proof.
  unfold failuresAt, Forget. simpl.
  destruct (decide (y = x)) as [->|Hne].
  - now rewrite lookup_delete_eq.
  - rewrite lookup_delete_ne by congruence. reflexivity.
Qed.

(** The delay computed by [When] wherever the [float64] arithmetic is
    exact and the product is not exactly [2^63]. *)
Lemma When_in_range (x : item) r :
  0 < baseDelay r < 2 ^ 53 ->
  0 <= failuresAt r x < 2 ^ 53 ->
  maxDelay r <= MaxInt64 ->
  baseDelay r * 2 ^ failuresAt r x <> 2 ^ 63 ->
  (When x r).1 = Z.min (baseDelay r * 2 ^ failuresAt r x) (maxDelay r).
Proof.
  intros Hbase Hn Hmax Hne. unfold ItemExponentialFailureRateLimiter.When.
  set (base := baseDelay r) in *. set (n := failuresAt r x) in *.
  set (r' := {| failures := _ |}).
  rewrite (of_int_exact base) by lia.
  rewrite (Pow2_of_int n) by lia.
  rewrite of_int_MaxInt64.
  assert (Hbits : 0 <= bits base <= 53) by (apply bits_bound; lia).
  assert (H63 : 2 ^ 53 * 2 ^ 10 = 2 ^ 63) by reflexivity.
  unfold MaxInt64 in Hmax.
  destruct (Z.leb_spec emax n) as [Hbig|Hsmall].
  - (* 2^n is +Inf *)
    unfold mul.
    replace (base =? 0) with false by (symmetry; apply Z.eqb_neq; lia).
    replace (base <? 0) with false by (symmetry; apply Z.ltb_ge; lia).
    simpl. symmetry. apply Z.min_r.
    assert (2 ^ 63 <= 2 ^ n) by (apply Z.pow_le_mono_r; unfold emax in Hbig; lia).
    nia.
  - unfold mul. rewrite Z.mul_1_r, Z.add_0_l.
    destruct (Z.le_gt_cases (bits base + n) emax) as [Hfits|Hover].
    + rewrite round_exact by (unfold emin; lia).
      rewrite gt_Finite by lia. rewrite H63.
      destruct (Z.ltb_spec (2 ^ 63) (base * 2 ^ n)) as [Hgt|Hle].
      * simpl. symmetry. apply Z.min_r. lia.
      * unfold to_int64.
        replace (0 <=? n) with true by (symmetry; apply Z.leb_le; lia).
        rewrite Z.shiftl_mul_pow2 by lia.
        assert (0 <= base * 2 ^ n).
        { apply Z.mul_nonneg_nonneg; [lia|]. apply Z.pow_nonneg. lia. }
        replace ((MinInt64 <=? base * 2 ^ n) && (base * 2 ^ n <=? MaxInt64))
          with true.
        2:{ symmetry. apply andb_true_iff.
            split; apply Z.leb_le; unfold MinInt64, MaxInt64; lia. }
        destruct (Z.ltb_spec (maxDelay r) (base * 2 ^ n)); simpl; lia.
    + rewrite round_overflow by (unfold emin; lia).
      simpl. symmetry. apply Z.min_r.
      pose proof (bits_lower base ltac:(lia)) as Hlow.
      assert (2 ^ 63 <= 2 ^ (bits base - 1 + n))
        by (apply Z.pow_le_mono_r; unfold emax in Hover; lia).
      rewrite Z.pow_add_r in * by lia.
      assert (0 < 2 ^ n) by (apply Z.pow_pos_nonneg; lia).
      nia.
Qed.

(** The first [n] delays of a limiter whose count for [x] is [k]. *)
Lemma whens_in_range (x : item) n : forall r k,
  failuresAt r x = k -> 0 <= k ->
  0 < baseDelay r < 2 ^ 53 ->
  maxDelay r <= MaxInt64 ->
  k + Z.of_nat n < 2 ^ 53 ->
  (forall i, (i < n)%nat -> baseDelay r * 2 ^ (k + Z.of_nat i) <> 2 ^ 63) ->
  (whens n x r).1
  = map (fun i => Z.min (baseDelay r * 2 ^ (k + Z.of_nat i)) (maxDelay r)) (seq 0 n)
  /\ failuresAt (whens n x r).2 x = k + Z.of_nat n.
Proof.
  induction n as [|n IH]; intros r k Hk Hk0 Hbase Hmax Hbound Hne; simpl.
  - split; [reflexivity|lia].
  - assert (Hfirst : (When x r).1 = Z.min (baseDelay r * 2 ^ (k + 0)) (maxDelay r)).
    { rewrite Z.add_0_r, <- Hk.
      apply When_in_range; rewrite ?Hk; try lia.
      specialize (Hne 0%nat ltac:(lia)). now rewrite Z.add_0_r in Hne. }
    pose proof (When_state x r) as Hstate.
    destruct (When x r) as [d r1]. simpl in Hfirst, Hstate. subst d.
    assert (Hk1 : failuresAt r1 x = k + 1).
    { rewrite Hstate. unfold failuresAt at 1. simpl.
      rewrite lookup_insert_eq, Hk. apply wrap64_small. lia. }
    assert (Hb1 : baseDelay r1 = baseDelay r) by now rewrite Hstate.
    assert (Hm1 : maxDelay r1 = maxDelay r) by now rewrite Hstate.
    destruct (IH r1 (k + 1)) as [Hds Hcount]; rewrite ?Hb1, ?Hm1; try lia.
    { intros i Hi. specialize (Hne (S i) ltac:(lia)).
      now replace (k + 1 + Z.of_nat i) with (k + Z.of_nat (S i)) by lia. }
    destruct (whens n x r1) as [ds r2]. simpl in *. split.
    + f_equal. rewrite Hds, <- seq_shift, map_map.
      apply map_ext. intros i. rewrite Hb1, Hm1. do 3 f_equal. lia.
    + rewrite Hcount. lia.
Qed.

(** Where [When] is not guarded: a base delay of [2^k] ns whose count
    has reached [63 - k].  The product is exactly [2^63], which is not above
    [float64(math.MaxInt64)], and its conversion is out of range. *)
Lemma When_power_of_two (x : item) r k :
  0 <= k < 53 -> baseDelay r = 2 ^ k -> failuresAt r x = 63 - k ->
  (When x r).1 =
  if maxDelay r <? indefinite (Finite (2 ^ k) (63 - k)) then maxDelay r
  else indefinite (Finite (2 ^ k) (63 - k)).
Proof.
  intros Hk Hbase Hcount. unfold ItemExponentialFailureRateLimiter.When.
  rewrite Hbase, Hcount. set (r' := {| failures := _ |}).
  assert (Hpow : 2 ^ k < 2 ^ 53) by (apply Z.pow_lt_mono_r; lia).
  assert (Hpos : 0 < 2 ^ k) by (apply Z.pow_pos_nonneg; lia).
  assert (Hbits : bits (2 ^ k) = k + 1).
  { unfold bits. replace (2 ^ k =? 0) with false by (symmetry; apply Z.eqb_neq; lia).
    rewrite Z.abs_eq by lia. rewrite Z.log2_pow2 by lia. reflexivity. }
  rewrite (of_int_exact (2 ^ k)) by lia.
  rewrite (Pow2_of_int (63 - k)) by lia.
  replace (emax <=? 63 - k) with false
    by (symmetry; apply Z.leb_gt; unfold emax; lia).
  rewrite of_int_MaxInt64.
  unfold mul. rewrite Z.mul_1_r, Z.add_0_l.
  rewrite round_exact by (rewrite ?Hbits; unfold emin, emax; lia).
  rewrite gt_Finite by lia.
  assert (H63 : 2 ^ k * 2 ^ (63 - k) = 2 ^ 63).
  { rewrite <- Z.pow_add_r by lia. f_equal. lia. }
  rewrite H63. change (2 ^ 53 * 2 ^ 10) with (2 ^ 63).
  rewrite Z.ltb_irrefl.
  unfold to_int64.
  replace (0 <=? 63 - k) with true by (symmetry; apply Z.leb_le; lia).
  rewrite Z.shiftl_mul_pow2 by lia. rewrite H63.
  change ((MinInt64 <=? 2 ^ 63) && (2 ^ 63 <=? MaxInt64)) with false.
  cbv iota. destruct (_ <? _); reflexivity.
Qed.

(** A base delay of a whole number of milliseconds never meets [2^63]:
    the delays of [DefaultItemBasedRateLimiter()] and of the per-item part
    of [DefaultControllerRateLimiter()] follow the formula. *)
Lemma milliseconds_in_range (x : item) (ms maxDelay : Z) (n : nat) :
  0 < ms < 1000 -> maxDelay <= MaxInt64 -> Z.of_nat n < 2 ^ 53 ->
  (forall k, 0 <= k -> ms * Millisecond * 2 ^ k <> 2 ^ 63) ->
  (whens n x (NewItemExponentialFailureRateLimiter (ms * Millisecond) maxDelay)).1
  = map (fun i => Z.min (ms * Millisecond * 2 ^ Z.of_nat i) maxDelay) (seq 0 n).
Proof.
  intros Hms Hmax Hn Hne.
  destruct (whens_in_range x n
              (NewItemExponentialFailureRateLimiter (ms * Millisecond) maxDelay) 0)
    as [Hdelays _]; simpl; try reflexivity; try lia.
  - unfold Millisecond. lia.
  - intros i _. apply Hne. lia.
  - exact Hdelays.
Qed.

Lemma one_millisecond_never_2_63 k : 0 <= k -> 1 * Millisecond * 2 ^ k <> 2 ^ 63.
Proof.
  intros Hk. unfold Millisecond.
  destruct (Z.le_gt_cases k 43) as [Hlow|Hhigh].
  - assert (2 ^ k <= 2 ^ 43) by (apply Z.pow_le_mono_r; lia). lia.
  - assert (2 ^ 44 <= 2 ^ k) by (apply Z.pow_le_mono_r; lia). lia.
Qed.

Lemma When_value_eq (x1 x2 : item) r1 r2 :
  baseDelay r1 = baseDelay r2 -> maxDelay r1 = maxDelay r2 ->
  failuresAt r1 x1 = failuresAt r2 x2 ->
  (When x1 r1).1 = (When x2 r2).1.
Proof.
  intros Hb Hm Hf. unfold ItemExponentialFailureRateLimiter.When.
  rewrite Hb, Hm, Hf.
  destruct (gt _ _); [reflexivity|]. destruct (_ <? _); reflexivity.
Qed.

(** The delay of a first failure. *)
Lemma When_first (x : item) r :
  failuresAt r x = 0 -> Z.abs (baseDelay r) < 2 ^ 53 ->
  (When x r).1 = Z.min (baseDelay r) (maxDelay r).
Proof.
  intros Hzero Hbase. unfold ItemExponentialFailureRateLimiter.When.
  rewrite Hzero. set (r' := {| failures := _ |}).
  rewrite (of_int_exact (baseDelay r)) by exact Hbase.
  rewrite (Pow2_of_int 0) by lia.
  rewrite of_int_MaxInt64.
  change (emax <=? 0) with false. cbv iota.
  unfold mul. rewrite Z.mul_1_r, Z.add_0_l.
  pose proof (bits_bound _ Hbase).
  rewrite round_exact by (unfold emin, emax; lia).
  rewrite gt_Finite by lia.
  assert (H63 : 2 ^ 53 * 2 ^ 10 = 2 ^ 63) by reflexivity. rewrite H63.
  rewrite Z.pow_0_r, Z.mul_1_r.
  replace (2 ^ 63 <? baseDelay r) with false by (symmetry; apply Z.ltb_ge; lia).
  unfold to_int64. change (0 <=? 0) with true. cbv iota.
  rewrite Z.shiftl_0_r.
  replace ((MinInt64 <=? baseDelay r) && (baseDelay r <=? MaxInt64)) with true.
  2:{ symmetry. apply andb_true_iff.
      split; apply Z.leb_le; unfold MinInt64, MaxInt64; lia. }
  destruct (Z.ltb_spec (maxDelay r) (baseDelay r)); simpl; lia.
Qed.

Lemma countCall_nonneg (x : item) calls : forall n,
  0 <= n -> 0 <= foldl (countCall x) n calls.
Proof.
  induction calls as [|c calls IH]; intros n Hn; simpl; [exact Hn|].
  apply IH. destruct c as [y|y|y]; simpl; try destruct (decide (x = y)); lia.
Qed.

Lemma countCall_no_When (x : item) calls :
  (forall c, c ∈ calls -> c <> CallWhen x) -> foldl (countCall x) 0 calls = 0.
Proof.
  induction calls as [|c calls IH]; intros Hno; simpl; [reflexivity|].
  assert (Hc : countCall x 0 c = 0).
  { destruct c as [y|y|y]; simpl; try destruct (decide (x = y)) as [->|]; try reflexivity.
    exfalso. apply (Hno (CallWhen y)); [left|reflexivity]. }
  rewrite Hc. apply IH. intros c' Hc'. apply Hno. now right.
Qed.

(** The stored count follows the calls, modulo the width of [int]. *)
Lemma failuresAt_run (x : item) calls : forall r n,
  failuresAt r x = wrap64 n ->
  failuresAt (run r calls) x = wrap64 (foldl (countCall x) n calls).
Proof.
  unfold ItemExponentialFailureRateLimiter.run.
  induction calls as [|c calls IH]; intros r n Hr; simpl; [exact Hr|].
  apply IH. destruct c as [y|y|y]; simpl.
  - rewrite failuresAt_When. destruct (decide (x = y)) as [->|]; [|exact Hr].
    rewrite Hr. apply wrap64_succ.
  - rewrite failuresAt_Forget. destruct (decide (x = y)); [reflexivity|exact Hr].
  - exact Hr.
Qed.

(** C10. [NumRequeues(x)] is the number of [When(x)] calls since the last
    [Forget(x)], or since construction (a number that fits Go's [int]);
    it is 0 for an item never passed to [When]; and the call leaves the
    limiter as it was. *)
Theorem NumRequeues_counts (base max : Z) (calls : list call) (x : item) :
  sinceForget x calls <= MaxInt64 ->
  NumRequeues x (run (NewItemExponentialFailureRateLimiter base max) calls)
  = (sinceForget x calls,
     run (NewItemExponentialFailureRateLimiter base max) calls) /\
  ((forall c, c ∈ calls -> c <> CallWhen x) ->
   (NumRequeues x (run (NewItemExponentialFailureRateLimiter base max) calls)).1 = 0).
Proof.
  intros Hfits.
  assert (Hcount : failuresAt (run (NewItemExponentialFailureRateLimiter base max) calls) x
                   = sinceForget x calls).
  { rewrite (failuresAt_run x calls _ 0) by reflexivity.
    apply wrap64_small. unfold sinceForget, MaxInt64 in *.
    pose proof (countCall_nonneg x calls 0 ltac:(lia)). lia. }
  unfold NumRequeues. rewrite Hcount. split; [reflexivity|].
  intros Hno. simpl. now apply countCall_no_When.
Qed.

(** C7, as the code has it.  For [exponential(10ms, 40ms)] successive
    [When("x")] give 10ms, 20ms, 40ms, 40ms, 40ms, and after [Forget("x")]
    again 10ms.  In general [Forget(x)] followed by [When(x)] gives what the
    first [When(x)] of a fresh limiter gives: the smaller of [baseDelay] and
    [maxDelay] (for a base delay below 2^53 ns in magnitude), hence
    [baseDelay] when it does not exceed [maxDelay]. *)
Theorem Forget_resets :
  ((whens 5 "x" Fixtures.exponential_10_40).1
   = [10 * Millisecond; 20 * Millisecond; 40 * Millisecond;
      40 * Millisecond; 40 * Millisecond] /\
   (When "x" (Forget "x" (whens 5 "x" Fixtures.exponential_10_40).2)).1
   = 10 * Millisecond) /\
  (forall (r : limiter) (x : item),
     (When x (Forget x r)).1
     = (When x (NewItemExponentialFailureRateLimiter (baseDelay r) (maxDelay r))).1) /\
  (forall (r : limiter) (x : item),
     Z.abs (baseDelay r) < 2 ^ 53 ->
     (When x (Forget x r)).1 = Z.min (baseDelay r) (maxDelay r) /\
     (baseDelay r <= maxDelay r -> (When x (Forget x r)).1 = baseDelay r)).
Proof.
  assert (Hzero : forall (r : limiter) (x : item), failuresAt (Forget x r) x = 0).
  { intros r x. rewrite failuresAt_Forget. now destruct (decide (x = x)). }
  split; [|split].
  - split; vm_compute; reflexivity.
  - intros r x. apply When_value_eq; try reflexivity. now rewrite Hzero.
  - intros r x Hbase.
    assert (Hmin : (When x (Forget x r)).1 = Z.min (baseDelay r) (maxDelay r)).
    { now rewrite When_first by (rewrite ?Hzero; auto). }
    split; [exact Hmin|]. intros Hle. rewrite Hmin. lia.
Qed.

End ExponentialFacts.

Local Open Scope string_scope.

(** [DefaultItemBasedRateLimiter()]: the i-th delay is
    [min(1ms * 2^(i-1), 1000s)], whatever the platform. *)
Lemma default_limiter_delays indefinite (n : nat) :
  Z.of_nat n < 2 ^ 53 ->
  (whens indefinite n "x" Fixtures.DefaultItemBasedRateLimiter).1
  = map (fun i => Z.min (1 * Millisecond * 2 ^ Z.of_nat i) (1000 * Second)) (seq 0 n).
Proof.
  intros Hn.
  apply (milliseconds_in_range indefinite "x" 1 (1000 * Second) n);
    [lia|vm_compute; discriminate|exact Hn|apply one_millisecond_never_2_63].
Qed.

(** The claim of C7 fails where [baseDelay] exceeds [maxDelay]: the delay
    after [Forget] is [maxDelay]. *)
Lemma Forget_then_When_capped :
  (When amd64 "x" (Forget "x" Fixtures.exponential_50_40)).1 = 40 * Millisecond /\
  baseDelay (Forget "x" Fixtures.exponential_50_40) = 50 * Millisecond /\
  (When amd64 "x" Fixtures.exponential_50_40).1 = 40 * Millisecond /\
  ((When amd64 "x" (Forget "x" Fixtures.exponential_50_40)).1
   = baseDelay (Forget "x" Fixtures.exponential_50_40) -> False).
Proof.
  split; [|split; [|split]]; try (vm_compute; reflexivity).
  vm_compute. discriminate.
Qed.

Lemma Forget_resets_witness :
  (When amd64 "x" (Forget "x" (whens amd64 5 "x" Fixtures.exponential_10_40).2)).1
  = Z.min (10 * Millisecond) (40 * Millisecond).
Proof.
  refine (proj1 (proj2 (proj2 (Forget_resets (item := string) amd64))
                  (whens amd64 5 "x" Fixtures.exponential_10_40).2 "x" _)).
  vm_compute. reflexivity.
Defined.

Lemma NumRequeues_counts_witness :
  (NumRequeues "x"
     (run amd64 Fixtures.exponential_10_40
        [CallWhen "x"; CallWhen "y"; CallForget "x"; CallWhen "x";
         CallNumRequeues "x"; CallWhen "x"])).1 = 2.
Proof.
  refine (f_equal fst (proj1 (NumRequeues_counts amd64 _ _
    [CallWhen "x"; CallWhen "y"; CallForget "x"; CallWhen "x";
     CallNumRequeues "x"; CallWhen "x"] "x" _))).
  vm_compute. discriminate.
Defined.

(** C3 at its failing input: [baseDelay = 1ns], the 64th [When("x")] in a
    row.  The product is exactly [2^63]; [float64(math.MaxInt64)] is [2^63]
    too, so [backoff > math.MaxInt64] is false and the conversion to
    [time.Duration] runs on a value that is out of range.  What [When]
    returns is then what the platform makes of that conversion (unless it
    exceeds [maxDelay]): [MinInt64] on amd64, and [maxDelay] only where the
    conversion saturates, as on arm64; [min(base * 2^63, maxDelay)] is
    [maxDelay]. *)
Theorem When_unguarded_at_2_63 :
  failuresAt (whens amd64 63 "x" Fixtures.exponential_1ns).2 "x" = 63 /\
  mul (of_int (1 * Nanosecond)) (Pow2 (of_int 63)) = Finite 1 63 /\
  gt (Finite 1 63) (of_int MaxInt64) = false /\
  (forall indefinite,
     (When indefinite "x" (whens amd64 63 "x" Fixtures.exponential_1ns).2).1
     = if (1000 * Second <? indefinite (Finite 1 63))%Z then 1000 * Second
       else indefinite (Finite 1 63)) /\
  (When amd64 "x" (whens amd64 63 "x" Fixtures.exponential_1ns).2).1 = MinInt64 /\
  (When arm64 "x" (whens amd64 63 "x" Fixtures.exponential_1ns).2).1 = 1000 * Second /\
  Z.min (1 * Nanosecond * 2 ^ 63) (1000 * Second) = 1000 * Second.
Proof.
  split; [vm_compute; reflexivity|].
  split; [vm_compute; reflexivity|].
  split; [vm_compute; reflexivity|].
  split; [|split; [|split]; vm_compute; reflexivity].
  intros indefinite.
  exact (When_power_of_two indefinite "x"
           (whens amd64 63 "x" Fixtures.exponential_1ns).2 0
           ltac:(lia) ltac:(vm_compute; reflexivity) ltac:(vm_compute; reflexivity)).
Qed.

End ExponentialFacts.

(* ================================================================== *)
(** * Properties of the max-of rate limiter                             *)
(* ================================================================== *)

Module MaxOfFacts.
Import RateLimiter MaxOfRateLimiter.

Lemma foldl_max_spec (xs : list Z) : forall a,
  a <= foldl Z.max a xs /\
  (forall y, y ∈ xs -> y <= foldl Z.max a xs) /\
  (foldl Z.max a xs = a \/ foldl Z.max a xs ∈ xs).
Proof.
  induction xs as [|x xs IH]; intros a; simpl.
  - split; [lia|]. split; [|now left]. intros y Hy. inversion Hy.
  - destruct (IH (Z.max a x)) as (Hge & Hall & Hin).
    split; [lia|]. split.
    + intros y Hy. apply elem_of_cons in Hy as [->|Hy]; [lia|auto].
    + destruct Hin as [Heq|Hin].
      * rewrite Heq. destruct (Z.max_spec a x) as [[_ ->]|[_ ->]].
        -- right. left.
        -- now left.
      * right. now right.
Qed.

Section MaxOfFacts.

Context {item : Type}.

(** The loop shared by [When] and [NumRequeues]. *)
Lemma max_loop_spec (call : RateLimiter item -> Z * RateLimiter item) children :
  forall ret visited,
    foldl (fun '(ret, visited) child =>
             let '(curr, child') := call child in
             (if ret <? curr then curr else ret, visited ++ [child']))
          (ret, visited) children
    = (foldl Z.max ret (map (fun child => (call child).1) children),
       visited ++ map (fun child => (call child).2) children).
Proof.
  induction children as [|child children IH]; intros ret visited; simpl.
  - now rewrite app_nil_r.
  - destruct (call child) as [curr child'] eqn:Hcall. simpl.
    rewrite IH. f_equal.
    + f_equal. destruct (Z.ltb_spec ret curr); lia.
    + now rewrite <- app_assoc.
Qed.

Lemma Forget_loop_spec (x : item) children : forall visited,
  foldl (fun visited child => visited ++ [callForget x child]) visited children
  = visited ++ map (callForget x) children.
Proof.
  induction children as [|child children IH]; intros visited; simpl.
  - now rewrite app_nil_r.
  - rewrite IH. now rewrite <- app_assoc.
Qed.

(** C6, as the code has it.  [When(x)] calls [When(x)] on every child and
    returns the greatest of 0 and the children's results, which is the
    greatest of the children's results as soon as one of them is not
    negative; [NumRequeues(x)] does the same with the children's
    [NumRequeues(x)]; [Forget(x)] calls [Forget(x)] on every child. *)
Theorem MaxOf_composition (r : @limiter item) (x : item) :
  (maximum (When x r).1 (0 :: map (fun child => (callWhen x child).1) (limiters r)) /\
   ((exists d, d ∈ map (fun child => (callWhen x child).1) (limiters r) /\ 0 <= d) ->
    maximum (When x r).1 (map (fun child => (callWhen x child).1) (limiters r))) /\
   limiters (When x r).2 = map (fun child => (callWhen x child).2) (limiters r)) /\
  (maximum (NumRequeues x r).1
     (0 :: map (fun child => (callNumRequeues x child).1) (limiters r)) /\
   ((exists n, n ∈ map (fun child => (callNumRequeues x child).1) (limiters r) /\ 0 <= n) ->
    maximum (NumRequeues x r).1
      (map (fun child => (callNumRequeues x child).1) (limiters r))) /\
   limiters (NumRequeues x r).2
   = map (fun child => (callNumRequeues x child).2) (limiters r)) /\
  limiters (Forget x r) = map (callForget x) (limiters r).
Proof.
  assert (Hloop : forall (call : RateLimiter item -> Z * RateLimiter item),
    let results := map (fun child => (call child).1) (limiters r) in
    maximum (foldl Z.max 0 results) (0 :: results) /\
    ((exists d, d ∈ results /\ 0 <= d) -> maximum (foldl Z.max 0 results) results)).
  { intros call results.
    destruct (foldl_max_spec results 0) as (Hge & Hall & Hin).
    split; [|intros (d & Hd & Hd0)]; split.
    - destruct Hin as [->|Hin]; [left|now right].
    - intros y Hy. apply elem_of_cons in Hy as [->|Hy]; auto.
    - destruct Hin as [Heq|Hin]; [|exact Hin].
      pose proof (Hall d Hd) as Hle.
      assert (d = foldl Z.max 0 results) as <- by lia. exact Hd.
    - exact Hall. }
  unfold When, NumRequeues, Forget. rewrite !max_loop_spec. simpl.
  split; [|split].
  - destruct (Hloop (callWhen x)) as [H0 Hsome]. auto.
  - destruct (Hloop (callNumRequeues x)) as [H0 Hsome]. auto.
  - apply (Forget_loop_spec x (limiters r) []).
Qed.

End MaxOfFacts.

Local Open Scope string_scope.

(** The claim of C6 fails when every child returns a negative delay: the
    only child returns -1ms and [When] returns 0. *)
Lemma MaxOf_of_negative_delays :
  let r := NewMaxOfRateLimiter
             [ItemExponentialFailureRateLimiter.asRateLimiter Float64.amd64
                Fixtures.exponential_negative] in
  (When "x" r).1 = 0 /\
  map (fun child => (callWhen "x" child).1) (limiters r) = [- (1 * Millisecond)] /\
  (maximum (When "x" r).1 (map (fun child => (callWhen "x" child).1) (limiters r))
   -> False).
Proof.
  split; [vm_compute; reflexivity|]. split; [vm_compute; reflexivity|].
  intros [Hin _]. vm_compute in Hin.
  apply list_elem_of_singleton in Hin. discriminate.
Qed.

(** Two exponential limiters, the second with the greater base delay. *)
Lemma MaxOf_composition_witness :
  let r := NewMaxOfRateLimiter
             [ItemExponentialFailureRateLimiter.asRateLimiter Float64.amd64
                Fixtures.exponential_10_40;
              ItemExponentialFailureRateLimiter.asRateLimiter Float64.amd64
                Fixtures.exponential_50_40] in
  maximum (When "x" r).1 (map (fun child => (callWhen "x" child).1) (limiters r)).
Proof.
  refine (proj1 (proj2 (proj1 (MaxOf_composition _ "x"))) _).
  exists (10 * Millisecond). split; [left|]. vm_compute. discriminate.
Defined.

End MaxOfFacts.

(* ================================================================== *)
(** * Properties of the thread-safe store                               *)
(* ================================================================== *)

Module StoreFacts.
Import ThreadSafeStore.

Section StoreFacts.

Context {object error : Type}.

Local Abbreviation obj := (option object).
Local Abbreviation IndexFunc := (obj -> result error (list string)).
Local Abbreviation Index := (gmap string (gset string)).
Local Abbreviation Indexers := (gmap string IndexFunc).
Local Abbreviation Indices := (gmap string Index).
Local Abbreviation store := (@threadSafeMap object error).
Local Abbreviation M := (outcome (@panicValue error)).

(** ** One index: the keys filed under a value *)

Lemma deleteKey_members key index value0 value k :
  k ∈ members (deleteKey key index value0) value <->
  k ∈ members index value /\ ~ (k = key /\ value = value0).
Proof.
  unfold deleteKey, members.
  destruct (index !! value0) as [set|] eqn:Hset.
  - destruct (decide (size (set ∖ {[key]}) = 0%nat)) as [Hsize|Hsize].
    + apply size_empty_iff in Hsize.
      destruct (decide (value = value0)) as [->|Hne].
      * rewrite lookup_delete_eq, Hset. set_solver.
      * rewrite lookup_delete_ne by congruence. set_solver.
    + destruct (decide (value = value0)) as [->|Hne].
      * rewrite lookup_insert_eq, Hset. set_solver.
      * rewrite lookup_insert_ne by congruence. set_solver.
  - destruct (decide (value = value0)) as [->|Hne].
    + rewrite Hset. set_solver.
    + set_solver.
Qed.

Lemma deleteKey_noEmptySet key index value0 :
  noEmptySet index -> noEmptySet (deleteKey key index value0).
Proof.
  intros Hindex value set. unfold deleteKey.
  destruct (index !! value0) as [set0|] eqn:Hset; [|apply Hindex].
  destruct (decide (size (set0 ∖ {[key]}) = 0%nat)) as [Hsize|Hsize].
  - destruct (decide (value = value0)) as [->|Hne].
    + now rewrite lookup_delete_eq.
    + rewrite lookup_delete_ne by congruence. apply Hindex.
  - destruct (decide (value = value0)) as [->|Hne].
    + rewrite lookup_insert_eq. intros [= <-] Hempty.
      apply Hsize. rewrite Hempty. apply size_empty.
    + rewrite lookup_insert_ne by congruence. apply Hindex.
Qed.

Lemma deleteKeys_members key values : forall index value k,
  k ∈ members (foldl (deleteKey key) index values) value <->
  k ∈ members index value /\ ~ (k = key /\ value ∈ values).
Proof.
  induction values as [|value0 values IH]; intros index value k; simpl.
  - set_solver.
  - rewrite IH, deleteKey_members. set_solver.
Qed.

Lemma deleteKeys_noEmptySet key values : forall index,
  noEmptySet index -> noEmptySet (foldl (deleteKey key) index values).
Proof.
  induction values as [|value0 values IH]; intros index Hindex; simpl; [exact Hindex|].
  apply IH. now apply deleteKey_noEmptySet.
Qed.

Lemma insertKey_members key index value0 value k :
  k ∈ members (insertKey key index value0) value <->
  k ∈ members index value \/ (k = key /\ value = value0).
Proof.
  unfold insertKey, members.
  destruct (index !! value0) as [set|] eqn:Hset.
  - destruct (decide (value = value0)) as [->|Hne].
    + rewrite lookup_insert_eq, Hset. set_solver.
    + rewrite lookup_insert_ne by congruence. set_solver.
  - destruct (decide (value = value0)) as [->|Hne].
    + rewrite lookup_insert_eq, Hset. set_solver.
    + rewrite lookup_insert_ne by congruence. set_solver.
Qed.

Lemma insertKey_noEmptySet key index value0 :
  noEmptySet index -> noEmptySet (insertKey key index value0).
Proof.
  intros Hindex value set. unfold insertKey.
  destruct (index !! value0) as [set0|] eqn:Hset.
  - destruct (decide (value = value0)) as [->|Hne].
    + rewrite lookup_insert_eq. intros [= <-]. set_solver.
    + rewrite lookup_insert_ne by congruence. apply Hindex.
  - destruct (decide (value = value0)) as [->|Hne].
    + rewrite lookup_insert_eq. intros [= <-]. set_solver.
    + rewrite lookup_insert_ne by congruence. apply Hindex.
Qed.

Lemma insertKeys_members key values : forall index value k,
  k ∈ members (foldl (insertKey key) index values) value <->
  k ∈ members index value \/ (k = key /\ value ∈ values).
Proof.
  induction values as [|value0 values IH]; intros index value k; simpl.
  - set_solver.
  - rewrite IH, insertKey_members. set_solver.
Qed.

Lemma insertKeys_noEmptySet key values : forall index,
  noEmptySet index -> noEmptySet (foldl (insertKey key) index values).
Proof.
  induction values as [|value0 values IH]; intros index Hindex; simpl; [exact Hindex|].
  apply IH. now apply insertKey_noEmptySet.
Qed.

(** ** Go maps *)

Lemma made_eq {V : Type} (a b : gomap V) :
  isMade a -> isMade b -> entries a = entries b -> a = b.
Proof. destruct a, b; simpl; try tauto. now intros _ _ ->. Qed.

Lemma entries_made {V : Type} (a : gomap V) :
  isMade a -> a = madeMap (entries a).
Proof. destruct a; simpl; [tauto|reflexivity]. Qed.

Lemma entries_Some_made {V : Type} (a : gomap V) key v :
  entries a !! key = Some v -> isMade a.
Proof. destruct a; simpl; [now rewrite lookup_empty|auto]. Qed.

(** ** The loops over the indexers *)

(** On a made [indices]. *)
Lemma index_loop_made (o : obj) upd strict body (ixs : Indexers) (m0 : Indices) :
  rewrites o upd strict body ->
  (indexable ixs o ->
   exists m', map_fold (fun name indexFunc acc => do ix <- acc; body name indexFunc ix)
                 (Return (madeMap m0)) ixs = Return (madeMap m')) /\
  (forall ix',
     map_fold (fun name indexFunc acc => do ix <- acc; body name indexFunc ix)
       (Return (madeMap m0)) ixs = Return ix' ->
     indexable ixs o /\
     exists m', ix' = madeMap m' /\
     forall name,
       m' !! name =
       match ixs !! name with
       | Some indexFunc =>
           match indexFunc o with
           | Ok values => upd values (m0 !! name)
           | Fail _ => m0 !! name
           end
       | None => m0 !! name
       end).
Proof.
  intros Hbody.
  apply (map_fold_weak_ind (fun (r : M (gomap Index)) (m : Indexers) =>
    (indexable m o -> exists m', r = Return (madeMap m')) /\
    (forall ix', r = Return ix' ->
       indexable m o /\
       exists m', ix' = madeMap m' /\
       forall name,
         m' !! name =
         match m !! name with
         | Some indexFunc =>
             match indexFunc o with
             | Ok values => upd values (m0 !! name)
             | Fail _ => m0 !! name
             end
         | None => m0 !! name
         end))).
  - split; [eauto|]. intros ix' [= <-]. split.
    + intros name indexFunc Hname. now rewrite lookup_empty in Hname.
    + exists m0. split; [reflexivity|]. intros name. now rewrite lookup_empty.
  - intros name indexFunc m r Hfresh [Htotal Hspec].
    assert (Hsub : indexable (<[name := indexFunc]> m) o -> indexable m o).
    { intros Hall other f Hother. apply (Hall other).
      rewrite lookup_insert_ne; [exact Hother|]. congruence. }
    split.
    + intros Hall. destruct (Htotal (Hsub Hall)) as [m1 ->]. simpl.
      destruct (Hall name indexFunc) as [values Hvalues];
        [apply lookup_insert_eq|].
      pose proof (Hbody name indexFunc (madeMap m1)) as Hstep.
      rewrite Hvalues in Hstep. destruct Hstep as (m' & -> & _). eauto.
    + intros ix'. destruct r as [ix1|p]; simpl; [|discriminate].
      destruct (Hspec ix1 eq_refl) as (Hm & m1 & -> & Hm1).
      pose proof (Hbody name indexFunc (madeMap m1)) as Hstep.
      destruct (indexFunc o) as [values|err] eqn:Hvalues.
      2:{ destruct Hstep as [p ->]. discriminate. }
      destruct Hstep as (m2 & -> & Hat & Helse). intros [= <-]. split.
      * intros other f Hother.
        destruct (decide (other = name)) as [->|Hne].
        -- rewrite lookup_insert_eq in Hother. injection Hother as <-. eauto.
        -- rewrite lookup_insert_ne in Hother by congruence. eauto.
      * exists m2. split; [reflexivity|].
        intros other. destruct (decide (other = name)) as [->|Hne].
        -- rewrite lookup_insert_eq, Hvalues, Hat, Hm1, Hfresh. reflexivity.
        -- rewrite lookup_insert_ne by congruence. rewrite Helse by exact Hne.
           apply Hm1.
Qed.

(** On a [nil] [indices]: the loop of [deleteFromIndices] leaves it
    [nil]; the loop of [updateIndices] panics at its first indexer. *)
Lemma index_loop_nil (o : obj) upd strict body (ixs : Indexers) :
  rewrites o upd strict body ->
  (indexable ixs o -> (strict = true -> ixs = ∅) ->
   map_fold (fun name indexFunc acc => do ix <- acc; body name indexFunc ix)
     (Return nilMap) ixs = Return nilMap) /\
  (forall ix',
     map_fold (fun name indexFunc acc => do ix <- acc; body name indexFunc ix)
       (Return nilMap) ixs = Return ix' ->
     indexable ixs o /\ ix' = nilMap /\ (strict = true -> ixs = ∅)).
Proof.
  intros Hbody.
  apply (map_fold_weak_ind (fun (r : M (gomap Index)) (m : Indexers) =>
    (indexable m o -> (strict = true -> m = ∅) -> r = Return nilMap) /\
    (forall ix', r = Return ix' ->
       indexable m o /\ ix' = nilMap /\ (strict = true -> m = ∅)))).
  - split; [auto|]. intros ix' [= <-]. split; [|auto].
    intros name indexFunc Hname. now rewrite lookup_empty in Hname.
  - intros name indexFunc m r Hfresh [Htotal Hspec].
    assert (Hsub : indexable (<[name := indexFunc]> m) o -> indexable m o).
    { intros Hall other f Hother. apply (Hall other).
      rewrite lookup_insert_ne; [exact Hother|]. congruence. }
    pose proof (Hbody name indexFunc nilMap) as Hstep.
    split.
    + intros Hall Hstrict. destruct strict.
      { exfalso. apply (insert_non_empty m name indexFunc). now apply Hstrict. }
      rewrite Htotal; [|now apply Hsub|discriminate]. simpl.
      destruct (Hall name indexFunc) as [values Hvalues];
        [apply lookup_insert_eq|].
      now rewrite Hvalues in Hstep.
    + intros ix'. destruct r as [ix1|p]; simpl; [|discriminate].
      destruct (Hspec ix1 eq_refl) as (Hm & -> & Hempty).
      destruct (indexFunc o) as [values|err] eqn:Hvalues.
      2:{ destruct Hstep as [p ->]. discriminate. }
      destruct strict; rewrite Hstep; [discriminate|].
      intros [= <-]. split; [|split; [reflexivity|discriminate]].
      intros other f Hother.
      destruct (decide (other = name)) as [->|Hne].
      * rewrite lookup_insert_eq in Hother. injection Hother as <-. eauto.
      * rewrite lookup_insert_ne in Hother by congruence. eauto.
Qed.

(** Both cases, by the entries of [indices]. *)
Lemma index_loop_spec (o : obj) upd strict body (ixs : Indexers) (ix0 : gomap Index) :
  rewrites o upd strict body ->
  (strict = false -> forall values, upd values None = None) ->
  (indexable ixs o -> (strict = true -> isMade ix0 \/ ixs = ∅) ->
   exists ix', map_fold (fun name indexFunc acc => do ix <- acc; body name indexFunc ix)
                 (Return ix0) ixs = Return ix') /\
  (forall ix',
     map_fold (fun name indexFunc acc => do ix <- acc; body name indexFunc ix)
       (Return ix0) ixs = Return ix' ->
     indexable ixs o /\
     (isMade ix0 -> isMade ix') /\ (ix0 = nilMap -> ix' = nilMap) /\
     (strict = true -> isMade ix0 \/ ixs = ∅) /\
     forall name,
       entries ix' !! name =
       match ixs !! name with
       | Some indexFunc =>
           match indexFunc o with
           | Ok values => upd values (entries ix0 !! name)
           | Fail _ => entries ix0 !! name
           end
       | None => entries ix0 !! name
       end).
Proof.
  intros Hbody Hupd. destruct ix0 as [|m0].
  - destruct (index_loop_nil o upd strict body ixs Hbody) as [Htotal Hspec]. split.
    + intros Hall Hstrict. exists nilMap. apply Htotal; [exact Hall|].
      intros Htrue. destruct (Hstrict Htrue) as [[]|Hempty]. exact Hempty.
    + intros ix' Hloop. destruct (Hspec ix' Hloop) as (Hall & -> & Hempty).
      split; [exact Hall|]. split; [auto|]. split; [auto|]. split; [auto|].
      intros name. simpl. rewrite lookup_empty.
      destruct (ixs !! name) as [indexFunc|] eqn:Hname; [|reflexivity].
      destruct (indexFunc o) as [values|err]; [|reflexivity].
      destruct strict.
      * rewrite (Hempty eq_refl), lookup_empty in Hname. discriminate.
      * symmetry. now apply Hupd.
  - destruct (index_loop_made o upd strict body ixs m0 Hbody) as [Htotal Hspec]. split.
    + intros Hall _. destruct (Htotal Hall) as [m' Hm']. eauto.
    + intros ix' Hloop. destruct (Hspec ix' Hloop) as (Hall & m' & -> & Hm').
      split; [exact Hall|]. split; [simpl; auto|]. split; [discriminate|].
      split; [simpl; auto|]. exact Hm'.
Qed.

Lemma deleteFromIndex_rewrites (o : obj) key :
  rewrites (error := error) o (deleted key) false (deleteFromIndex o key).
Proof.
  intros name indexFunc ix. unfold deleteFromIndex.
  destruct (indexFunc o) as [values|err]; [|eauto].
  destruct ix as [|m]; simpl; [now rewrite lookup_empty|].
  destruct (m !! name) as [index|] eqn:Hindex.
  - eexists. split; [reflexivity|]. split.
    + now rewrite lookup_insert_eq.
    + intros other Hne. rewrite lookup_insert_ne by congruence. reflexivity.
  - eexists. split; [reflexivity|]. split; [exact Hindex|reflexivity].
Qed.

Lemma addToIndex_rewrites (o : obj) key :
  rewrites (error := error) o (inserted key) true (addToIndex o key).
Proof.
  intros name indexFunc ix. unfold addToIndex.
  destruct (indexFunc o) as [values|err]; [|eauto].
  destruct ix as [|m]; simpl; [now rewrite lookup_empty|].
  destruct (m !! name) as [index|] eqn:Hindex; simpl.
  - eexists. split; [reflexivity|]. split.
    + now rewrite lookup_insert_eq.
    + intros other Hne. rewrite lookup_insert_ne by congruence. reflexivity.
  - eexists. split; [reflexivity|]. split.
    + now rewrite lookup_insert_eq.
    + intros other Hne. rewrite !lookup_insert_ne by congruence. reflexivity.
Qed.

(** ** [deleteFromIndices] and the second loop of [updateIndices] *)

Lemma bucket_deleted (ix ix' : Indices) name key values :
  ix' !! name = deleted key values (ix !! name) ->
  forall value k,
    k ∈ bucket ix' name value <->
    k ∈ bucket ix name value /\ ~ (k = key /\ value ∈ values).
Proof.
  intros Hix' value k. unfold bucket. rewrite Hix'.
  destruct (ix !! name) as [index|]; simpl.
  - apply deleteKeys_members.
  - set_solver.
Qed.

Lemma bucket_inserted (ix ix' : Indices) name key values :
  ix' !! name = inserted key values (ix !! name) ->
  forall value k,
    k ∈ bucket ix' name value <->
    k ∈ bucket ix name value \/ (k = key /\ value ∈ values).
Proof.
  intros Hix' value k. unfold bucket. rewrite Hix'. unfold inserted.
  rewrite insertKeys_members.
  destruct (ix !! name) as [index|]; [reflexivity|].
  unfold members. rewrite lookup_empty. reflexivity.
Qed.

Lemma deleteFromIndices_spec (o : obj) key (c c' : store) :
  deleteFromIndices o key c = Return c' ->
  items c' = items c /\ indexers c' = indexers c /\
  indexable (entries (indexers c)) o /\
  (forall name indexFunc values,
     entries (indexers c) !! name = Some indexFunc -> indexFunc o = Ok values ->
     forall value k,
       k ∈ bucket (entries (indices c')) name value <->
       k ∈ bucket (entries (indices c)) name value /\ ~ (k = key /\ value ∈ values)) /\
  (noEmptyBucket (entries (indices c)) -> noEmptyBucket (entries (indices c'))) /\
  (isMade (indices c) -> isMade (indices c')) /\
  (forall name, entries (indexers c) !! name = None ->
     entries (indices c') !! name = entries (indices c) !! name).
Proof.
  unfold deleteFromIndices.
  destruct (map_fold _ _ _) as [ix'|p] eqn:Hloop; simpl; [|discriminate].
  intros [= <-]. simpl.
  apply (index_loop_spec o (deleted key) false (deleteFromIndex o key)
           (entries (indexers c)) (indices c) (deleteFromIndex_rewrites o key))
    in Hloop as (Hall & Hmade & _ & _ & Hix'); [|reflexivity].
  split; [reflexivity|]. split; [reflexivity|]. split; [exact Hall|].
  split; [|split; [|split; [exact Hmade|]]].
  - intros name indexFunc values Hname Hvalues.
    apply bucket_deleted. now rewrite Hix', Hname, Hvalues.
  - intros Hne name index Hindex. rewrite Hix' in Hindex.
    assert (Hcases : entries (indices c) !! name = Some index \/
                     exists index0 values, entries (indices c) !! name = Some index0 /\
                       index = foldl (deleteKey key) index0 values).
    { destruct (entries (indexers c) !! name) as [indexFunc|]; [|now left].
      destruct (indexFunc o) as [values|err]; [|now left].
      destruct (entries (indices c) !! name) as [index0|]; [|discriminate].
      injection Hindex as <-. right. eauto. }
    destruct Hcases as [Hsame|(index0 & values & Hsame & ->)].
    + now apply (Hne name).
    + apply deleteKeys_noEmptySet. now apply (Hne name).
  - intros name Hname. now rewrite Hix', Hname.
Qed.

Lemma deleteFromIndices_total (o : obj) key (c : store) :
  indexable (entries (indexers c)) o -> exists c', deleteFromIndices o key c = Return c'.
Proof.
  intros Hall. unfold deleteFromIndices.
  destruct (proj1 (index_loop_spec o (deleted key) false (deleteFromIndex o key)
                     (entries (indexers c)) (indices c)
                     (deleteFromIndex_rewrites o key) ltac:(reflexivity)) Hall)
    as [ix' ->]; [discriminate|].
  simpl. eauto.
Qed.

Lemma addLoop_spec (o : obj) key (ixs : Indexers) (ix ix' : gomap Index) :
  map_fold (fun name indexFunc acc => do ix <- acc; addToIndex o key name indexFunc ix)
    (Return ix) ixs = Return ix' ->
  indexable ixs o /\
  (forall name indexFunc values,
     ixs !! name = Some indexFunc -> indexFunc o = Ok values ->
     forall value k,
       k ∈ bucket (entries ix') name value <->
       k ∈ bucket (entries ix) name value \/ (k = key /\ value ∈ values)) /\
  (noEmptyBucket (entries ix) -> noEmptyBucket (entries ix')) /\
  (isMade ix -> isMade ix') /\
  (forall name, ixs !! name = None -> entries ix' !! name = entries ix !! name).
Proof.
  intros Hloop.
  apply (index_loop_spec o (inserted key) true (addToIndex o key) ixs ix
           (addToIndex_rewrites o key)) in Hloop as (Hall & Hmade & _ & _ & Hix');
    [|discriminate].
  split; [exact Hall|]. split; [|split; [|split; [exact Hmade|]]].
  - intros name indexFunc values Hname Hvalues.
    apply bucket_inserted. now rewrite Hix', Hname, Hvalues.
  - intros Hne name index Hindex. rewrite Hix' in Hindex.
    assert (Hcases : entries ix !! name = Some index \/
                     exists index0 values, noEmptySet index0 /\
                       index = foldl (insertKey key) index0 values).
    { destruct (ixs !! name) as [indexFunc|]; [|now left].
      destruct (indexFunc o) as [values|err]; [|now left].
      injection Hindex as <-. right. eexists _, values. split; [|reflexivity].
      destruct (entries ix !! name) as [index0|] eqn:Hindex0.
      - now apply (Hne name).
      - intros value set. now rewrite lookup_empty. }
    destruct Hcases as [Hsame|(index0 & values & Hindex0 & ->)].
    + now apply (Hne name).
    + now apply insertKeys_noEmptySet.
  - intros name Hname. now rewrite Hix', Hname.
Qed.

Lemma addLoop_total (o : obj) key (ixs : Indexers) (ix : gomap Index) :
  indexable ixs o -> isMade ix \/ ixs = ∅ ->
  exists ix',
    map_fold (fun name indexFunc acc => do ix <- acc; addToIndex o key name indexFunc ix)
      (Return ix) ixs = Return ix'.
Proof.
  intros Hall Hmade.
  apply (index_loop_spec o (inserted key) true (addToIndex o key) ixs ix
           (addToIndex_rewrites o key)); [discriminate|exact Hall|auto].
Qed.

(** ** [updateIndices] *)

Lemma updateIndices_agrees ixs view (oldObj newObj : obj) key (c c' : store) :
  entries (indexers c) = ixs ->
  agrees ixs (entries (indices c)) view ->
  noEmptyBucket (entries (indices c)) ->
  describes ixs view key oldObj ->
  updateIndices oldObj newObj key c = Return c' ->
  items c' = items c /\ indexers c' = indexers c /\
  agrees ixs (entries (indices c')) (<[key := newObj]> view) /\
  noEmptyBucket (entries (indices c')) /\
  indexable ixs newObj /\
  (isMade (indices c) -> isMade (indices c')).
Proof.
  intros Hixs Hagrees Hne Hold. unfold updateIndices.
  destruct oldObj as [old|].
  - destruct (deleteFromIndices (Some old) key c) as [c1|p] eqn:Hdel;
      simpl; [|discriminate].
    apply deleteFromIndices_spec in Hdel
      as (Hitems1 & Hixs1 & Hall_old & Hbucket1 & Hne1 & Hmade1 & _).
    destruct (map_fold _ _ _) as [ix'|p] eqn:Hadd; simpl; [|discriminate].
    intros [= <-]. simpl.
    apply addLoop_spec in Hadd as (Hall_new & Hbucket2 & Hne2 & Hmade2 & _).
    rewrite Hixs1, Hixs in *.
    split; [exact Hitems1|]. split; [reflexivity|].
    split; [|split; [auto|split; [exact Hall_new|auto]]].
    intros name indexFunc Hname value k.
    destruct (Hall_new name indexFunc Hname) as [values Hvalues].
    destruct (Hall_old name indexFunc Hname) as [values0 Hvalues0].
    rewrite (Hbucket2 name indexFunc values Hname Hvalues).
    rewrite (Hbucket1 name indexFunc values0 Hname Hvalues0).
    rewrite (Hagrees name indexFunc Hname).
    simpl in Hold. unfold indexedUnder.
    destruct (decide (k = key)) as [->|Hk].
    + rewrite lookup_insert_eq. split.
      * intros [[(o & Ho & vs & Hvs & Hin) Hnot]|[_ Hin]].
        -- exfalso. apply Hnot. split; [reflexivity|]. congruence.
        -- eauto.
      * intros (o & [= <-] & vs & Hvs & Hin). right. split; [reflexivity|congruence].
    + rewrite lookup_insert_ne by congruence. split.
      * intros [[Hfiled _]|[Heq _]]; [exact Hfiled|contradiction].
      * intros Hfiled. left. split; [exact Hfiled|]. now intros [Heq _].
  - simpl.
    destruct (map_fold _ _ _) as [ix'|p] eqn:Hadd; simpl; [|discriminate].
    intros [= <-]. simpl.
    apply addLoop_spec in Hadd as (Hall_new & Hbucket2 & Hne2 & Hmade2 & _).
    rewrite Hixs in *.
    split; [reflexivity|]. split; [reflexivity|].
    split; [|split; [auto|split; [exact Hall_new|auto]]].
    intros name indexFunc Hname value k.
    destruct (Hall_new name indexFunc Hname) as [values Hvalues].
    rewrite (Hbucket2 name indexFunc values Hname Hvalues).
    rewrite (Hagrees name indexFunc Hname).
    simpl in Hold. unfold indexedUnder.
    destruct (decide (k = key)) as [->|Hk].
    + rewrite lookup_insert_eq. split.
      * intros [(o & Ho & vs & Hvs & Hin)|[_ Hin]].
        -- exfalso. rewrite (Hold o Ho name indexFunc vs Hname Hvs) in Hin.
           inversion Hin.
        -- eauto.
      * intros (o & [= <-] & vs & Hvs & Hin). right. split; [reflexivity|congruence].
    + rewrite lookup_insert_ne by congruence. split.
      * intros [Hfiled|[Heq _]]; [exact Hfiled|contradiction].
      * intros Hfiled. now left.
Qed.

Lemma updateIndices_total ixs (oldObj newObj : obj) key (c : store) :
  entries (indexers c) = ixs ->
  (oldObj <> None -> indexable ixs oldObj) -> indexable ixs newObj ->
  isMade (indices c) \/ ixs = ∅ ->
  exists c', updateIndices oldObj newObj key c = Return c'.
Proof.
  intros Hixs Hold Hnew Hmade. unfold updateIndices.
  destruct oldObj as [old|].
  - destruct (deleteFromIndices_total (Some old) key c) as [c1 Hdel];
      [rewrite Hixs; now apply Hold|].
    rewrite Hdel. simpl.
    apply deleteFromIndices_spec in Hdel as (_ & Hixs1 & _ & _ & _ & Hmade1 & _).
    destruct (addLoop_total newObj key (entries (indexers c1)) (indices c1)) as [ix' ->];
      [now rewrite Hixs1, Hixs|rewrite Hixs1, Hixs; tauto|].
    simpl. eauto.
  - simpl.
    destruct (addLoop_total newObj key (entries (indexers c)) (indices c)) as [ix' ->];
      [now rewrite Hixs|now rewrite Hixs|].
    simpl. eauto.
Qed.

(** ** The loops do not depend on the order of the visit *)

Lemma sameOutcome_PreOrder {A : Type} : PreOrder (@sameOutcome error A).
Proof.
  split.
  - intros [a|p]; simpl; auto.
  - intros [a1|p1] [a2|p2] [a3|p3]; simpl; try tauto; congruence.
Qed.

Lemma bind_sameOutcome {A B : Type} (k : A -> M B) :
  Proper (sameOutcome ==> sameOutcome) (fun acc => bind acc k).
Proof.
  intros [a1|p1] [a2|p2]; simpl; try tauto.
  intros <-. destruct (k a1); simpl; auto.
Qed.

Lemma rangeIn_foldr {A B : Type} (body : string -> A -> B -> B)
    (order : list (string * A)) : forall b,
  rangeIn order body b = foldr (uncurry body) b (reverse order).
Proof.
  unfold rangeIn.
  induction order as [|[key a] order IH]; intros b; simpl; [reflexivity|].
  rewrite IH, reverse_cons, foldr_app. reflexivity.
Qed.

Lemma NoDup_fst_distinct {A : Type} (l : list (string * A)) j1 j2 e1 e2 :
  NoDup l.*1 -> j1 <> j2 -> l !! j1 = Some e1 -> l !! j2 = Some e2 -> e1.1 <> e2.1.
Proof.
  intros Hnodup Hj H1 H2 Heq. apply Hj.
  apply (NoDup_lookup _ j1 j2 e1.1 Hnodup).
  - now rewrite list_lookup_fmap, H1.
  - now rewrite list_lookup_fmap, H2, Heq.
Qed.

(** A loop of [rangeIn] against the loop of [map_fold], for a body that
    commutes with itself on the entries of the map. *)
Lemma range_any_order {A B : Type} (body : string -> A -> M B -> M B)
    (m : gmap string A) (order : list (string * A)) (b : M B) :
  (forall key a, Proper (sameOutcome ==> sameOutcome) (body key a)) ->
  (forall key1 a1 key2 a2 r, key1 <> key2 ->
     sameOutcome (body key1 a1 (body key2 a2 r)) (body key2 a2 (body key1 a1 r))) ->
  order ≡ₚ map_to_list m ->
  sameOutcome (rangeIn order body b) (map_fold body b m).
Proof.
  intros Hproper Hcommute Horder.
  rewrite rangeIn_foldr, map_fold_foldr.
  apply (@foldr_permutation _ _ sameOutcome sameOutcome_PreOrder (uncurry body) b).
  - intros [key a]. apply Hproper.
  - intros j1 [key1 a1] j2 [key2 a2] r Hj H1 H2. simpl.
    apply Hcommute.
    apply (NoDup_fst_distinct (reverse order) j1 j2 (key1, a1) (key2, a2)); auto.
    rewrite reverse_Permutation, Horder.
    apply NoDup_fst_map_to_list.
  - now rewrite reverse_Permutation.
Qed.

Lemma rewrites_commute (o : obj) upd strict body name1 f1 name2 f2
    (r : M (gomap Index)) :
  rewrites (error := error) o upd strict body -> name1 <> name2 ->
  sameOutcome
    (do ix <- (do ix <- r; body name2 f2 ix); body name1 f1 ix)
    (do ix <- (do ix <- r; body name1 f1 ix); body name2 f2 ix).
Proof.
  intros Hbody Hne. destruct r as [ix|p]; simpl; [|exact I].
  pose proof (Hbody name1 f1 ix) as H1. pose proof (Hbody name2 f2 ix) as H2.
  pose proof (Hbody name1 f1 nilMap) as N1. pose proof (Hbody name2 f2 nilMap) as N2.
  destruct (f1 o) as [values1|err1] eqn:Hf1; destruct (f2 o) as [values2|err2] eqn:Hf2.
  - destruct ix as [|m].
    + destruct strict; rewrite H1, H2; simpl; [exact I|].
      now rewrite N1, N2.
    + destruct H1 as (m1 & -> & Hat1 & Helse1).
      destruct H2 as (m2 & -> & Hat2 & Helse2). simpl.
      pose proof (Hbody name1 f1 (madeMap m2)) as H12.
      pose proof (Hbody name2 f2 (madeMap m1)) as H21.
      rewrite Hf1 in H12. rewrite Hf2 in H21.
      destruct H12 as (m12 & -> & Hat12 & Helse12).
      destruct H21 as (m21 & -> & Hat21 & Helse21). simpl.
      f_equal. apply map_eq. intros name.
      destruct (decide (name = name1)) as [->|Hn1].
      * rewrite Hat12, (Helse21 name1), Hat1, (Helse2 name1) by congruence. reflexivity.
      * destruct (decide (name = name2)) as [->|Hn2].
        -- rewrite (Helse12 name2), Hat2, Hat21, (Helse1 name2) by congruence.
           reflexivity.
        -- rewrite (Helse12 name), (Helse2 name), (Helse21 name), (Helse1 name)
             by congruence. reflexivity.
  - destruct H2 as [p2 ->]. simpl.
    destruct (body name1 f1 ix) as [ix1|p1]; simpl; [|exact I].
    pose proof (Hbody name2 f2 ix1) as H21. rewrite Hf2 in H21.
    destruct H21 as [p ->]. exact I.
  - destruct H1 as [p1 ->]. simpl.
    destruct (body name2 f2 ix) as [ix2|p2]; simpl; [|exact I].
    pose proof (Hbody name1 f1 ix2) as H12. rewrite Hf1 in H12.
    destruct H12 as [p ->]. exact I.
  - destruct H1 as [p1 ->]. destruct H2 as [p2 ->]. exact I.
Qed.

(** The loops of [deleteFromIndices] and [updateIndices] give the same
    indices, or panic all the same, in whatever order the indexers are
    visited. *)
Lemma indexers_any_order (o : obj) upd strict body (ixs : Indexers) (ix0 : gomap Index)
    (order : list (string * IndexFunc)) :
  rewrites (error := error) o upd strict body ->
  order ≡ₚ map_to_list ixs ->
  sameOutcome
    (rangeIn order (fun name indexFunc acc => do ix <- acc; body name indexFunc ix)
       (Return ix0))
    (map_fold (fun name indexFunc acc => do ix <- acc; body name indexFunc ix)
       (Return ix0) ixs).
Proof.
  intros Hbody Horder. apply range_any_order; [| |exact Horder].
  - intros name indexFunc. apply bind_sameOutcome.
  - intros name1 f1 name2 f2 r Hne. now apply (rewrites_commute o upd strict).
Qed.

Lemma insertKey_lookup key (index : Index) value0 value :
  insertKey key index value0 !! value
  = if decide (value = value0) then Some ({[key]} ∪ members index value)
    else index !! value.
Proof.
  unfold insertKey, members.
  destruct (index !! value0) as [set|] eqn:Hset;
    destruct (decide (value = value0)) as [->|Hne];
    rewrite ?lookup_insert_eq, ?lookup_insert_ne, ?Hset by congruence;
    try reflexivity.
  f_equal. set_solver.
Qed.

Lemma insertKeys_lookup key values : forall (index : Index) value,
  foldl (insertKey key) index values !! value
  = if decide (value ∈ values) then Some ({[key]} ∪ members index value)
    else index !! value.
Proof.
  induction values as [|value0 values IH]; intros index value; simpl.
  - destruct (decide (value ∈ [])) as [Hin|]; [inversion Hin|reflexivity].
  - rewrite IH. unfold members at 1. rewrite !insertKey_lookup.
    destruct (decide (value ∈ values)) as [Hin|Hout];
      destruct (decide (value = value0)) as [->|Hne];
      destruct (decide (_ ∈ value0 :: values)) as [Hin'|Hout'];
      try reflexivity; try (f_equal; set_solver);
      try (exfalso; apply Hout'; set_solver).
Qed.

Lemma inserted_comm key1 values1 key2 values2 (old : option Index) :
  inserted key1 values1 (inserted key2 values2 old)
  = inserted key2 values2 (inserted key1 values1 old).
Proof.
  unfold inserted. f_equal. apply map_eq. intros value.
  rewrite !insertKeys_lookup. unfold members. rewrite !insertKeys_lookup.
  destruct (decide (value ∈ values1)); destruct (decide (value ∈ values2));
    try reflexivity.
  f_equal. set_solver.
Qed.

(** [updateIndices(nil, item, key)], exactly. *)
Lemma updateIndices_None_spec (item : obj) key (c : store) :
  (indexable (entries (indexers c)) item ->
   isMade (indices c) \/ entries (indexers c) = ∅ ->
   exists c', updateIndices None item key c = Return c') /\
  (forall c', updateIndices None item key c = Return c' ->
     indexable (entries (indexers c)) item /\
     (isMade (indices c) \/ entries (indexers c) = ∅) /\
     items c' = items c /\ indexers c' = indexers c /\
     (isMade (indices c) -> isMade (indices c')) /\
     (indices c = nilMap -> indices c' = nilMap) /\
     forall name,
       entries (indices c') !! name =
       match entries (indexers c) !! name with
       | Some indexFunc =>
           match indexFunc item with
           | Ok values => inserted key values (entries (indices c) !! name)
           | Fail _ => entries (indices c) !! name
           end
       | None => entries (indices c) !! name
       end).
Proof.
  unfold updateIndices. simpl.
  destruct (index_loop_spec item (inserted key) true (addToIndex item key)
              (entries (indexers c)) (indices c) (addToIndex_rewrites item key)
              ltac:(discriminate)) as [Htotal Hspec].
  split.
  - intros Hall Hmade. destruct (Htotal Hall (fun _ => Hmade)) as [ix' ->].
    simpl. eauto.
  - intros c'. destruct (map_fold _ _ _) as [ix'|p]; simpl; [|discriminate].
    intros [= <-]. simpl.
    destruct (Hspec ix' eq_refl) as (Hall & Hmade & Hnil & Hstrict & Hix'). auto 10.
Qed.

Lemma updateIndices_None_commute (item1 item2 : obj) key1 key2 (r : M store) :
  sameOutcome
    (do c <- (do c <- r; updateIndices None item2 key2 c);
     updateIndices None item1 key1 c)
    (do c <- (do c <- r; updateIndices None item1 key1 c);
     updateIndices None item2 key2 c).
Proof.
  destruct r as [c|p]; simpl; [|exact I].
  destruct (updateIndices_None_spec item1 key1 c) as [Htotal1 Hspec1].
  destruct (updateIndices_None_spec item2 key2 c) as [Htotal2 Hspec2].
  destruct (updateIndices None item1 key1 c) as [c1|p1] eqn:H1;
    destruct (updateIndices None item2 key2 c) as [c2|p2] eqn:H2; simpl.
  - destruct (Hspec1 c1 eq_refl)
      as (Hall1 & Hwrite1 & Hitems1 & Hixs1 & Hmade1 & Hnil1 & Hix1).
    destruct (Hspec2 c2 eq_refl)
      as (Hall2 & Hwrite2 & Hitems2 & Hixs2 & Hmade2 & Hnil2 & Hix2).
    destruct (updateIndices_None_spec item1 key1 c2) as [Htotal12 Hspec12].
    destruct (updateIndices_None_spec item2 key2 c1) as [Htotal21 Hspec21].
    destruct Htotal12 as [c12 H12]; [now rewrite Hixs2|rewrite Hixs2; tauto|].
    destruct Htotal21 as [c21 H21]; [now rewrite Hixs1|rewrite Hixs1; tauto|].
    rewrite H12, H21. simpl.
    destruct (Hspec12 c12 H12) as (_ & _ & Hitems12 & Hixs12 & Hmade12 & Hnil12 & Hix12).
    destruct (Hspec21 c21 H21) as (_ & _ & Hitems21 & Hixs21 & Hmade21 & Hnil21 & Hix21).
    assert (Hentries : entries (indices c12) = entries (indices c21)).
    { apply map_eq. intros name. rewrite Hix12, Hix21, Hixs1, Hixs2, Hix1, Hix2.
      destruct (entries (indexers c) !! name) as [indexFunc|]; [|reflexivity].
      destruct (indexFunc item1); destruct (indexFunc item2); try reflexivity.
      apply inserted_comm. }
    assert (Hindices : indices c12 = indices c21).
    { destruct (indices c) as [|m] eqn:Hc.
      - rewrite (Hnil12 (Hnil2 eq_refl)), (Hnil21 (Hnil1 eq_refl)). reflexivity.
      - apply made_eq; [apply Hmade12, Hmade2; exact I
                       |apply Hmade21, Hmade1; exact I|exact Hentries]. }
    destruct c12, c21. simpl in *. congruence.
  - destruct (updateIndices None item2 key2 c1) as [c21|p] eqn:H21; simpl; [|exact I].
    destruct (Hspec1 c1 eq_refl) as (_ & Hwrite1 & _ & Hixs1 & _).
    destruct (updateIndices_None_spec item2 key2 c1) as [_ Hspec21].
    destruct (Hspec21 c21 H21) as (Hall2 & _). rewrite Hixs1 in Hall2.
    destruct (Htotal2 Hall2 Hwrite1) as [c' Hc']. discriminate.
  - destruct (updateIndices None item1 key1 c2) as [c12|p] eqn:H12; simpl; [|exact I].
    destruct (Hspec2 c2 eq_refl) as (_ & Hwrite2 & _ & Hixs2 & _).
    destruct (updateIndices_None_spec item1 key1 c2) as [_ Hspec12].
    destruct (Hspec12 c12 H12) as (Hall1 & _). rewrite Hixs2 in Hall1.
    destruct (Htotal1 Hall1 Hwrite2) as [c' Hc']. discriminate.
  - exact I.
Qed.

(** [Replace] gives the same store, or panics all the same, in whatever
    order the new items are visited. *)
Lemma Replace_any_order (newItems : gomap obj) (c : store)
    (order : list (string * obj)) :
  order ≡ₚ map_to_list (entries newItems) ->
  sameOutcome
    (rangeIn order (fun key item acc => do c1 <- acc; updateIndices None item key c1)
       (Return {| items := newItems; indexers := indexers c; indices := madeMap ∅ |}))
    (Replace newItems c).
Proof.
  intros Horder. unfold Replace. apply range_any_order; [| |exact Horder].
  - intros key item. apply bind_sameOutcome.
  - intros key1 item1 key2 item2 r _. apply updateIndices_None_commute.
Qed.

(** ** The operations keep the invariant *)

Lemma invariant_consistent ixs (c : store) :
  invariant ixs c ->
  consistent c /\ noEmptyBucket (entries (indices c)) /\ entries (indexers c) = ixs.
Proof.
  intros (Hixs & Hagrees & Hne & _). unfold consistent. rewrite Hixs. auto.
Qed.

Lemma invariant_New (indexers0 : gomap IndexFunc) (indices0 : gomap Index) :
  entries indices0 = ∅ ->
  invariant (entries indexers0) (NewThreadSafeStore indexers0 indices0).
Proof.
  intros Hempty. split; [reflexivity|]. split; [|split]; simpl; rewrite ?Hempty.
  - intros name indexFunc _ value key. unfold bucket.
    rewrite lookup_empty. split; [set_solver|].
    intros (o & Ho & _). now rewrite lookup_empty in Ho.
  - intros name index Hindex. now rewrite lookup_empty in Hindex.
  - intros key o Ho. now rewrite lookup_empty in Ho.
Qed.

Lemma describes_itemAt ixs (c : store) key :
  invariant ixs c -> describes ixs (entries (items c)) key (itemAt c key).
Proof.
  intros (_ & _ & _ & Hstored). unfold describes, itemAt.
  destruct (entries (items c) !! key) as [[old|]|] eqn:Hkey;
    [reflexivity| |discriminate].
  intros o [= <-]. now apply (Hstored key None Hkey).
Qed.

(** What [Add] and [Update] do to the items. *)
Lemma Add_items key (o : obj) (c c' : store) :
  Add key o c = Return c' ->
  items c' = madeMap (<[key := o]> (entries (items c))) /\ isMade (items c) /\
  indexers c' = indexers c.
Proof.
  unfold Add. destruct (items c) as [|m] eqn:Hitems; simpl; [discriminate|].
  intros Hupdate.
  assert (Hsame : items c' = madeMap (<[key := o]> m) /\ indexers c' = indexers c).
  { revert Hupdate. unfold updateIndices.
    destruct (itemAt c key) as [old|].
    - destruct (deleteFromIndices _ _ _) as [c1|p] eqn:Hdel; simpl; [|discriminate].
      apply deleteFromIndices_spec in Hdel as (Hitems1 & Hixs1 & _).
      destruct (map_fold _ _ _) as [ix'|p]; simpl; [|discriminate].
      intros [= <-]. simpl. auto.
    - simpl. destruct (map_fold _ _ _) as [ix'|p]; simpl; [|discriminate].
      intros [= <-]. auto. }
  destruct Hsame as [-> ->]. auto.
Qed.

Lemma Add_invariant ixs key (o : obj) (c c' : store) :
  invariant ixs c -> plain ixs o -> Add key o c = Return c' -> invariant ixs c'.
Proof.
  intros Hc Hplain Hadd. pose proof (describes_itemAt ixs c key Hc) as Hold.
  destruct (Add_items key o c c' Hadd) as (Hitems' & Hmade & _).
  destruct Hc as (Hixs & Hagrees & Hne & Hstored). revert Hadd. unfold Add.
  destruct (items c) as [|m] eqn:Hitems; simpl; [discriminate|].
  intros Hupdate. simpl in *.
  apply (updateIndices_agrees ixs m) in Hupdate
    as (_ & Hixs' & Hagrees' & Hne' & Hall & _); auto.
  unfold invariant. rewrite Hitems', Hixs'. simpl.
  split; [exact Hixs|]. split; [exact Hagrees'|]. split; [exact Hne'|].
  intros k o' Hk. destruct (decide (k = key)) as [->|Hneq].
  - rewrite lookup_insert_eq in Hk. injection Hk as <-. auto.
  - rewrite lookup_insert_ne in Hk by congruence. eauto.
Qed.

Lemma Add_writable key (o : obj) (c c' : store) :
  Add key o c = Return c' ->
  isMade (indices c) \/ entries (indexers c) = ∅ -> writable c'.
Proof.
  intros Hadd Hwrite. destruct (Add_items key o c c' Hadd) as (Hitems' & _ & Hixs').
  split; [now rewrite Hitems'|].
  destruct Hwrite as [Hmade|Hnone]; [left|right; now rewrite Hixs'].
  revert Hadd. unfold Add, updateIndices.
  destruct (assign key o (items c)) as [items'|p]; simpl; [|discriminate].
  destruct (itemAt c key) as [old|].
  - destruct (deleteFromIndices _ _ _) as [c1|p] eqn:Hdel; simpl; [|discriminate].
    apply deleteFromIndices_spec in Hdel as (_ & _ & _ & _ & _ & Hmade1 & _).
    destruct (map_fold _ _ _) as [ix'|p] eqn:Hloop; simpl; [|discriminate].
    apply addLoop_spec in Hloop as (_ & _ & _ & Hmade2 & _).
    intros [= <-]. simpl. auto.
  - simpl. destruct (map_fold _ _ _) as [ix'|p] eqn:Hloop; simpl; [|discriminate].
    apply addLoop_spec in Hloop as (_ & _ & _ & Hmade2 & _).
    intros [= <-]. simpl. auto.
Qed.

Lemma Add_total ixs key (o : obj) (c : store) :
  invariant ixs c -> writable c -> indexable ixs o ->
  exists c', Add key o c = Return c'.
Proof.
  intros (Hixs & _ & _ & Hstored) [Hitems Hindices] Hall. unfold Add.
  destruct (items c) as [|m] eqn:Hm; [destruct Hitems|]. simpl.
  apply (updateIndices_total ixs); auto; [|simpl; rewrite <- Hixs; exact Hindices].
  unfold itemAt. rewrite Hm. simpl.
  destruct (m !! key) as [old|] eqn:Hkey; [|congruence].
  intros _. apply (Hstored key old). exact Hkey.
Qed.

Lemma Delete_items key (c c' : store) :
  Delete key c = Return c' ->
  entries (items c') = delete key (entries (items c)) /\
  indexers c' = indexers c /\
  (isMade (items c) -> isMade (items c')) /\
  (isMade (indices c) -> isMade (indices c')).
Proof.
  unfold Delete. destruct (entries (items c) !! key) as [o|] eqn:Hkey.
  - destruct (deleteFromIndices o key c) as [c1|p] eqn:Hdel; simpl; [|discriminate].
    apply deleteFromIndices_spec in Hdel as (Hitems & Hixs & _ & _ & _ & Hmade & _).
    intros [= <-]. simpl. rewrite Hitems, Hixs.
    destruct (items c); simpl; auto.
  - intros [= <-]. split; [|auto]. symmetry. now apply delete_id.
Qed.

Lemma Delete_invariant ixs key (c c' : store) :
  invariant ixs c -> Delete key c = Return c' -> invariant ixs c'.
Proof.
  intros (Hixs & Hagrees & Hne & Hstored) Hdelete.
  destruct (Delete_items key c c' Hdelete) as (Hitems' & Hixs' & _).
  revert Hdelete. unfold Delete.
  destruct (entries (items c) !! key) as [o|] eqn:Hkey.
  2:{ intros [= <-]. split; [exact Hixs|]. split; [exact Hagrees|].
      split; [exact Hne|exact Hstored]. }
  destruct (deleteFromIndices o key c) as [c1|p] eqn:Hdel; simpl; [|discriminate].
  intros Hc'.
  assert (Hindices : indices c' = indices c1) by (now injection Hc' as <-).
  apply deleteFromIndices_spec in Hdel as (Hitems1 & Hixs1 & Hall & Hbucket1 & Hne1 & _).
  unfold invariant. rewrite Hitems', Hixs', Hindices, Hixs in *.
  split; [reflexivity|]. split; [|split; [auto|]].
  - intros name indexFunc Hname value k.
    destruct (Hall name indexFunc Hname) as [values Hvalues].
    rewrite (Hbucket1 name indexFunc values Hname Hvalues).
    rewrite (Hagrees name indexFunc Hname). unfold indexedUnder.
    destruct (decide (k = key)) as [->|Hk].
    + rewrite lookup_delete_eq. split.
      * intros [(o' & Ho' & vs & Hvs & Hin) Hnot]. exfalso. apply Hnot.
        split; [reflexivity|]. congruence.
      * intros (o' & Ho' & _). discriminate.
    + rewrite lookup_delete_ne by congruence. split.
      * now intros [Hfiled _].
      * intros Hfiled. split; [exact Hfiled|]. now intros [Heq _].
  - intros k o' Hk. destruct (decide (k = key)) as [->|Hneq].
    + now rewrite lookup_delete_eq in Hk.
    + rewrite lookup_delete_ne in Hk by congruence. eauto.
Qed.

Lemma Delete_total ixs key (c : store) :
  invariant ixs c -> exists c', Delete key c = Return c'.
Proof.
  intros (Hixs & _ & _ & Hstored). unfold Delete.
  destruct (entries (items c) !! key) as [o|] eqn:Hkey; [|eauto].
  destruct (deleteFromIndices_total o key c) as [c1 ->].
  - rewrite Hixs. now apply (Hstored key o Hkey).
  - simpl. eauto.
Qed.

(** [Replace] files the new items one by one into fresh indices. *)
Lemma Replace_spec ixs (newItems : gomap obj) (c : store) :
  entries (indexers c) = ixs ->
  ((forall key o, entries newItems !! key = Some o -> indexable ixs o) ->
   exists c', Replace newItems c = Return c') /\
  (forall c', Replace newItems c = Return c' ->
     items c' = newItems /\ indexers c' = indexers c /\
     agrees ixs (entries (indices c')) (entries newItems) /\
     noEmptyBucket (entries (indices c')) /\
     isMade (indices c') /\
     (forall key o, entries newItems !! key = Some o -> indexable ixs o)).
Proof.
  intros Hixs. unfold Replace.
  apply (map_fold_weak_ind (fun (r : M store) (done : gmap string obj) =>
    ((forall key o, done !! key = Some o -> indexable ixs o) ->
     exists c', r = Return c') /\
    (forall c', r = Return c' ->
       items c' = newItems /\ indexers c' = indexers c /\
       agrees ixs (entries (indices c')) done /\
       noEmptyBucket (entries (indices c')) /\
       isMade (indices c') /\
       (forall key o, done !! key = Some o -> indexable ixs o)))).
  - split; [eauto|]. intros c' [= <-]. simpl.
    split; [reflexivity|]. split; [reflexivity|]. split; [|split; [|split]].
    + intros name indexFunc _ value key. unfold bucket.
      rewrite lookup_empty. split; [set_solver|].
      intros (o & Ho & _). now rewrite lookup_empty in Ho.
    + intros name index Hindex. now rewrite lookup_empty in Hindex.
    + exact I.
    + intros key o Ho. now rewrite lookup_empty in Ho.
  - intros key item done r Hfresh [Htotal Hspec]. split.
    + intros Hall. destruct Htotal as [c1 ->].
      { intros k o Hk. apply (Hall k).
        rewrite lookup_insert_ne; [exact Hk|]. congruence. }
      simpl. destruct (Hspec c1 eq_refl) as (_ & Hixs1 & _ & _ & Hmade1 & _).
      apply (updateIndices_total ixs); [now rewrite Hixs1|congruence| |now left].
      apply (Hall key). apply lookup_insert_eq.
    + intros c'. destruct r as [c1|p]; simpl; [|discriminate].
      destruct (Hspec c1 eq_refl)
        as (Hitems1 & Hixs1 & Hagrees1 & Hne1 & Hmade1 & Hdone).
      intros Hupdate.
      apply (updateIndices_agrees ixs done) in Hupdate
        as (Hitems' & Hixs' & Hagrees' & Hne' & Hall & Hmade'); auto.
      2:{ now rewrite Hixs1. }
      2:{ intros o Ho. congruence. }
      split; [congruence|]. split; [congruence|]. split; [exact Hagrees'|].
      split; [exact Hne'|]. split; [auto|].
      intros k o Hk. destruct (decide (k = key)) as [->|Hneq].
      * rewrite lookup_insert_eq in Hk. injection Hk as <-. exact Hall.
      * rewrite lookup_insert_ne in Hk by congruence. eauto.
Qed.

Lemma Replace_invariant ixs (newItems : gomap obj) (c c' : store) :
  entries (indexers c) = ixs ->
  (forall key o, entries newItems !! key = Some o -> plain ixs o) ->
  Replace newItems c = Return c' -> invariant ixs c'.
Proof.
  intros Hixs Hplain Hreplace.
  apply (Replace_spec ixs newItems c Hixs) in Hreplace
    as (Hitems & Hixs' & Hagrees & Hne & _ & Hall).
  unfold invariant. rewrite Hitems, Hixs'.
  split; [exact Hixs|]. split; [exact Hagrees|]. split; [exact Hne|].
  intros key o Hkey. split; [now apply (Hplain key)|now apply (Hall key)].
Qed.

Lemma stored_Replace (newItems : gomap obj) key o :
  entries newItems !! key = Some o -> o ∈ stored (OpReplace newItems).
Proof.
  intros Hkey. simpl. apply list_elem_of_fmap. exists (key, o).
  split; [reflexivity|]. now apply elem_of_map_to_list.
Qed.

Lemma apply_invariant ixs (c c' : store) (x : op) :
  invariant ixs c ->
  (forall o, o ∈ stored x -> plain ixs o) ->
  apply c x = Return c' -> invariant ixs c'.
Proof.
  intros Hc Hplain. destruct x as [key o|key o|key|newItems]; simpl.
  - apply Add_invariant; [exact Hc|]. apply Hplain. left.
  - apply (Add_invariant ixs key o c c'); [exact Hc|]. apply Hplain. left.
  - now apply Delete_invariant.
  - apply Replace_invariant; [apply Hc|].
    intros key o Hkey. apply Hplain. now apply (stored_Replace _ key).
Qed.

(** The maps stay made as long as the caller hands made maps. *)
Lemma apply_writable (c c' : store) (x : op) :
  writable c -> handsMade x -> apply c x = Return c' -> writable c'.
Proof.
  intros [Hitems Hindices] Hx. destruct x as [key o|key o|key|newItems]; simpl.
  - intros Hadd. now apply (Add_writable key o c c').
  - intros Hadd. now apply (Add_writable key o c c').
  - intros Hdelete. apply Delete_items in Hdelete as (_ & Hixs' & Hitems' & Hindices').
    split; [auto|]. rewrite Hixs'. tauto.
  - intros Hreplace.
    apply (Replace_spec _ newItems c eq_refl) in Hreplace
      as (Hitems' & _ & _ & _ & Hmade & _).
    split; [rewrite Hitems'; exact Hx|left; exact Hmade].
Qed.

Lemma apply_total ixs (c : store) (x : op) :
  invariant ixs c -> writable c ->
  (forall o, o ∈ stored x -> indexable ixs o) ->
  exists c', apply c x = Return c'.
Proof.
  intros Hc Hw Hall. destruct x as [key o|key o|key|newItems]; simpl.
  - apply (Add_total ixs); [exact Hc|exact Hw|]. apply Hall. left.
  - apply (Add_total ixs key o c); [exact Hc|exact Hw|]. apply Hall. left.
  - now apply (Delete_total ixs).
  - apply (Replace_spec ixs newItems c); [apply Hc|].
    intros key o Hkey. apply Hall. now apply (stored_Replace _ key).
Qed.

Lemma run_invariant ixs (ops : list op) : forall (c c' : store),
  invariant ixs c ->
  (forall x o, x ∈ ops -> o ∈ stored x -> plain ixs o) ->
  run ops c = Return c' -> invariant ixs c'.
Proof.
  induction ops as [|x ops IH]; intros c c' Hc Hplain; simpl.
  - now intros [= <-].
  - destruct (apply c x) as [c1|p] eqn:Hx; simpl; [|discriminate].
    apply IH.
    + apply (apply_invariant ixs c c1 x); auto. intros o. apply Hplain. left.
    + intros y o Hy. apply Hplain. now right.
Qed.

Lemma run_total ixs (ops : list op) : forall (c : store),
  invariant ixs c -> writable c ->
  (forall x o, x ∈ ops -> o ∈ stored x -> plain ixs o) ->
  (forall x o, x ∈ ops -> o ∈ stored x -> indexable ixs o) ->
  (forall x, x ∈ ops -> handsMade x) ->
  exists c', run ops c = Return c'.
Proof.
  induction ops as [|x ops IH]; intros c Hc Hw Hplain Hall Hmade; simpl; [eauto|].
  destruct (apply_total ixs c x) as [c1 Hx]; [exact Hc|exact Hw| |].
  { intros o. apply Hall. left. }
  rewrite Hx. simpl. apply IH.
  - apply (apply_invariant ixs c c1 x); auto. intros o. apply Hplain. left.
  - apply (apply_writable c c1 x); auto. apply Hmade. left.
  - intros y o Hy. apply Hplain. now right.
  - intros y o Hy. apply Hall. now right.
  - intros y Hy. apply Hmade. now right.
Qed.

(** C1, as the code has it.  Take a store created with no index
    ([NewThreadSafeStore] with an [indices] map that is [nil] or empty),
    with any indexers, and a sequence of [Add], [Update], [Delete] and
    [Replace] in which every [nil] object stored has no index value (as
    when no [nil] is stored at all).  In every store the sequence reaches
    without a panic, [key] is in [indices[name][value]] exactly when [key]
    is in [items] and [value] is among [indexers[name](items[key])], and no
    bucket is empty.  The sequence runs without a panic when no index
    function returns an error on an object it stores and the store is
    handed no [nil] map to write to: the [indices] given to
    [NewThreadSafeStore] are not [nil], unless there is no index function,
    and the new items of every [Replace] are not [nil]. *)
Theorem index_consistency (indexers0 : gomap IndexFunc) (indices0 : gomap Index)
    (ops : list op) :
  entries indices0 = ∅ ->
  (forall x o, x ∈ ops -> o ∈ stored x -> plain (entries indexers0) o) ->
  (forall c : store,
     run ops (NewThreadSafeStore indexers0 indices0) = Return c ->
     consistent c /\ noEmptyBucket (entries (indices c)) /\
     entries (indexers c) = entries indexers0) /\
  ((forall x o, x ∈ ops -> o ∈ stored x -> indexable (entries indexers0) o) ->
   isMade indices0 \/ entries indexers0 = ∅ ->
   (forall x, x ∈ ops -> handsMade x) ->
   exists c : store, run ops (NewThreadSafeStore indexers0 indices0) = Return c).
Proof.
  intros Hempty Hplain. split.
  - intros c Hrun. apply invariant_consistent.
    apply (run_invariant _ ops _ c (invariant_New indexers0 indices0 Hempty) Hplain Hrun).
  - intros Hall Hindices Hmade.
    apply (run_total _ ops _ (invariant_New indexers0 indices0 Hempty)); auto.
    split; [exact I|exact Hindices].
Qed.

End StoreFacts.

Local Open Scope string_scope.

(** The claim of C1 fails once a [nil] object with an index value is
    overwritten: [Add] reads the old object as "none", so the key stays
    filed under the value of [nil]. *)
Lemma nil_object_leaves_stale_entry :
  exists c : @threadSafeMap string string,
    run [OpAdd "k" None; OpAdd "k" (Some "a")]
        (NewThreadSafeStore Fixtures.valueIndexers (madeMap ∅)) = Return c /\
    entries (indexers c) !! "byValue" = Some Fixtures.byValue /\
    entries (items c) !! "k" = Some (Some "a") /\
    Fixtures.byValue (Some "a") = Ok ["a"] /\
    "k" ∈ bucket (entries (indices c)) "byValue" "<nil>" /\
    (consistent c -> False).
Proof.
  eexists. split; [reflexivity|].
  assert (Hfiled : "k" ∈ bucket (entries (indices (@Build_threadSafeMap string string
                     (madeMap {["k" := Some "a"]}) Fixtures.valueIndexers
                     (madeMap {["byValue" := {["<nil>" := {["k"]}; "a" := {["k"]}]}]}))))
                     "byValue" "<nil>").
  { vm_compute. reflexivity. }
  split; [reflexivity|]. split; [reflexivity|]. split; [reflexivity|].
  split; [exact Hfiled|].
  intros Hconsistent.
  apply (Hconsistent "byValue" Fixtures.byValue eq_refl "<nil>" "k") in Hfiled
    as (o & Ho & values & Hvalues & Hin).
  vm_compute in Ho. injection Ho as <-.
  injection Hvalues as <-.
  apply list_elem_of_singleton in Hin. discriminate.
Qed.

(** A write to a [nil] map panics, also when no index function fails:
    [Add] after [Replace(nil)], and [Add] to a store made with [nil]
    indices and an indexer. *)
Lemma nil_map_write_panics :
  run [OpReplace nilMap; OpAdd "k" (Some "a")]
    (NewThreadSafeStore (object := string) (error := string)
       Fixtures.valueIndexers (madeMap ∅)) = Panic NilMapWrite /\
  run [OpAdd "k" (Some "a")]
    (NewThreadSafeStore (object := string) (error := string)
       Fixtures.valueIndexers nilMap) = Panic NilMapWrite /\
  exists c, run [OpAdd "k" (Some "a")]
              (NewThreadSafeStore (object := string) (error := string)
                 nilMap nilMap) = Return c.
Proof.
  split; [reflexivity|]. split; [reflexivity|]. eexists. reflexivity.
Qed.

Lemma index_consistency_witness :
  exists c : @threadSafeMap string string,
    run Fixtures.sampleOps (NewThreadSafeStore Fixtures.valueIndexers (madeMap ∅))
    = Return c /\
    consistent c /\ noEmptyBucket (entries (indices c)).
Proof.
  assert (Hnonnil : Forall (fun x => Forall (fun o => o <> None) (stored x)) Fixtures.sampleOps).
  { apply (bool_decide_unpack _). vm_compute. exact I. }
  assert (Hplain : forall x o, x ∈ Fixtures.sampleOps -> o ∈ stored x ->
                   plain (entries Fixtures.valueIndexers) o).
  { intros x o Hx Ho Hnil. exfalso.
    rewrite Forall_forall in Hnonnil. specialize (Hnonnil x Hx).
    rewrite Forall_forall in Hnonnil. now apply (Hnonnil o Ho). }
  assert (Hall : forall x o, x ∈ Fixtures.sampleOps -> o ∈ stored x ->
                 indexable (entries Fixtures.valueIndexers) o).
  { intros x o _ _ name indexFunc Hname.
    unfold Fixtures.valueIndexers in Hname. simpl in Hname.
    apply lookup_singleton_Some in Hname as [_ <-]. destruct o; simpl; eauto. }
  assert (Hmade : forall x, x ∈ Fixtures.sampleOps -> handsMade x).
  { intros x Hx. unfold Fixtures.sampleOps in Hx.
    repeat (apply elem_of_cons in Hx as [->|Hx]; [exact I|]). inversion Hx. }
  destruct (index_consistency Fixtures.valueIndexers (madeMap ∅) Fixtures.sampleOps
              eq_refl Hplain) as [Hinvariant Htotal].
  destruct (Htotal Hall (or_introl I) Hmade) as [c Hc]. exists c. split; [exact Hc|].
  destruct (Hinvariant c Hc) as (Hconsistent & Hne & _). split; assumption.
Defined.

End StoreFacts.

(* ================================================================== *)
(** * Reading the store, and adding indexers                            *)
(* ================================================================== *)

Module StoreReadFacts.
Import ThreadSafeStore StoreFacts.

Lemma byteOrder_total : Total byteOrder.
Proof.
  intros a b. unfold byteOrder.
  destruct (String.leb_total a b) as [Hab|Hba]; [left|right]; now apply Is_true_true.
Qed.

#[local] Existing Instance byteOrder_total.

Lemma sortedList_spec (set : gset string) :
  Sorted byteOrder (sortedList set) /\ NoDup (sortedList set) /\
  forall key, key ∈ sortedList set <-> key ∈ set.
Proof.
  unfold sortedList. split; [|split].
  - apply Sorted_merge_sort; apply _.
  - rewrite merge_sort_Permutation. apply NoDup_elements.
  - intros key. rewrite merge_sort_Permutation. apply elem_of_elements.
Qed.

(** A loop that appends one element per entry of a map. *)
Lemma range_append {A B : Type} (g : string -> A -> B) (m : gmap string A) :
  map_fold (fun key item list => list ++ [g key item]) [] m =
  reverse ((fun entry => g entry.1 entry.2) <$> map_to_list m).
Proof.
  rewrite map_fold_foldr.
  induction (map_to_list m) as [|[k a] l IH]; [reflexivity|].
  rewrite fmap_cons, reverse_cons. cbn. now rewrite IH.
Qed.

Lemma elem_of_keys {A : Type} (m : gmap string A) key :
  key ∈ (map_to_list m).*1 <-> is_Some (m !! key).
Proof.
  rewrite list_elem_of_fmap. split.
  - intros [[k a] [-> Hin]]. apply elem_of_map_to_list in Hin. now exists a.
  - intros [a Ha]. exists (key, a). split; [reflexivity|]. now apply elem_of_map_to_list.
Qed.

Section StoreReadFacts.

Context {object error : Type}.

Local Abbreviation obj := (option object).
Local Abbreviation IndexFunc := (obj -> result error (list string)).
Local Abbreviation Indexers := (gmap string IndexFunc).
Local Abbreviation store := (@threadSafeMap object error).

(** ** Writes, then [Get] *)

Lemma updateIndices_items (oldObj newObj : obj) key (c c' : store) :
  updateIndices oldObj newObj key c = Return c' ->
  items c' = items c /\ indexers c' = indexers c.
Proof.
  unfold updateIndices. destruct oldObj as [old|].
  - destruct (deleteFromIndices (Some old) key c) as [c1|p] eqn:Hdel;
      simpl; [|discriminate].
    apply deleteFromIndices_spec in Hdel as (Hitems & Hixs & _).
    destruct (map_fold _ _ _) as [ix'|p]; simpl; [|discriminate].
    intros [= <-]. simpl. auto.
  - simpl. destruct (map_fold _ _ _) as [ix'|p]; simpl; [|discriminate].
    intros [= <-]. auto.
Qed.

(** X1.  [Get] reads the last write: after [Add(key, obj)] or
    [Update(key, obj)] returns, [Get(key)] is [(obj, true)]; after
    [Delete(key)] returns it is [(nil, false)]; every other key reads as
    before. *)
Theorem Get_after_write key (o : obj) (c : store) :
  (forall c', Add key o c = Return c' \/ Update key o c = Return c' ->
     Get key c' = (o, true) /\
     forall other, other <> key -> Get other c' = Get other c) /\
  (forall c', Delete key c = Return c' ->
     Get key c' = (None, false) /\
     forall other, other <> key -> Get other c' = Get other c).
Proof.
  split.
  - intros c' Hwrite.
    assert (Hitems : entries (items c') = <[key := o]> (entries (items c))).
    { assert (Hadd : Add key o c = Return c') by (now destruct Hwrite).
      apply Add_items in Hadd as (-> & _). reflexivity. }
    unfold Get. rewrite Hitems. split.
    + now rewrite lookup_insert_eq.
    + intros other Hne. now rewrite lookup_insert_ne by congruence.
  - intros c' Hdelete. apply Delete_items in Hdelete as (Hitems & _).
    unfold Get. rewrite Hitems. split.
    + now rewrite lookup_delete_eq.
    + intros other Hne. now rewrite lookup_delete_ne by congruence.
Qed.

(** ** [List] and [ListKeys] *)

Lemma ListKeys_eq (c : store) : ListKeys c = reverse ((map_to_list (entries (items c))).*1).
Proof. unfold ListKeys. now rewrite (range_append (fun key _ => key)). Qed.

Lemma List_eq (c : store) : List c = reverse ((map_to_list (entries (items c))).*2).
Proof. unfold List. now rewrite (range_append (fun _ item => item)). Qed.

(** X2.  [ListKeys] lists every key of the store once, [List] the object
    of every key: a key is listed exactly when [Get] finds it, an object
    exactly when [Get] returns it for some key, and both lists have
    [len(items)] entries. *)
Theorem listing_agrees_with_Get (c : store) :
  NoDup (ListKeys c) /\
  (forall key, key ∈ ListKeys c <-> (Get key c).2 = true) /\
  (forall o, o ∈ List c <-> exists key, Get key c = (o, true)) /\
  length (ListKeys c) = size (entries (items c)) /\
  length (List c) = size (entries (items c)).
Proof.
  rewrite ListKeys_eq, List_eq. split; [|split; [|split; [|split]]].
  - rewrite reverse_Permutation. apply NoDup_fst_map_to_list.
  - intros key. rewrite elem_of_reverse, elem_of_keys. unfold Get.
    destruct (entries (items c) !! key) as [o|]; simpl.
    + split; [reflexivity|eauto].
    + split; [|discriminate]. intros [o Ho]. discriminate.
  - intros o. rewrite elem_of_reverse, list_elem_of_fmap. unfold Get. split.
    + intros [[key o'] [-> Hin]]. apply elem_of_map_to_list in Hin.
      exists key. simpl. now rewrite Hin.
    + intros [key Hget]. destruct (entries (items c) !! key) as [o'|] eqn:Hkey; [|discriminate].
      injection Hget as ->. exists (key, o). split; [reflexivity|].
      now apply elem_of_map_to_list.
  - now rewrite length_reverse, length_fmap, length_map_to_list.
  - now rewrite length_reverse, length_fmap, length_map_to_list.
Qed.

(** ** Reads through an index *)

Lemma members_indexAt (c : store) name value :
  members (indexAt c name) value = bucket (entries (indices c)) name value.
Proof.
  unfold indexAt, bucket. destruct (entries (indices c) !! name); [reflexivity|].
  unfold members. now rewrite lookup_empty.
Qed.

(** The objects of the keys of a set that are all stored. *)
Lemma itemsOf_stored (c : store) (set : gset string) :
  (forall key, key ∈ set -> is_Some (entries (items c) !! key)) ->
  Forall2 (fun key item => entries (items c) !! key = Some item) (elements set) (itemsOf c set).
Proof.
  intros Hstored. unfold itemsOf. apply Forall2_fmap_r, Forall_Forall2_diag.
  apply Forall_forall. intros key Hkey. apply elem_of_elements in Hkey.
  destruct (Hstored key Hkey) as [o Ho]. simpl. unfold itemAt. now rewrite Ho.
Qed.

(** X3.  On a store whose indices are consistent, [IndexKeys(indexName,
    indexedValue)] fails with "Index with name ... does not exist" when
    no index function has that name, and otherwise returns, sorted and
    without duplicates, exactly the keys of the stored objects that have
    [indexedValue] among their index values. *)
Theorem IndexKeys_spec (c : store) indexName indexedValue :
  consistent c ->
  match entries (indexers c) !! indexName with
  | None => IndexKeys indexName indexedValue c = Fail (ErrNoIndex indexName)
  | Some indexFunc =>
      exists keys, IndexKeys indexName indexedValue c = Ok keys /\
        Sorted byteOrder keys /\ NoDup keys /\
        forall key, key ∈ keys <->
          exists o, entries (items c) !! key = Some o /\ indexedUnder indexFunc o indexedValue
  end.
Proof.
  intros Hc. unfold IndexKeys.
  destruct (entries (indexers c) !! indexName) as [indexFunc|] eqn:Hname; [|reflexivity].
  eexists. split; [reflexivity|].
  destruct (sortedList_spec (members (indexAt c indexName) indexedValue))
    as (Hsorted & Hnodup & Hin).
  split; [exact Hsorted|]. split; [exact Hnodup|].
  intros key. rewrite Hin, members_indexAt. apply (Hc indexName indexFunc Hname).
Qed.

(** X4.  On a store whose indices are consistent, [ByIndex(indexName,
    indexedValue)] fails when no index function has that name, and
    otherwise returns one object per key filed under the value: the
    objects stored under exactly the keys whose object has [indexedValue]
    among its index values. *)
Theorem ByIndex_spec (c : store) indexName indexedValue :
  consistent c ->
  match entries (indexers c) !! indexName with
  | None => ByIndex indexName indexedValue c = Fail (ErrNoIndex indexName)
  | Some indexFunc =>
      exists keys list, ByIndex indexName indexedValue c = Ok list /\
        NoDup keys /\
        Forall2 (fun key item => entries (items c) !! key = Some item) keys list /\
        forall key, key ∈ keys <->
          exists o, entries (items c) !! key = Some o /\ indexedUnder indexFunc o indexedValue
  end.
Proof.
  intros Hc. unfold ByIndex.
  destruct (entries (indexers c) !! indexName) as [indexFunc|] eqn:Hname; [|reflexivity].
  exists (elements (members (indexAt c indexName) indexedValue)).
  eexists. split; [reflexivity|]. split; [apply NoDup_elements|]. split.
  - apply itemsOf_stored. intros key Hkey. rewrite members_indexAt in Hkey.
    apply (Hc indexName indexFunc Hname) in Hkey as (o & Ho & _). now exists o.
  - intros key. rewrite elem_of_elements, members_indexAt.
    apply (Hc indexName indexFunc Hname).
Qed.

Lemma union_loop_spec (index : gmap string (gset string)) values key : forall acc,
  key ∈ foldl (fun set indexedValue => members index indexedValue ∪ set) acc values <->
  key ∈ acc \/ exists value, value ∈ values /\ key ∈ members index value.
Proof.
  induction values as [|v values IH]; intros acc; simpl.
  - split; [now left|]. intros [Hacc|(value & Hin & _)]; [exact Hacc|inversion Hin].
  - rewrite IH. rewrite elem_of_union. split.
    + intros [[Hv|Hacc]|(value & Hin & Hkey)].
      * right. exists v. split; [left|exact Hv].
      * now left.
      * right. exists value. split; [now right|exact Hkey].
    + intros [Hacc|(value & Hin & Hkey)]; [left; now right|].
      apply elem_of_cons in Hin as [->|Hin]; [left; now left|].
      right. eauto.
Qed.

Lemma storeKeySet_spec (index : gmap string (gset string)) values key :
  key ∈ match values with
        | [indexedValue] => members index indexedValue
        | _ => foldl (fun set indexedValue => members index indexedValue ∪ set) ∅ values
        end <->
  exists value, value ∈ values /\ key ∈ members index value.
Proof.
  assert (Hloop : key ∈ foldl (fun set indexedValue => members index indexedValue ∪ set)
                          ∅ values <->
                  exists value, value ∈ values /\ key ∈ members index value).
  { rewrite union_loop_spec. split; [|now right].
    intros [Hempty|Hin]; [|exact Hin]. now apply not_elem_of_empty in Hempty. }
  destruct values as [|v [|v' values]]; [exact Hloop| |exact Hloop].
  split.
  - intros Hkey. exists v. split; [left|exact Hkey].
  - intros (value & Hin & Hkey). apply list_elem_of_singleton in Hin. now subst.
Qed.

(** X5.  On a store whose indices are consistent, [Index(indexName, obj)]
    fails when no index function has that name, returns the index
    function's error when it fails on [obj] (no panic), and otherwise
    returns one object per key, for exactly the keys whose stored object
    shares an index value with [obj]; the single-value fast path and the
    de-duplicating loop give the same answer. *)
Theorem Index_spec (c : store) indexName (o : obj) :
  consistent c ->
  match entries (indexers c) !! indexName with
  | None => Index indexName o c = Fail (ErrNoIndex indexName)
  | Some indexFunc =>
      match indexFunc o with
      | Fail err => Index indexName o c = Fail (ErrIndexFunc err)
      | Ok values =>
          exists keys list, Index indexName o c = Ok list /\
            NoDup keys /\
            Forall2 (fun key item => entries (items c) !! key = Some item) keys list /\
            forall key, key ∈ keys <->
              exists item value, entries (items c) !! key = Some item /\
                value ∈ values /\ indexedUnder indexFunc item value
      end
  end.
Proof.
  intros Hc. unfold Index.
  destruct (entries (indexers c) !! indexName) as [indexFunc|] eqn:Hname; [|reflexivity].
  destruct (indexFunc o) as [values|err] eqn:Hvalues; [|reflexivity].
  match goal with |- context [itemsOf c ?s] => set (storeKeySet := s) end.
  exists (elements storeKeySet), (itemsOf c storeKeySet).
  split; [reflexivity|]. split; [apply NoDup_elements|].
  assert (Hkeys : forall key,
            key ∈ storeKeySet <->
            exists item value, entries (items c) !! key = Some item /\
              value ∈ values /\ indexedUnder indexFunc item value).
  { intros key. unfold storeKeySet. rewrite storeKeySet_spec. split.
    - intros (value & Hin & Hkey). rewrite members_indexAt in Hkey.
      apply (Hc indexName indexFunc Hname) in Hkey as (item & Hitem & Hunder).
      eauto.
    - intros (item & value & Hitem & Hin & Hunder). exists value.
      split; [exact Hin|]. rewrite members_indexAt.
      apply (Hc indexName indexFunc Hname). eauto. }
  split.
  - apply itemsOf_stored. intros key Hkey.
    apply Hkeys in Hkey as (item & _ & Hitem & _). now exists item.
  - intros key. rewrite elem_of_elements. apply Hkeys.
Qed.

(** X6.  On a store whose indices are consistent and hold no empty
    bucket, [ListIndexFuncValues(indexName)] lists, each once, exactly
    the index values that some stored object has: a value disappears
    from the list with the last object that had it. *)
Theorem ListIndexFuncValues_spec (c : store) indexName indexFunc :
  consistent c -> noEmptyBucket (entries (indices c)) ->
  entries (indexers c) !! indexName = Some indexFunc ->
  NoDup (ListIndexFuncValues indexName c) /\
  forall value, value ∈ ListIndexFuncValues indexName c <->
    exists key o, entries (items c) !! key = Some o /\ indexedUnder indexFunc o value.
Proof.
  intros Hc Hne Hname. unfold ListIndexFuncValues.
  rewrite (range_append (fun key _ => key)). split.
  - rewrite reverse_Permutation. apply NoDup_fst_map_to_list.
  - intros value. rewrite elem_of_reverse.
    change (value ∈ (map_to_list (indexAt c indexName)).*1 <->
            exists key o, entries (items c) !! key = Some o /\ indexedUnder indexFunc o value).
    rewrite elem_of_keys. split.
    + intros [set Hset].
      assert (Hnonempty : set <> ∅).
      { unfold indexAt in Hset.
        destruct (entries (indices c) !! indexName) as [index|] eqn:Hindex.
        - now apply (Hne indexName index Hindex value).
        - now rewrite lookup_empty in Hset. }
      apply set_choose_L in Hnonempty as [key Hkey]. exists key.
      apply (Hc indexName indexFunc Hname value key).
      rewrite <- members_indexAt. unfold members. now rewrite Hset.
    + intros (key & o & Ho & Hunder).
      assert (Hkey : key ∈ members (indexAt c indexName) value).
      { rewrite members_indexAt. apply (Hc indexName indexFunc Hname). eauto. }
      unfold members in Hkey.
      destruct (indexAt c indexName !! value) as [set|]; [eauto|].
      now apply not_elem_of_empty in Hkey.
Qed.

(** ** [AddIndexers] *)

(** The loop [for k, v := range newIndexers { c.indexers[k] = v }]. *)
Lemma range_assign (old : gomap IndexFunc) (new : Indexers) :
  map_fold (fun k v acc => do ixs <- acc; assign (error := error) k v ixs)
    (Return old) new =
  match old with
  | madeMap m => Return (madeMap (new ∪ m))
  | nilMap => match size new with
              | O => Return nilMap
              | S _ => Panic NilMapWrite
              end
  end.
Proof.
  apply (map_fold_weak_ind (fun (r : outcome (@panicValue error) (gomap IndexFunc))
                                (new : Indexers) =>
    r = match old with
        | madeMap m => Return (madeMap (new ∪ m))
        | nilMap => match size new with
                    | O => Return nilMap
                    | S _ => Panic NilMapWrite
                    end
        end)).
  - destruct old as [|m]; [now rewrite map_size_empty|].
    now rewrite (left_id_L ∅ (∪)).
  - intros k v m r Hfresh ->. destruct old as [|m0].
    + rewrite (map_size_insert_None _ _ _ Hfresh).
      destruct (size m); reflexivity.
    + simpl. now rewrite insert_union_l.
Qed.

Lemma HasAny_spec (oldKeys newKeys : gset string) :
  existsb (fun name => bool_decide (name ∈ oldKeys)) (sortedList newKeys) = true <->
  oldKeys ∩ newKeys <> ∅.
Proof.
  rewrite existsb_exists. split.
  - intros (name & Hin & Hold). apply list_elem_of_In in Hin.
    apply sortedList_spec in Hin. apply bool_decide_eq_true in Hold.
    intros Hempty. apply (not_elem_of_empty (C := gset string) name).
    rewrite <- Hempty. now apply elem_of_intersection.
  - intros Hnonempty. apply set_choose_L in Hnonempty as [name Hname].
    apply elem_of_intersection in Hname as [Hold Hnew]. exists name. split.
    + apply list_elem_of_In. now apply sortedList_spec.
    + now apply bool_decide_eq_true.
Qed.

Lemma AddIndexers_empty (newIndexers : gomap IndexFunc) (c : store) :
  entries (items c) = ∅ ->
  (dom (entries (indexers c)) : gset string) ∩ dom (entries newIndexers) = ∅ ->
  AddIndexers newIndexers c =
    do indexers' <- match indexers c with
                    | madeMap old => Return (madeMap (entries newIndexers ∪ old))
                    | nilMap => match size (entries newIndexers) with
                                | O => Return nilMap
                                | S _ => Panic NilMapWrite
                                end
                    end;
    Return ({| items := items c; indexers := indexers'; indices := indices c |}, None).
Proof.
  intros Hitems Hdisjoint. unfold AddIndexers.
  destruct (decide (0 < size (entries (items c)))%nat) as [Hsize|_].
  { rewrite Hitems, map_size_empty in Hsize. lia. }
  destruct (existsb _ _) eqn:Hany.
  - apply HasAny_spec in Hany. contradiction.
  - now rewrite range_assign.
Qed.

(** X7.  [AddIndexers] refuses to touch a store that holds items
    ("cannot add indexers to running index") and, on an empty store, a
    set of indexers one of whose names is taken ("indexer conflict"),
    leaving the store as it was.  Otherwise it writes the new index
    functions into the store's [Indexers] map: over a map that is not
    [nil] it adds them to the old ones, changes nothing else and returns
    [nil]; over a [nil] map (a store made by [NewThreadSafeStore(nil, ..)])
    the first write panics, and only an [AddIndexers] of no indexer at all
    returns, with the store as it was. *)
Theorem AddIndexers_spec (newIndexers : gomap IndexFunc) (c : store) :
  (entries (items c) <> ∅ ->
   AddIndexers newIndexers c = Return (c, Some ErrRunningIndex)) /\
  (entries (items c) = ∅ ->
   (dom (entries (indexers c)) : gset string) ∩ dom (entries newIndexers) <> ∅ ->
   AddIndexers newIndexers c =
     Return (c, Some (ErrIndexerConflict
                        (dom (entries (indexers c)) ∩ dom (entries newIndexers))))) /\
  (entries (items c) = ∅ ->
   (dom (entries (indexers c)) : gset string) ∩ dom (entries newIndexers) = ∅ ->
   forall old, indexers c = madeMap old ->
   AddIndexers newIndexers c =
     Return ({| items := items c; indexers := madeMap (entries newIndexers ∪ old);
                indices := indices c |}, None)) /\
  (entries (items c) = ∅ -> indexers c = nilMap -> entries newIndexers <> ∅ ->
   AddIndexers newIndexers c = Panic NilMapWrite) /\
  (entries (items c) = ∅ -> indexers c = nilMap -> entries newIndexers = ∅ ->
   AddIndexers newIndexers c = Return (c, None)).
Proof.
  split; [|split; [|split; [|split]]].
  - intros Hitems. unfold AddIndexers. apply map_size_non_empty_iff in Hitems.
    destruct (decide (0 < size (entries (items c)))%nat) as [_|Hsize]; [reflexivity|lia].
  - intros Hitems Hconflict. unfold AddIndexers.
    destruct (decide (0 < size (entries (items c)))%nat) as [Hsize|_].
    { rewrite Hitems, map_size_empty in Hsize. lia. }
    apply HasAny_spec in Hconflict. now rewrite Hconflict.
  - intros Hitems Hdisjoint old Hold.
    rewrite (AddIndexers_empty newIndexers c Hitems Hdisjoint), Hold. reflexivity.
  - intros Hitems Hnil Hnew. rewrite (AddIndexers_empty newIndexers c Hitems).
    + rewrite Hnil. apply map_size_non_empty_iff in Hnew.
      destruct (size (entries newIndexers)); [lia|reflexivity].
    + rewrite Hnil. simpl. rewrite dom_empty_L. set_solver.
  - intros Hitems Hnil Hnew. rewrite (AddIndexers_empty newIndexers c Hitems).
    + rewrite Hnil, Hnew, map_size_empty. simpl. rewrite <- Hnil. now destruct c.
    + rewrite Hnil. simpl. rewrite dom_empty_L. set_solver.
Qed.


(** ** Indices are kept for registered names only *)








End StoreReadFacts.

Local Open Scope string_scope.

Lemma indexedStore_invariant :
  invariant (entries Fixtures.valueIndexers) Fixtures.indexedStore.
Proof.
  apply (run_invariant (entries Fixtures.valueIndexers) Fixtures.indexedOps
           (NewThreadSafeStore Fixtures.valueIndexers (madeMap ∅)) Fixtures.indexedStore
           (invariant_New Fixtures.valueIndexers (madeMap ∅) eq_refl)); [|reflexivity].
  intros x o Hx Ho Hnil. exfalso.
  assert (Hnonnil : Forall (fun x => Forall (fun o => o <> None) (stored x))
                      Fixtures.indexedOps).
  { apply (bool_decide_unpack _). vm_compute. exact I. }
  rewrite Forall_forall in Hnonnil. specialize (Hnonnil x Hx).
  rewrite Forall_forall in Hnonnil. now apply (Hnonnil o Ho).
Qed.

Lemma indexedStore_consistent : consistent Fixtures.indexedStore.
Proof. apply (invariant_consistent _ _ indexedStore_invariant). Qed.

Lemma Get_after_write_witness :
  exists c' : @threadSafeMap string string,
    Add "d" (Some "y") Fixtures.indexedStore = Return c' /\
    Get "d" c' = (Some "y", true) /\
    Get "a" c' = Get "a" Fixtures.indexedStore.
Proof.
  eexists. split; [reflexivity|].
  destruct (Get_after_write "d" (Some "y") Fixtures.indexedStore) as [Hwrite _].
  destruct (Hwrite _ (or_introl eq_refl)) as [Hget Hother].
  split; [exact Hget|]. apply Hother. discriminate.
Defined.

Lemma IndexKeys_spec_witness :
  exists keys,
    IndexKeys "byValue" "x" Fixtures.indexedStore = Ok keys /\
    Sorted byteOrder keys /\ NoDup keys /\
    forall key, key ∈ keys <->
      exists o, entries (items Fixtures.indexedStore) !! key = Some o /\
                indexedUnder Fixtures.byValue o "x".
Proof.
  exact (IndexKeys_spec Fixtures.indexedStore "byValue" "x" indexedStore_consistent).
Defined.

Lemma ByIndex_spec_witness :
  exists keys list,
    ByIndex "byValue" "x" Fixtures.indexedStore = Ok list /\
    NoDup keys /\
    Forall2 (fun key item => entries (items Fixtures.indexedStore) !! key = Some item)
      keys list /\
    forall key, key ∈ keys <->
      exists o, entries (items Fixtures.indexedStore) !! key = Some o /\
                indexedUnder Fixtures.byValue o "x".
Proof.
  exact (ByIndex_spec Fixtures.indexedStore "byValue" "x" indexedStore_consistent).
Defined.

Lemma Index_spec_witness :
  exists keys list,
    Index "byValue" (Some "x") Fixtures.indexedStore = Ok list /\
    NoDup keys /\
    Forall2 (fun key item => entries (items Fixtures.indexedStore) !! key = Some item)
      keys list /\
    forall key, key ∈ keys <->
      exists item value, entries (items Fixtures.indexedStore) !! key = Some item /\
        value ∈ ["x"] /\ indexedUnder Fixtures.byValue item value.
Proof.
  exact (Index_spec Fixtures.indexedStore "byValue" (Some "x") indexedStore_consistent).
Defined.

Lemma ListIndexFuncValues_spec_witness :
  NoDup (ListIndexFuncValues "byValue" Fixtures.indexedStore) /\
  forall value, value ∈ ListIndexFuncValues "byValue" Fixtures.indexedStore <->
    exists key o, entries (items Fixtures.indexedStore) !! key = Some o /\
                  indexedUnder Fixtures.byValue o value.
Proof.
  apply (ListIndexFuncValues_spec Fixtures.indexedStore "byValue" Fixtures.byValue).
  - exact indexedStore_consistent.
  - apply indexedStore_invariant.
  - reflexivity.
Defined.

Lemma AddIndexers_spec_witness :
  AddIndexers Fixtures.valueIndexers Fixtures.indexedStore =
    Return (Fixtures.indexedStore, Some ErrRunningIndex) /\
  AddIndexers Fixtures.valueIndexers
    (NewThreadSafeStore (error := string) (madeMap ∅) (madeMap ∅)) =
    Return (NewThreadSafeStore Fixtures.valueIndexers (madeMap ∅), None) /\
  AddIndexers Fixtures.valueIndexers
    (NewThreadSafeStore (error := string) nilMap (madeMap ∅)) = Panic NilMapWrite.
Proof.
  split; [|split].
  - apply (AddIndexers_spec Fixtures.valueIndexers Fixtures.indexedStore).
    intros Hempty. apply (f_equal (fun m => m !! "a")) in Hempty.
    vm_compute in Hempty. discriminate.
  - refine (proj1 (proj2 (proj2 (AddIndexers_spec Fixtures.valueIndexers
                                   (NewThreadSafeStore (madeMap ∅) (madeMap ∅)))))
              eq_refl _ ∅ eq_refl).
    vm_compute. reflexivity.
  - refine (proj1 (proj2 (proj2 (proj2 (AddIndexers_spec Fixtures.valueIndexers
                                          (NewThreadSafeStore nilMap (madeMap ∅))))))
              eq_refl eq_refl _).
    intros Hempty. apply (f_equal (fun m => m !! "byValue")) in Hempty.
    vm_compute in Hempty. discriminate.
Defined.


End StoreReadFacts.

(* ================================================================== *)
(** * Reading the cache                                                 *)
(* ================================================================== *)

Module CacheReadFacts.
Import Cache.

Section CacheReadFacts.

Context {object error : Type}.

Local Abbreviation obj := (option object).
Local Abbreviation KeyFunc := (obj -> result error string).

Lemma indexable_empty (o : obj) :
  ThreadSafeStore.indexable (error := error) ∅ o.
Proof. intros name indexFunc Hname. now rewrite lookup_empty in Hname. Qed.

(** X9.  What the cache stores under an object's key is what [Get] of
    that object returns: after a successful [Add(obj)] or [Update(obj)],
    [Get(obj)] is [(obj, true, nil)]; after a successful [Delete(obj)] it
    is [(nil, false, nil)]; and when the key function fails on [obj],
    [Get] returns [(nil, false, KeyError{obj, err})]. *)
Theorem cache_round_trip (c : @cache object error) (o : obj) :
  (forall c', Add o c = Return (c', None) \/ Update o c = Return (c', None) ->
     Get o c' = (o, true, None)) /\
  (forall c', Delete o c = Return (c', None) -> Get o c' = (None, false, None)) /\
  (forall err, keyFunc c o = Fail err ->
     Get o c = (None, false, Some {| Obj := o; Err := err |})).
Proof.
  split; [|split].
  - intros c' Hwrite.
    assert (Hstored : exists key s, keyFunc c o = Ok key /\ c' = withStorage c s /\
                        ThreadSafeStore.Add key o (cacheStorage c) = Return s).
    { destruct Hwrite as [Hadd|Hupdate].
      - unfold Add in Hadd. destruct (keyFunc c o) as [key|err]; [|discriminate].
        destruct (ThreadSafeStore.Add key o (cacheStorage c)) as [s|p] eqn:Hs;
          simpl in Hadd; [|discriminate].
        injection Hadd as <-. eauto.
      - unfold Update in Hupdate. destruct (keyFunc c o) as [key|err]; [|discriminate].
        destruct (ThreadSafeStore.Update key o (cacheStorage c)) as [s|p] eqn:Hs;
          simpl in Hupdate; [|discriminate].
        injection Hupdate as <-. eauto. }
    destruct Hstored as (key & s & Hkey & -> & Hs).
    unfold Get, GetByKey. simpl. rewrite Hkey.
    apply StoreFacts.Add_items in Hs as (Hitems & _).
    unfold ThreadSafeStore.Get. rewrite Hitems. simpl. now rewrite lookup_insert_eq.
  - intros c'. unfold Delete. destruct (keyFunc c o) as [key|err] eqn:Hkey; [|discriminate].
    destruct (ThreadSafeStore.Delete key (cacheStorage c)) as [s|p] eqn:Hs;
      simpl; [|discriminate].
    intros [= <-]. unfold Get, GetByKey. simpl. rewrite Hkey.
    apply StoreFacts.Delete_items in Hs as (Hitems & _).
    unfold ThreadSafeStore.Get. rewrite Hitems, lookup_delete_eq. reflexivity.
  - intros err Hkey. unfold Get. now rewrite Hkey.
Qed.

(** ** [Replace] *)

Lemma keyAll_other (f : KeyFunc) key (list : list obj) : forall items0 items,
  keyAll f list items0 = Ok items ->
  (forall item, item ∈ list -> f item <> Ok key) ->
  items !! key = items0 !! key.
Proof.
  induction list as [|x rest IH]; intros items0 items; simpl.
  - now intros [= <-].
  - destruct (f x) as [k|err] eqn:Hx; [|discriminate]. intros Hrest Hother.
    rewrite (IH _ _ Hrest).
    + apply lookup_insert_ne. intros ->. apply (Hother x); [left|exact Hx].
    + intros item Hitem. apply Hother. now right.
Qed.

Lemma keyAll_last (f : KeyFunc) key item after (before : list obj) : forall items0 items,
  keyAll f (before ++ item :: after) items0 = Ok items ->
  f item = Ok key ->
  (forall later, later ∈ after -> f later <> Ok key) ->
  items !! key = Some item.
Proof.
  induction before as [|x before IH]; intros items0 items; simpl.
  - intros Hrest Hitem Hafter. rewrite Hitem in Hrest.
    rewrite (keyAll_other f key after _ _ Hrest Hafter). apply lookup_insert_eq.
  - destruct (f x) as [k|err]; [|discriminate]. apply IH.
Qed.

(** X10.  A successful [Replace(list)] leaves exactly the listed objects
    in the cache, the last one winning when several have the same key:
    [GetByKey(key)] returns the last object of the list whose key is
    [key], and [(nil, false)] when the list has none, whatever the cache
    held before. *)
Theorem Replace_last_wins (c c' : @cache object error) (list : list obj) key :
  Replace list c = Return (c', None) ->
  (forall before item after,
     list = before ++ item :: after -> keyFunc c item = Ok key ->
     (forall later, later ∈ after -> keyFunc c later <> Ok key) ->
     GetByKey key c' = (item, true)) /\
  ((forall item, item ∈ list -> keyFunc c item <> Ok key) ->
   GetByKey key c' = (None, false)).
Proof.
  unfold Replace. destruct (keyAll (keyFunc c) list ∅) as [items|keyError] eqn:Hkeys;
    [|discriminate].
  destruct (ThreadSafeStore.Replace (madeMap items) (cacheStorage c)) as [s|p] eqn:Hs;
    simpl; [|discriminate].
  intros [= <-].
  apply (StoreFacts.Replace_spec _ (madeMap items) (cacheStorage c) eq_refl) in Hs
    as (Hitems & _).
  unfold GetByKey, ThreadSafeStore.Get. simpl. rewrite Hitems. simpl. split.
  - intros before item after -> Hitem Hafter.
    now rewrite (keyAll_last (keyFunc c) key item after before ∅ items Hkeys Hitem Hafter).
  - intros Hnone.
    rewrite (keyAll_other (keyFunc c) key list ∅ items Hkeys Hnone).
    now rewrite lookup_empty.
Qed.

Lemma unindexed_Add_total (c : @cache object error) key (o : obj) :
  entries (ThreadSafeStore.indexers (cacheStorage c)) = ∅ ->
  isMade (ThreadSafeStore.items (cacheStorage c)) ->
  exists s, ThreadSafeStore.Add key o (cacheStorage c) = Return s /\
            entries (ThreadSafeStore.indexers s) = ∅ /\
            isMade (ThreadSafeStore.items s).
Proof.
  intros Hixs Hitems.
  assert (Htotal : exists s, ThreadSafeStore.Add key o (cacheStorage c) = Return s).
  { unfold ThreadSafeStore.Add.
    destruct (ThreadSafeStore.items (cacheStorage c)) as [|m]; [destruct Hitems|].
    simpl. apply (StoreFacts.updateIndices_total ∅);
      [exact Hixs|intros _; apply indexable_empty|apply indexable_empty|now right]. }
  destruct Htotal as [s Hs]. exists s. split; [exact Hs|].
  apply StoreFacts.Add_items in Hs as (-> & _ & ->). split; [exact Hixs|exact I].
Qed.

Lemma unindexed_Delete_total (c : @cache object error) key :
  entries (ThreadSafeStore.indexers (cacheStorage c)) = ∅ ->
  isMade (ThreadSafeStore.items (cacheStorage c)) ->
  exists s, ThreadSafeStore.Delete key (cacheStorage c) = Return s /\
            entries (ThreadSafeStore.indexers s) = ∅ /\
            isMade (ThreadSafeStore.items s).
Proof.
  intros Hixs Hitems.
  destruct (ThreadSafeStore.Delete key (cacheStorage c)) as [s|p] eqn:Hs.
  - exists s. split; [reflexivity|].
    apply StoreFacts.Delete_items in Hs as (_ & -> & Hmade & _). auto.
  - exfalso. unfold ThreadSafeStore.Delete in Hs.
    destruct (entries (ThreadSafeStore.items (cacheStorage c)) !! key) as [old|];
      [|discriminate].
    destruct (StoreFacts.deleteFromIndices_total old key (cacheStorage c)) as [s Hdel].
    { rewrite Hixs. apply indexable_empty. }
    rewrite Hdel in Hs. discriminate.
Qed.

(** X11.  A cache without indexers, as [NewStore] builds it (its items
    map is made, not [nil]), never panics: [Add], [Update], [Delete] and
    [Replace] return for every object and every list, and leave a cache
    without indexers whose items map is made. *)
Theorem no_indexers_no_panic (c : @cache object error) (o : obj) (list : list obj) :
  entries (ThreadSafeStore.indexers (cacheStorage c)) = ∅ ->
  isMade (ThreadSafeStore.items (cacheStorage c)) ->
  (exists r, Add o c = Return r /\
     entries (ThreadSafeStore.indexers (cacheStorage r.1)) = ∅ /\
     isMade (ThreadSafeStore.items (cacheStorage r.1))) /\
  (exists r, Update o c = Return r /\
     entries (ThreadSafeStore.indexers (cacheStorage r.1)) = ∅ /\
     isMade (ThreadSafeStore.items (cacheStorage r.1))) /\
  (exists r, Delete o c = Return r /\
     entries (ThreadSafeStore.indexers (cacheStorage r.1)) = ∅ /\
     isMade (ThreadSafeStore.items (cacheStorage r.1))) /\
  (exists r, Replace list c = Return r /\
     entries (ThreadSafeStore.indexers (cacheStorage r.1)) = ∅ /\
     isMade (ThreadSafeStore.items (cacheStorage r.1))).
Proof.
  intros Hixs Hitems. split; [|split; [|split]].
  - unfold Add. destruct (keyFunc c o) as [key|err]; [|eauto].
    destruct (unindexed_Add_total c key o Hixs Hitems) as (s & -> & Hs). simpl. eauto.
  - unfold Update. destruct (keyFunc c o) as [key|err]; [|eauto].
    destruct (unindexed_Add_total c key o Hixs Hitems) as (s & Hadd & Hs).
    unfold ThreadSafeStore.Update.
    unfold ThreadSafeStore.Add in Hadd. rewrite Hadd. simpl. eauto.
  - unfold Delete. destruct (keyFunc c o) as [key|err]; [|eauto].
    destruct (unindexed_Delete_total c key Hixs Hitems) as (s & -> & Hs). simpl. eauto.
  - unfold Replace. destruct (keyAll (keyFunc c) list ∅) as [items|keyError]; [|eauto].
    destruct (StoreFacts.Replace_spec ∅ (madeMap items) (cacheStorage c) Hixs)
      as [Htotal Hspec].
    destruct Htotal as [s Hs]; [intros k x _; apply indexable_empty|].
    rewrite Hs. simpl. eexists. split; [reflexivity|]. simpl.
    destruct (Hspec s Hs) as (-> & -> & _). split; [exact Hixs|exact I].
Qed.

End CacheReadFacts.

Local Open Scope string_scope.

Lemma cache_round_trip_witness :
  exists c',
    Add (Some "a") Fixtures.emptyStore = Return (c', None) /\
    Get (Some "a") c' = (Some "a", true, None) /\
    Get None Fixtures.emptyStore =
      (None, false, Some {| Obj := None; Err := "object has no meta" |}).
Proof.
  eexists. split; [reflexivity|].
  destruct (cache_round_trip Fixtures.emptyStore (Some "a")) as (Hwrite & _ & _).
  split; [exact (Hwrite _ (or_introl eq_refl))|].
  destruct (cache_round_trip Fixtures.emptyStore None) as (_ & _ & Hfail).
  exact (Hfail _ eq_refl).
Defined.

Lemma Replace_last_wins_witness :
  exists c',
    Replace [Some "a"; Some "b"; Some "a"] Fixtures.emptyStore = Return (c', None) /\
    GetByKey "a" c' = (Some "a", true) /\
    GetByKey "z" c' = (None, false).
Proof.
  eexists. split; [reflexivity|]. split.
  - refine (proj1 (Replace_last_wins Fixtures.emptyStore _
                     [Some "a"; Some "b"; Some "a"] "a" eq_refl)
              [Some "a"; Some "b"] (Some "a") [] eq_refl eq_refl _).
    intros later Hlater. inversion Hlater.
  - refine (proj2 (Replace_last_wins Fixtures.emptyStore _
                     [Some "a"; Some "b"; Some "a"] "z" eq_refl) _).
    intros item Hitem Hkey.
    repeat (apply elem_of_cons in Hitem as [->|Hitem]; [discriminate|]).
    inversion Hitem.
Defined.

Lemma no_indexers_no_panic_witness :
  exists r, Add (Some "a") Fixtures.emptyStore = Return r /\
            entries (ThreadSafeStore.indexers (cacheStorage r.1)) = ∅ /\
            isMade (ThreadSafeStore.items (cacheStorage r.1)).
Proof.
  exact (proj1 (no_indexers_no_panic Fixtures.emptyStore (Some "a") [] eq_refl I)).
Defined.

End CacheReadFacts.

(* ================================================================== *)
(** * The work queue: order, exclusion, shutdown                        *)
(* ================================================================== *)

Module QueueOrderFacts.
Import WorkQueue QueueFacts.

Section QueueOrderFacts.

Context {t : Type} `{Countable t}.

Local Abbreviation wq := (@workqueue t _ _).

(** ** No item is lost *)

Lemma covered_exec (q q' : wq) x :
  (forall y, y ∈ dirty q -> y ∈ queue q \/ y ∈ processing q) ->
  exec q x = Some q' ->
  forall y, y ∈ dirty q' -> y ∈ queue q' \/ y ∈ processing q'.
Proof.
  intros Hq. destruct x as [item| |item|]; simpl.
  - intros [= <-] y. unfold Add.
    destruct (shuttingDown q); [apply Hq|].
    destruct (decide (item ∈ dirty q)) as [|Hfresh]; [apply Hq|].
    destruct (decide (item ∈ processing q)) as [Hbusy|Hidle]; simpl.
    + intros Hy. apply elem_of_union in Hy as [Hy|Hy]; [|now apply Hq].
      apply elem_of_singleton in Hy. subst y. now right.
    + intros Hy. rewrite elem_of_app.
      apply elem_of_union in Hy as [Hy|Hy].
      * apply elem_of_singleton in Hy. subst y. left. right. now left.
      * destruct (Hq y Hy) as [Hin|Hin]; [left; now left|now right].
  - unfold Get. destruct (queue q) as [|head rest] eqn:Hqueue.
    + destruct (shuttingDown q); [|discriminate]. intros [= <-] y Hy.
      rewrite Hqueue. now apply Hq.
    + intros [= <-] y. simpl. intros Hy.
      apply elem_of_difference in Hy as [Hy Hne].
      destruct (Hq y Hy) as [Hin|Hin].
      * apply elem_of_cons in Hin as [->|Hin]; [|now left].
        exfalso. apply Hne. now apply elem_of_singleton.
      * right. now apply elem_of_union_r.
  - intros [= <-] y. unfold Done.
    destruct (decide (item ∈ dirty q)) as [Hdirty|Hclean]; simpl; intros Hy.
    + rewrite elem_of_app. destruct (decide (y = item)) as [->|Hne].
      * left. right. now left.
      * destruct (Hq y Hy) as [Hin|Hin]; [left; now left|].
        right. apply elem_of_difference. split; [exact Hin|].
        intros Heq. apply elem_of_singleton in Heq. contradiction.
    + destruct (Hq y Hy) as [Hin|Hin]; [now left|].
      right. apply elem_of_difference. split; [exact Hin|].
      intros Heq. apply elem_of_singleton in Heq. now subst y.
  - intros [= <-]. exact Hq.
Qed.

Lemma covered_run ops : forall (q q' : wq),
  (forall y, y ∈ dirty q -> y ∈ queue q \/ y ∈ processing q) ->
  run q ops = Some q' ->
  forall y, y ∈ dirty q' -> y ∈ queue q' \/ y ∈ processing q'.
Proof.
  induction ops as [|x ops IH]; intros q q' Hq; simpl.
  - now intros [= <-].
  - destruct (exec q x) as [q1|] eqn:Hexec; [|discriminate].
    apply IH. now apply (covered_exec q q1 x).
Qed.

(** X12.  The queue loses no work, whatever the callers do: after every
    sequence of [Add], [Get], [Done] and [ShutDown] on a fresh queue, an
    item that is marked dirty is waiting in the queue or is being
    processed (and [Done] will then queue it again). *)
Theorem no_lost_work (ops : list (@op t)) (q : wq) :
  run newQueue ops = Some q ->
  forall item, item ∈ dirty q -> item ∈ queue q \/ item ∈ processing q.
Proof.
  apply covered_run. intros y Hy. now apply not_elem_of_empty in Hy.
Qed.

(** ** One worker per item *)

Lemma disciplined_app (a b : list (@op t)) : forall (q q' : wq),
  disciplined q (a ++ b) = true -> run q a = Some q' ->
  disciplined q a = true /\ disciplined q' b = true.
Proof.
  induction a as [|x a IH]; intros q q'; simpl.
  - intros Hb [= <-]. now split.
  - intros Hab. apply andb_true_iff in Hab as [Hx Hrest].
    destruct (exec q x) as [q1|] eqn:Hexec; [|discriminate].
    intros Hrun. destruct (IH q1 q' Hrest Hrun) as [Ha Hb].
    split; [|exact Hb]. now rewrite Hx, Ha.
Qed.

Lemma processing_kept (q q' : wq) x item :
  x <> OpDone item -> exec q x = Some q' ->
  item ∈ processing q -> item ∈ processing q'.
Proof.
  intros Hx. destruct x as [added| |done|]; simpl.
  - intros [= <-]. unfold Add.
    destruct (shuttingDown q); [easy|].
    destruct (decide (added ∈ dirty q)); [easy|].
    destruct (decide (added ∈ processing q)); easy.
  - unfold Get. destruct (queue q) as [|head rest].
    + destruct (shuttingDown q); [|discriminate]. now intros [= <-].
    + intros [= <-]. simpl. apply elem_of_union_r.
  - intros [= <-] Hitem. unfold Done.
    assert (Hkept : item ∈ processing q ∖ {[done]}).
    { apply elem_of_difference. split; [exact Hitem|].
      intros Heq. apply elem_of_singleton in Heq. congruence. }
    destruct (decide (done ∈ dirty q)); exact Hkept.
  - now intros [= <-].
Qed.

Lemma processing_kept_run ops item : forall (q q' : wq),
  OpDone item ∉ ops -> run q ops = Some q' ->
  item ∈ processing q -> item ∈ processing q'.
Proof.
  induction ops as [|x ops IH]; intros q q' Hops; simpl.
  - now intros [= <-].
  - destruct (exec q x) as [q1|] eqn:Hexec; [|discriminate].
    intros Hrun Hitem. apply (IH q1 q'); [|exact Hrun|].
    + intros Hin. apply Hops. now right.
    + apply (processing_kept q q1 x item); [|exact Hexec|exact Hitem].
      intros ->. apply Hops. now left.
Qed.

(** X13.  An item is processed by one worker at a time.  For callers
    that keep to the protocol ([Done] only for an item being processed):
    an item that [Get] hands out was not being processed, and until
    [Done] is called for it, it stays in the processing set, is not in
    the queue however often it is added, and no [Get] returns it. *)
Theorem one_worker_per_item (ops ops2 : list (@op t)) (q q1 q2 : wq) item :
  disciplined newQueue (ops ++ (OpGet :: ops2)) = true ->
  run newQueue ops = Some q ->
  Get q = Some (Some item, false, q1) ->
  OpDone item ∉ ops2 ->
  run q1 ops2 = Some q2 ->
  (item ∉ processing q) /\ item ∈ processing q2 /\ (item ∉ queue q2) /\
  forall r, Get q2 = Some r -> r.1.1 <> Some item.
Proof.
  intros Hall Hrun Hget Hnotdone Hrun2.
  destruct (disciplined_app ops (OpGet :: ops2) newQueue q Hall Hrun) as [Hops Hrest].
  simpl in Hrest. rewrite Hget in Hrest.
  pose proof (wellFormed_run ops _ _ wellFormed_newQueue Hops Hrun) as Hq.
  pose proof (wellFormed_Get q _ _ q1 Hq Hget) as Hq1.
  pose proof (wellFormed_run ops2 _ _ Hq1 Hrest Hrun2) as Hq2.
  assert (Hhead : item ∈ queue q /\ item ∈ processing q1).
  { unfold Get in Hget. destruct (queue q) as [|head rest].
    - destruct (shuttingDown q); discriminate.
    - injection Hget as -> <-. simpl. split; [now left|].
      apply elem_of_union_l. now apply elem_of_singleton. }
  destruct Hhead as [Hqueued Hbusy1].
  pose proof (processing_kept_run ops2 item q1 q2 Hnotdone Hrun2 Hbusy1) as Hbusy2.
  assert (Hout : item ∉ queue q2).
  { intros Hin. destruct Hq2 as (_ & _ & Hproc). now apply (Hproc item). }
  split; [|split; [exact Hbusy2|split; [exact Hout|]]].
  - destruct Hq as (_ & _ & Hproc). now apply Hproc.
  - intros r. unfold Get. destruct (queue q2) as [|head rest].
    + destruct (shuttingDown q2); [|discriminate]. now intros [= <-].
    + intros [= <-]. simpl. intros [= ->]. apply Hout. now left.
Qed.

(** ** First in, first out *)

Lemma firsts_spec (xs : list t) : forall seen,
  NoDup (firsts seen xs) /\
  forall x, x ∈ firsts seen xs <-> x ∈ xs /\ x ∉ seen.
Proof.
  induction xs as [|a xs IH]; intros seen; simpl.
  - split; [constructor|]. intros x. split; [intros Hx; inversion Hx|].
    intros [Hx _]. inversion Hx.
  - destruct (decide (a ∈ seen)) as [Hseen|Hnew].
    + destruct (IH seen) as [Hnodup Hin]. split; [exact Hnodup|].
      intros x. rewrite Hin, elem_of_cons. split; [tauto|].
      intros [[->|Hx] Hout]; [contradiction|tauto].
    + destruct (IH ({[a]} ∪ seen)) as [Hnodup Hin]. split.
      * apply NoDup_cons. split; [|exact Hnodup].
        rewrite Hin. intros [_ Hout]. apply Hout.
        apply elem_of_union_l. now apply elem_of_singleton.
      * intros x. rewrite !elem_of_cons, Hin, elem_of_union, elem_of_singleton.
        destruct (decide (x = a)) as [->|Hne]; [tauto|tauto].
Qed.

Lemma Adds_queue (xs : list t) : forall (q : wq),
  shuttingDown q = false -> processing q = ∅ ->
  exists q', run q (OpAdd <$> xs) = Some q' /\
    queue q' = queue q ++ firsts (dirty q) xs /\
    shuttingDown q' = false /\ processing q' = ∅.
Proof.
  induction xs as [|x xs IH]; intros q Hup Hidle; simpl.
  - exists q. now rewrite app_nil_r.
  - assert (Hadd : shuttingDown (Add x q) = false /\ processing (Add x q) = ∅ /\
                   queue (Add x q) ++ firsts (dirty (Add x q)) xs =
                   queue q ++ (if decide (x ∈ dirty q) then firsts (dirty q) xs
                               else x :: firsts ({[x]} ∪ dirty q) xs)).
    { unfold Add. rewrite Hup.
      destruct (decide (x ∈ dirty q)) as [Hdirty|Hfresh]; [auto|].
      destruct (decide (x ∈ processing q)) as [Hbusy|_].
      - rewrite Hidle in Hbusy. now apply not_elem_of_empty in Hbusy.
      - simpl. rewrite <- app_assoc. auto. }
    destruct Hadd as (Hup' & Hidle' & Hqueue).
    destruct (IH (Add x q) Hup' Hidle') as (q' & Hrun & Hq' & Hrest).
    exists q'. split; [exact Hrun|]. split; [|exact Hrest].
    now rewrite Hq', Hqueue.
Qed.

Lemma gets_all (l : list t) : forall (q : wq),
  queue q = l ->
  exists q', gets (length l) q = Some (l, q') /\ queue q' = [] /\
             shuttingDown q' = shuttingDown q.
Proof.
  induction l as [|item l IH]; intros q Hqueue; simpl.
  - exists q. auto.
  - unfold Get. rewrite Hqueue.
    destruct (IH {| queue := l; dirty := dirty q ∖ {[item]};
                    processing := {[item]} ∪ processing q;
                    shuttingDown := shuttingDown q |} eq_refl)
      as (q' & -> & Hempty & Hdown).
    exists q'. auto.
Qed.

(** X14.  The queue is first in, first out, and an item added several
    times before it is handed out is handed out once: after [Add] of the
    items [xs] to a fresh queue, the queue holds the distinct items of
    [xs] in the order of their first [Add]; that many calls of [Get]
    return them in this order, and the next [Get] waits. *)
Theorem Get_in_order_of_first_Add (xs : list t) :
  NoDup (firsts ∅ xs) /\ (forall x, x ∈ firsts ∅ xs <-> x ∈ xs) /\
  exists q q' : wq,
    run newQueue (OpAdd <$> xs) = Some q /\
    queue q = firsts ∅ xs /\
    gets (length (firsts ∅ xs)) q = Some (firsts ∅ xs, q') /\
    Get q' = None.
Proof.
  destruct (firsts_spec xs ∅) as [Hnodup Hin].
  split; [exact Hnodup|]. split.
  { intros x. rewrite Hin. split; [tauto|]. intros Hx. split; [exact Hx|].
    apply not_elem_of_empty. }
  destruct (Adds_queue xs newQueue eq_refl eq_refl) as (q & Hrun & Hqueue & Hup & _).
  simpl in Hqueue.
  destruct (gets_all (firsts ∅ xs) q Hqueue) as (q' & Hgets & Hempty & Hdown).
  exists q, q'. split; [exact Hrun|]. split; [exact Hqueue|]. split; [exact Hgets|].
  unfold Get. now rewrite Hempty, Hdown, Hup.
Qed.


End QueueOrderFacts.

Local Open Scope string_scope.

Lemma no_lost_work_witness :
  exists q : @workqueue string _ _,
    run newQueue [OpAdd "x"; OpGet; OpAdd "x"; OpAdd "y"] = Some q /\
    ("x" ∈ dirty q -> "x" ∈ queue q \/ "x" ∈ processing q).
Proof.
  eexists. split; [reflexivity|].
  exact (no_lost_work [OpAdd "x"; OpGet; OpAdd "x"; OpAdd "y"] _ eq_refl "x").
Defined.

Lemma one_worker_per_item_witness :
  exists q2 : @workqueue string _ _,
    run newQueue [OpAdd "x"; OpGet; OpAdd "x"; OpAdd "y"] = Some q2 /\
    "x" ∈ processing q2 /\ "x" ∉ queue q2.
Proof.
  pose (q1 := match Get (Add "x" newQueue) with
              | Some (_, _, q1) => q1
              | None => newQueue
              end).
  pose (q2 := match run q1 [OpAdd "x"; OpAdd "y"] with
              | Some q2 => q2
              | None => newQueue
              end).
  exists q2. split; [vm_compute; reflexivity|].
  assert (Hnotdone : OpDone "x" ∉ [OpAdd "x"; OpAdd "y"]).
  { intros Hin.
    repeat (apply elem_of_cons in Hin as [Hin|Hin]; [discriminate|]).
    inversion Hin. }
  destruct (one_worker_per_item [OpAdd "x"] [OpAdd "x"; OpAdd "y"]
              (Add "x" newQueue) q1 q2 "x")
    as (_ & Hbusy & Hout & _);
    [vm_compute; reflexivity|vm_compute; reflexivity|vm_compute; reflexivity
    |exact Hnotdone|vm_compute; reflexivity|].
  split; assumption.
Defined.

End QueueOrderFacts.

(* ================================================================== *)
(** * The rate limiters: shape of the back-off, composition             *)
(* ================================================================== *)

Module BackoffFacts.
Import Float64 Float64Facts ItemExponentialFailureRateLimiter ExponentialFacts.

Lemma lookup_map_seq {A : Type} (f : nat -> A) n i d :
  map f (seq 0 n) !! i = Some d -> d = f i /\ (i < n)%nat.
Proof.
  change (map f (seq 0 n)) with (f <$> seq 0 n). rewrite list_lookup_fmap.
  destruct (seq 0 n !! i) as [j|] eqn:Hj; simpl; [|discriminate].
  apply lookup_seq in Hj as [-> Hi]. intros [= <-]. auto.
Qed.

Section BackoffFacts.

Context {item : Type} `{Countable item}.
Variable indefinite : float64 -> Z.

Local Abbreviation When := (ItemExponentialFailureRateLimiter.When indefinite).
Local Abbreviation whens := (ItemExponentialFailureRateLimiter.whens indefinite).
Local Abbreviation run := (ItemExponentialFailureRateLimiter.run indefinite).

Lemma whens_length (x : item) n : forall r, length (whens n x r).1 = n.
Proof.
  induction n as [|n IH]; intros r; simpl; [reflexivity|].
  destruct (When x r) as [d r1]. specialize (IH r1).
  destruct (ItemExponentialFailureRateLimiter.whens indefinite n x r1) as [ds r2].
  simpl in *. now rewrite IH.
Qed.

(** X16.  Without [Forget], the delays of an item double until they
    reach [maxDelay]: for a base delay of 1 ns up to 2^53 ns whose
    multiples by powers of two avoid 2^63 ns, the first delay after
    [Forget(x)] is [min(baseDelay, maxDelay)], every later one is
    [min(2 * previous, maxDelay)], and so the delays never decrease and
    never exceed [maxDelay]. *)
Theorem backoff_doubles_until_capped (x : item) (n : nat) (r : limiter) :
  0 < baseDelay r < 2 ^ 53 -> 0 <= maxDelay r <= MaxInt64 ->
  Z.of_nat n < 2 ^ 53 ->
  (forall i, (i < n)%nat -> baseDelay r * 2 ^ Z.of_nat i <> 2 ^ 63) ->
  length (whens n x (Forget x r)).1 = n /\
  (forall d, (whens n x (Forget x r)).1 !! 0%nat = Some d ->
     d = Z.min (baseDelay r) (maxDelay r)) /\
  (forall i d d',
     (whens n x (Forget x r)).1 !! i = Some d ->
     (whens n x (Forget x r)).1 !! S i = Some d' ->
     d' = Z.min (2 * d) (maxDelay r) /\ d <= d' <= maxDelay r).
Proof.
  intros Hbase Hmax Hn Hne.
  destruct (whens_in_range indefinite x n (Forget x r) 0) as [Hds _]; simpl; try lia.
  { rewrite failuresAt_Forget. now destruct (decide (x = x)). }
  { intros i Hi. rewrite Z.add_0_l. now apply Hne. }
  simpl in Hds. split; [apply whens_length|]. rewrite Hds. split.
  - intros d Hd. apply lookup_map_seq in Hd as [-> _].
    now rewrite Z.add_0_l, Z.pow_0_r, Z.mul_1_r.
  - intros i d d' Hd Hd'.
    apply lookup_map_seq in Hd as [-> _]. apply lookup_map_seq in Hd' as [-> _].
    rewrite !Z.add_0_l.
    replace (Z.of_nat (S i)) with (Z.of_nat i + 1) by lia.
    rewrite Z.pow_add_r by lia. rewrite Z.pow_1_r.
    assert (Hpow : 0 < 2 ^ Z.of_nat i) by (apply Z.pow_pos_nonneg; lia).
    assert (Hprod : 0 < baseDelay r * 2 ^ Z.of_nat i) by (apply Z.mul_pos_pos; lia).
    replace (baseDelay r * (2 ^ Z.of_nat i * 2))
      with (2 * (baseDelay r * 2 ^ Z.of_nat i)) by ring.
    lia.
Qed.

(** X17.  [When] never returns more than [maxDelay]: for every base
    delay, every failure count and every platform, also where the
    conversion of the computed back-off to a duration is out of range. *)
Theorem When_never_exceeds_maxDelay (x : item) (r : limiter) :
  (When x r).1 <= maxDelay r.
Proof.
  unfold ItemExponentialFailureRateLimiter.When.
  destruct (gt _ _); simpl; [lia|].
  match goal with |- context [maxDelay r <? ?c] => destruct (Z.ltb_spec (maxDelay r) c) end;
    simpl; lia.
Qed.

(** ** Items do not interfere *)

Lemma run_parameters (calls : list (@call item)) :
  forall r : @limiter item _ _,
  baseDelay (run r calls) = baseDelay r /\ maxDelay (run r calls) = maxDelay r.
Proof.
  unfold ItemExponentialFailureRateLimiter.run.
  induction calls as [|c calls IH]; intros r; simpl; [auto|].
  destruct (IH (step indefinite r c)) as [-> ->].
  destruct c as [y|y|y]; simpl; [|auto|auto].
  rewrite When_state. auto.
Qed.

Lemma failuresAt_other (x : item) (calls : list call) : forall r : limiter,
  (forall c, c ∈ calls -> c <> CallWhen x /\ c <> CallForget x) ->
  failuresAt (run r calls) x = failuresAt r x.
Proof.
  unfold ItemExponentialFailureRateLimiter.run.
  induction calls as [|c calls IH]; intros r Hother; simpl; [reflexivity|].
  rewrite IH by (intros c' Hc'; apply Hother; now right).
  destruct (Hother c ltac:(left)) as [Hwhen Hforget].
  destruct c as [y|y|y]; simpl.
  - rewrite failuresAt_When. destruct (decide (x = y)) as [->|]; [congruence|reflexivity].
  - rewrite failuresAt_Forget. destruct (decide (x = y)) as [->|]; [congruence|reflexivity].
  - reflexivity.
Qed.

(** X18.  The limiter keeps the items apart: calls of [When], [Forget]
    and [NumRequeues] for other items (and [NumRequeues] for the item
    itself) change neither the delay that the next [When(x)] returns nor
    the count that [NumRequeues(x)] returns. *)
Theorem items_do_not_interfere (x : item) (calls : list call) (r : limiter) :
  (forall c, c ∈ calls -> c <> CallWhen x /\ c <> CallForget x) ->
  (When x (run r calls)).1 = (When x r).1 /\
  (NumRequeues x (run r calls)).1 = (NumRequeues x r).1.
Proof.
  intros Hother. pose proof (failuresAt_other x calls r Hother) as Hsame.
  destruct (run_parameters calls r) as [Hbase Hmax]. split.
  - now apply When_value_eq.
  - exact Hsame.
Qed.

End BackoffFacts.

Local Open Scope string_scope.

Lemma backoff_doubles_until_capped_witness :
  (whens Float64.amd64 5 "x" (Forget "x" Fixtures.exponential_10_40)).1 !! 1%nat
    = Some (20 * Millisecond) /\
  (whens Float64.amd64 5 "x" (Forget "x" Fixtures.exponential_10_40)).1 !! 2%nat
    = Some (40 * Millisecond) /\
  20 * Millisecond <= 40 * Millisecond <= maxDelay Fixtures.exponential_10_40.
Proof.
  split; [vm_compute; reflexivity|]. split; [vm_compute; reflexivity|].
  refine (proj2 (proj2 (proj2 (backoff_doubles_until_capped Float64.amd64 "x" 5
                                 Fixtures.exponential_10_40 _ _ _ _))
                   1%nat (20 * Millisecond) (40 * Millisecond) _ _)).
  - vm_compute. split; reflexivity.
  - vm_compute. split; discriminate.
  - vm_compute. reflexivity.
  - intros i Hi. change (baseDelay Fixtures.exponential_10_40) with (10 * Millisecond).
    unfold Millisecond. intros Heq.
    assert (Hsmall : 2 ^ Z.of_nat i <= 2 ^ 5) by (apply Z.pow_le_mono_r; lia).
    lia.
  - vm_compute. reflexivity.
  - vm_compute. reflexivity.
Defined.

Lemma items_do_not_interfere_witness :
  (When Float64.amd64 "x"
     (run Float64.amd64 Fixtures.exponential_10_40
        [CallWhen "y"; CallWhen "y"; CallForget "z"; CallNumRequeues "x"])).1
  = (When Float64.amd64 "x" Fixtures.exponential_10_40).1.
Proof.
  refine (proj1 (items_do_not_interfere Float64.amd64 "x"
                   [CallWhen "y"; CallWhen "y"; CallForget "z"; CallNumRequeues "x"]
                   Fixtures.exponential_10_40 _)).
  intros c Hc.
  repeat (apply elem_of_cons in Hc as [->|Hc]; [split; discriminate|]).
  inversion Hc.
Defined.

End BackoffFacts.

Module FastSlowFacts.
Import ItemFastSlowRateLimiter.

Section FastSlowFacts.

Context {item : Type} `{Countable item}.

Lemma fast_slow_When (x : item) (r : limiter) :
  (When x r).1 =
    (if wrap64 (failuresAt r x + 1) <=? maxFastAttempts r then fastDelay r
     else slowDelay r) /\
  failuresAt (When x r).2 x = wrap64 (failuresAt r x + 1) /\
  maxFastAttempts (When x r).2 = maxFastAttempts r /\
  fastDelay (When x r).2 = fastDelay r /\ slowDelay (When x r).2 = slowDelay r.
Proof.
  set (n := wrap64 (failuresAt r x + 1)).
  set (r' := {| failures := <[x := n]> (failures r);
                maxFastAttempts := maxFastAttempts r;
                fastDelay := fastDelay r; slowDelay := slowDelay r |}).
  assert (Hr' : failuresAt r' x = n).
  { unfold failuresAt, r'. simpl. now rewrite lookup_insert_eq. }
  change (When x r) with (if failuresAt r' x <=? maxFastAttempts r'
                          then (fastDelay r', r') else (slowDelay r', r')).
  rewrite Hr'. change (maxFastAttempts r') with (maxFastAttempts r).
  destruct (n <=? maxFastAttempts r); simpl; auto.
Qed.

Lemma fast_slow_whens (x : item) n : forall (r : limiter) k,
  failuresAt r x = k -> 0 <= k -> k + Z.of_nat n < 2 ^ 63 ->
  length (whens n x r).1 = n /\
  failuresAt (whens n x r).2 x = k + Z.of_nat n /\
  forall i, (i < n)%nat ->
    (whens n x r).1 !! i =
    Some (if k + Z.of_nat (S i) <=? maxFastAttempts r then fastDelay r else slowDelay r).
Proof.
  induction n as [|n IH]; intros r k Hk Hk0 Hbound; simpl.
  - split; [reflexivity|]. split; [lia|]. intros i Hi. lia.
  - destruct (fast_slow_When x r) as (Hd & Hcount & Hmax & Hfast & Hslow).
    rewrite Hk, ExponentialFacts.wrap64_small in Hd, Hcount by lia.
    destruct (When x r) as [d r1]. simpl in *.
    destruct (IH r1 (k + 1) Hcount ltac:(lia) ltac:(lia)) as (Hlen & Hafter & Hds).
    destruct (whens n x r1) as [ds r2]. simpl in *.
    split; [now rewrite Hlen|]. split; [rewrite Hafter; lia|].
    intros [|i] Hi; simpl.
    + now rewrite Hd.
    + rewrite Hds by lia. rewrite Hmax, Hfast, Hslow.
      now replace (k + 1 + Z.of_nat (S i)) with (k + Z.pos (Pos.succ (Pos.of_succ_nat i)))
        by lia.
Qed.

(** X19.  The fast-slow limiter gives [fastDelay] to the first
    [maxFastAttempts] attempts of an item and [slowDelay] to all later
    ones: after [Forget(x)], the i-th [When(x)] returns [fastDelay] when
    [i <= maxFastAttempts] and [slowDelay] otherwise (none is fast when
    [maxFastAttempts] is not positive), and [NumRequeues(x)] then returns
    the number of these calls. *)
Theorem fast_then_slow (x : item) (n : nat) (r : limiter) :
  Z.of_nat n < 2 ^ 63 ->
  length (whens n x (Forget x r)).1 = n /\
  (NumRequeues x (whens n x (Forget x r)).2).1 = Z.of_nat n /\
  forall i, (i < n)%nat ->
    (whens n x (Forget x r)).1 !! i =
    Some (if Z.of_nat (S i) <=? maxFastAttempts r then fastDelay r else slowDelay r).
Proof.
  intros Hn.
  destruct (fast_slow_whens x n (Forget x r) 0) as (Hlen & Hcount & Hds); try lia.
  { unfold failuresAt, Forget. simpl. now rewrite lookup_delete_eq. }
  split; [exact Hlen|]. split; [exact Hcount|]. exact Hds.
Qed.

End FastSlowFacts.

Local Open Scope string_scope.

Lemma fast_then_slow_witness :
  (whens 4 "x" (Forget "x" (NewItemFastSlowRateLimiter
                              (5 * Millisecond) (10 * Second) 2))).1
  = [5 * Millisecond; 5 * Millisecond; 10 * Second; 10 * Second] /\
  (whens 4 "x" (Forget "x" (NewItemFastSlowRateLimiter
                              (5 * Millisecond) (10 * Second) 2))).1 !! 2%nat
  = Some (10 * Second).
Proof.
  split; [vm_compute; reflexivity|].
  refine (proj2 (proj2 (fast_then_slow "x" 4
                          (NewItemFastSlowRateLimiter (5 * Millisecond) (10 * Second) 2) _))
            2%nat _); [reflexivity|lia].
Defined.

End FastSlowFacts.

Module ComposedLimiterFacts.
Import RateLimiter ItemExponentialFailureRateLimiter ExponentialFacts.

Section ComposedLimiterFacts.

Context {item : Type} `{Countable item}.
Variable indefinite : Float64.float64 -> Z.

Local Abbreviation exponential := (@ItemExponentialFailureRateLimiter.limiter item _ _).
Local Abbreviation calls_ := (list (@ItemExponentialFailureRateLimiter.call item)).

Lemma count_fits (x : item) (calls : calls_) (base max : Z) :
  sinceForget x calls <= Float64.MaxInt64 ->
  failuresAt (run indefinite (NewItemExponentialFailureRateLimiter base max) calls) x
  = sinceForget x calls /\ 0 <= sinceForget x calls.
Proof.
  intros Hfits.
  pose proof (countCall_nonneg x calls 0 ltac:(lia)) as Hnonneg.
  split; [|exact Hnonneg].
  rewrite (failuresAt_run indefinite x calls _ 0) by reflexivity.
  apply wrap64_small. unfold sinceForget, Float64.MaxInt64 in *. lia.
Qed.

(** ** [DefaultControllerRateLimiter] *)

Section Default.

Variable rate_Limiter : Type.
Variable reserveDelay : rate_Limiter -> Z * rate_Limiter.

Local Abbreviation bucket := (@BucketRateLimiter.limiter rate_Limiter).
Local Abbreviation composed e b :=
  (MaxOfRateLimiter.NewMaxOfRateLimiter
     [ItemExponentialFailureRateLimiter.asRateLimiter indefinite e;
      BucketRateLimiter.asRateLimiter (item := item) rate_Limiter reserveDelay b]).

Lemma composed_run (calls : calls_) : forall (e : exponential) (b : bucket),
  exists b',
    DefaultControllerRateLimiter.run (composed e b) calls
    = composed (run indefinite e calls) b'.
Proof.
  induction calls as [|c calls IH]; intros e b; simpl; [now exists b|].
  destruct c as [y|y|y].
  - apply (IH (ItemExponentialFailureRateLimiter.When indefinite y e).2
              {| BucketRateLimiter.Limiter :=
                   (reserveDelay (BucketRateLimiter.Limiter rate_Limiter b)).2 |}).
  - apply (IH (Forget y e) b).
  - apply (IH e b).
Qed.

Lemma composed_NumRequeues (x : item) (e : exponential) (b : bucket) :
  0 <= failuresAt e x ->
  (MaxOfRateLimiter.NumRequeues x (composed e b)).1 = failuresAt e x.
Proof.
  intros Hnonneg. cbn.
  destruct (Z.ltb_spec 0 (failuresAt e x)) as [Hpos|Hzero].
  - destruct (Z.ltb_spec (failuresAt e x) 0); [lia|reflexivity].
  - change (0 <? 0) with false. cbv iota. lia.
Qed.

(** X20.  Through [DefaultControllerRateLimiter()], the maximum of a
    per-item exponential limiter and a token bucket, [NumRequeues(x)] is
    still the number of [When(x)] calls since the last [Forget(x)]: the
    bucket counts nothing, [Forget] reaches the per-item limiter, and
    the calls for other items do not matter. *)
Theorem default_controller_NumRequeues (newLimiter : rate_Limiter)
    (calls : calls_) (x : item) :
  sinceForget x calls <= Float64.MaxInt64 ->
  (MaxOfRateLimiter.NumRequeues x
     (DefaultControllerRateLimiter.run
        (DefaultControllerRateLimiter.DefaultControllerRateLimiter
           indefinite rate_Limiter reserveDelay newLimiter)
        calls)).1
  = sinceForget x calls.
Proof.
  intros Hfits.
  destruct (composed_run calls
              (NewItemExponentialFailureRateLimiter (5 * Millisecond) (1000 * Second))
              {| BucketRateLimiter.Limiter := newLimiter |}) as [b' Hrun].
  unfold DefaultControllerRateLimiter.DefaultControllerRateLimiter.
  rewrite Hrun.
  destruct (count_fits x calls (5 * Millisecond) (1000 * Second) Hfits) as [Hcount Hnonneg].
  rewrite composed_NumRequeues; rewrite Hcount; [reflexivity|exact Hnonneg].
Qed.

End Default.

(** ** The rate-limiting queue *)

Section Queue.

Variable delaying : Type.
Variable AddAfter : item -> Z -> delaying -> delaying.

Local Abbreviation rateLimitingType := (@RateLimitingQueue.rateLimitingType item delaying).

Local Abbreviation scheduled := (RateLimitingQueue.scheduled delaying AddAfter indefinite).

Lemma queue_run (calls : calls_) : forall (e : exponential) (d : delaying),
  RateLimitingQueue.run delaying AddAfter
    (RateLimitingQueue.NewRateLimitingQueue delaying d
       (ItemExponentialFailureRateLimiter.asRateLimiter indefinite e)) calls
  = RateLimitingQueue.NewRateLimitingQueue delaying (scheduled e d calls)
      (ItemExponentialFailureRateLimiter.asRateLimiter indefinite
         (run indefinite e calls)).
Proof.
  induction calls as [|c calls IH]; intros e d; simpl; [reflexivity|].
  destruct c as [y|y|y].
  - apply (IH (ItemExponentialFailureRateLimiter.When indefinite y e).2).
  - apply (IH (Forget y e) d).
  - apply (IH e d).
Qed.

(** X21.  On a rate-limiting queue over an exponential limiter,
    [NumRequeues(x)] is the number of [AddRateLimited(x)] calls since the
    last [Forget(x)]; every [AddRateLimited(x)] calls [AddAfter] once,
    with the delay of the limiter's [When(x)]; [Forget] and
    [NumRequeues] leave the delaying queue as it is. *)
Theorem requeues_are_counted (base max : Z) (d0 : delaying) (calls : calls_) (x : item) :
  sinceForget x calls <= Float64.MaxInt64 ->
  let q0 := RateLimitingQueue.NewRateLimitingQueue delaying d0
              (ItemExponentialFailureRateLimiter.asRateLimiter indefinite
                 (NewItemExponentialFailureRateLimiter base max)) in
  let q := RateLimitingQueue.run delaying AddAfter q0 calls in
  RateLimitingQueue.NumRequeues delaying x q = (sinceForget x calls, q) /\
  RateLimitingQueue.DelayingInterface delaying q
  = scheduled (NewItemExponentialFailureRateLimiter base max) d0 calls /\
  RateLimitingQueue.DelayingInterface delaying (RateLimitingQueue.Forget delaying x q)
  = RateLimitingQueue.DelayingInterface delaying q /\
  RateLimitingQueue.DelayingInterface delaying
    (RateLimitingQueue.AddRateLimited delaying AddAfter x q)
  = AddAfter x (callWhen x (RateLimitingQueue.rateLimiter delaying q)).1
      (RateLimitingQueue.DelayingInterface delaying q).
Proof.
  intros Hfits q0 q. unfold q, q0. rewrite queue_run.
  destruct (count_fits x calls base max Hfits) as [Hcount _].
  split; [|split; [reflexivity|split; reflexivity]].
  unfold RateLimitingQueue.NumRequeues, callNumRequeues. simpl.
  now rewrite Hcount.
Qed.

End Queue.

End ComposedLimiterFacts.

Local Open Scope string_scope.

Lemma default_controller_NumRequeues_witness :
  (MaxOfRateLimiter.NumRequeues "x"
     (DefaultControllerRateLimiter.run
        (DefaultControllerRateLimiter.DefaultControllerRateLimiter
           Float64.amd64 unit (fun u => (100 * Millisecond, u)) tt)
        [CallWhen "x"; CallWhen "y"; CallWhen "x"; CallForget "y"])).1
  = 2.
Proof.
  assert (Hfits : sinceForget "x" [CallWhen "x"; CallWhen "y"; CallWhen "x"; CallForget "y"]
                  <= Float64.MaxInt64) by (vm_compute; discriminate).
  exact (default_controller_NumRequeues Float64.amd64 unit
           (fun u => (100 * Millisecond, u)) tt
           [CallWhen "x"; CallWhen "y"; CallWhen "x"; CallForget "y"] "x" Hfits).
Defined.

Lemma requeues_are_counted_witness :
  RateLimitingQueue.DelayingInterface (list (string * Z))
    (RateLimitingQueue.run (list (string * Z)) (fun x d q => (q ++ [(x, d)])%list)
       (RateLimitingQueue.NewRateLimitingQueue (list (string * Z)) []
          (asRateLimiter Float64.amd64
             (NewItemExponentialFailureRateLimiter (10 * Millisecond) (40 * Millisecond))))
       [CallWhen "x"; CallWhen "x"; CallForget "x"; CallWhen "x"])
  = RateLimitingQueue.scheduled (list (string * Z)) (fun x d q => (q ++ [(x, d)])%list)
      Float64.amd64
      (NewItemExponentialFailureRateLimiter (10 * Millisecond) (40 * Millisecond)) []
      [CallWhen "x"; CallWhen "x"; CallForget "x"; CallWhen "x"] /\
  RateLimitingQueue.scheduled (list (string * Z)) (fun x d q => (q ++ [(x, d)])%list)
      Float64.amd64
      (NewItemExponentialFailureRateLimiter (10 * Millisecond) (40 * Millisecond)) []
      [CallWhen "x"; CallWhen "x"; CallForget "x"; CallWhen "x"]
  = [("x", 10 * Millisecond); ("x", 20 * Millisecond); ("x", 10 * Millisecond)].
Proof.
  split; [|vm_compute; reflexivity].
  refine (proj1 (proj2 (requeues_are_counted Float64.amd64 (list (string * Z))
                          (fun x d q => (q ++ [(x, d)])%list)
                          (10 * Millisecond) (40 * Millisecond) []
                          [CallWhen "x"; CallWhen "x"; CallForget "x"; CallWhen "x"]
                          "x" _))).
  vm_compute. discriminate.
Defined.

End ComposedLimiterFacts.

(* ================================================================== *)
(** * Streams of notifications: the filter, the informer                *)
(* ================================================================== *)

Module StreamFacts.
Import Notifications.

Section StreamFacts.

Context {obj H : Type}.

Lemma deliverFiltered_filtered (r : @FilteringResourceEventHandler.handler obj H)
    (hs : H) (n : notification) :
  deliverFiltered r hs n
  = foldl (deliver (FilteringResourceEventHandler.Handler r)) hs
      (filtered (FilteringResourceEventHandler.FilterFunc r) n).
Proof.
  destruct n as [o|oldObj newObj|o]; simpl.
  - unfold FilteringResourceEventHandler.OnAdd.
    now destruct (FilteringResourceEventHandler.FilterFunc r o).
  - unfold FilteringResourceEventHandler.OnUpdate.
    now destruct (FilteringResourceEventHandler.FilterFunc r newObj),
                 (FilteringResourceEventHandler.FilterFunc r oldObj).
  - unfold FilteringResourceEventHandler.OnDelete.
    now destruct (FilteringResourceEventHandler.FilterFunc r o).
Qed.

Lemma lifecycle_app (ns1 ns2 : list (@notification obj)) : forall known,
  lifecycle known ns1 -> lifecycle (after known ns1) ns2 -> lifecycle known (ns1 ++ ns2).
Proof.
  induction ns1 as [|n ns1 IH]; intros known; simpl; [auto|].
  destruct n as [o|oldObj newObj|o]; intros [Hknown Hrest] Hafter;
    (split; [exact Hknown|]); now apply IH.
Qed.

Lemma after_app (ns1 ns2 : list (@notification obj)) known :
  after known (ns1 ++ ns2) = after (after known ns1) ns2.
Proof. unfold after. apply foldl_app. Qed.

(** X22.  The filtering handler turns the life of an object into a
    life of its own for the wrapped handler.  When the notifications
    about an object are an add, updates that each start from the object
    of the one before, and a delete, then the wrapped handler receives
    such a sequence too: an add only for an object it does not know, an
    update or delete only for the object it was last told; and at the
    end it knows the object exactly when the object passes the filter. *)
Theorem filter_keeps_lifecycles (r : @FilteringResourceEventHandler.handler obj H)
    (ns : list notification) : forall (known : option obj) (hs : H),
  lifecycle known ns ->
  let filter := FilteringResourceEventHandler.FilterFunc r in
  let passed := flat_map (filtered filter) ns in
  foldl (deliverFiltered r) hs ns
  = foldl (deliver (FilteringResourceEventHandler.Handler r)) hs passed /\
  lifecycle (passing filter known) passed /\
  after (passing filter known) passed = passing filter (after known ns).
Proof.
  induction ns as [|n ns IH]; intros known hs Hlife filter passed.
  - simpl. auto.
  - assert (Hstep : lifecycle (passing filter known) (filtered filter n) /\
                    after (passing filter known) (filtered filter n)
                    = passing filter (after known [n]) /\
                    lifecycle (after known [n]) ns).
    { destruct n as [o|oldObj newObj|o]; simpl in Hlife; destruct Hlife as [-> Hrest];
        simpl; unfold filter.
      - destruct (FilteringResourceEventHandler.FilterFunc r o); simpl; auto.
      - destruct (FilteringResourceEventHandler.FilterFunc r newObj),
                 (FilteringResourceEventHandler.FilterFunc r oldObj); simpl; auto.
      - destruct (FilteringResourceEventHandler.FilterFunc r o); simpl; auto. }
    destruct Hstep as (Hfirst & Hknown & Hrest).
    destruct (IH (after known [n]) (deliverFiltered r hs n) Hrest)
      as (Hdelivered & Hlater & Hend).
    unfold passed. simpl. fold filter. split; [|split].
    + rewrite Hdelivered, foldl_app. f_equal. apply deliverFiltered_filtered.
    + apply lifecycle_app; [exact Hfirst|]. rewrite Hknown. exact Hlater.
    + rewrite after_app, Hknown. exact Hend.
Qed.

End StreamFacts.

Local Open Scope string_scope.

Lemma filter_keeps_lifecycles_witness :
  foldl (deliverFiltered Fixtures.fooJournal) []
    [NotifyAdd "bar"; NotifyUpdate "bar" "foo"; NotifyUpdate "foo" "foo";
     NotifyUpdate "foo" "baz"; NotifyDelete "baz"]
  = [NotifyAdd "foo"; NotifyUpdate "foo" "foo"; NotifyDelete "foo"] /\
  lifecycle None [NotifyAdd "foo"; NotifyUpdate "foo" "foo"; NotifyDelete "foo"].
Proof.
  assert (Hlife : lifecycle None
                    [NotifyAdd "bar"; NotifyUpdate "bar" "foo"; NotifyUpdate "foo" "foo";
                     NotifyUpdate "foo" "baz"; NotifyDelete "baz"]).
  { simpl. auto 10. }
  destruct (filter_keeps_lifecycles Fixtures.fooJournal _ None [] Hlife)
    as (Hdelivered & Hpassed & _).
  split; [exact Hdelivered|exact Hpassed].
Defined.

End StreamFacts.

Module InformerFacts.
Import Notifications Informer.

Section InformerFacts.

Context {object error H : Type}.

Local Abbreviation obj := (option object).
Local Abbreviation cache := (@Cache.cache object error).
Local Abbreviation handler := (ResourceEventHandler.methods obj H).

Lemma processDelta_spec (h : handler) (d : @Delta object) (c c1 : cache) (hs hs1 : H) :
  processDelta h d c hs = Return (c1, hs1, None) ->
  exists n,
    hs1 = deliver h hs n /\ announces d n /\
    fits (Cache.keyFunc c) (entries (ThreadSafeStore.items (Cache.cacheStorage c))) n /\
    entries (ThreadSafeStore.items (Cache.cacheStorage c1))
    = replay (Cache.keyFunc c)
        (entries (ThreadSafeStore.items (Cache.cacheStorage c))) n /\
    Cache.keyFunc c1 = Cache.keyFunc c /\
    ThreadSafeStore.indexers (Cache.cacheStorage c1)
    = ThreadSafeStore.indexers (Cache.cacheStorage c) /\
    (isMade (ThreadSafeStore.items (Cache.cacheStorage c)) ->
     isMade (ThreadSafeStore.items (Cache.cacheStorage c1))).
Proof.
  unfold processDelta, Cache.Get, Cache.GetByKey, Cache.Add, Cache.Update, Cache.Delete.
  destruct (Cache.keyFunc c (Object d)) as [key|err] eqn:Hkey.
  2:{ destruct (Type' d); simpl; discriminate. }
  assert (Hwrite :
    Type' d <> Deleted ->
    (let '(old, exists_, err) :=
       (ThreadSafeStore.Get key (Cache.cacheStorage c), @None (@Cache.KeyError object error)) in
     match err, exists_ with
     | None, true =>
         do r <- (do s <- ThreadSafeStore.Update key (Object d) (Cache.cacheStorage c);
                  Return (Cache.withStorage c s, @None (@Cache.KeyError object error)));
         match r.2 with
         | Some err => Return (r.1, hs, Some err)
         | None => Return (r.1, ResourceEventHandler.OnUpdate h old (Object d) hs, None)
         end
     | _, _ =>
         do r <- (do s <- ThreadSafeStore.Add key (Object d) (Cache.cacheStorage c);
                  Return (Cache.withStorage c s, @None (@Cache.KeyError object error)));
         match r.2 with
         | Some err => Return (r.1, hs, Some err)
         | None => Return (r.1, ResourceEventHandler.OnAdd h (Object d) hs, None)
         end
     end) = Return (c1, hs1, None) ->
    exists n,
      hs1 = deliver h hs n /\ announces d n /\
      fits (Cache.keyFunc c) (entries (ThreadSafeStore.items (Cache.cacheStorage c))) n /\
      entries (ThreadSafeStore.items (Cache.cacheStorage c1))
      = replay (Cache.keyFunc c)
          (entries (ThreadSafeStore.items (Cache.cacheStorage c))) n /\
      Cache.keyFunc c1 = Cache.keyFunc c /\
      ThreadSafeStore.indexers (Cache.cacheStorage c1)
      = ThreadSafeStore.indexers (Cache.cacheStorage c) /\
      (isMade (ThreadSafeStore.items (Cache.cacheStorage c)) ->
       isMade (ThreadSafeStore.items (Cache.cacheStorage c1)))).
  { intros Htype. unfold ThreadSafeStore.Get.
    destruct (entries (ThreadSafeStore.items (Cache.cacheStorage c)) !! key)
      as [old|] eqn:Hold.
    - destruct (ThreadSafeStore.Update key (Object d) (Cache.cacheStorage c))
        as [s|p] eqn:Hs; simpl; [|discriminate].
      intros [= <- <-].
      apply (StoreFacts.Add_items key (Object d) (Cache.cacheStorage c) s) in Hs
        as (Hitems & _ & Hixs).
      exists (NotifyUpdate old (Object d)). simpl. rewrite Hkey, Hitems.
      split; [reflexivity|]. split; [auto|]. split; [eauto|]. simpl. auto.
    - destruct (ThreadSafeStore.Add key (Object d) (Cache.cacheStorage c))
        as [s|p] eqn:Hs; simpl; [|discriminate].
      intros [= <- <-].
      apply StoreFacts.Add_items in Hs as (Hitems & _ & Hixs).
      exists (NotifyAdd (Object d)). simpl. rewrite Hkey, Hitems.
      split; [reflexivity|]. split; [auto|]. split; [eauto|]. simpl. auto. }
  destruct (Type' d) eqn:Htype; try (apply Hwrite; discriminate).
  destruct (ThreadSafeStore.Delete key (Cache.cacheStorage c)) as [s|p] eqn:Hs;
    simpl; [|discriminate].
  intros [= <- <-].
  apply StoreFacts.Delete_items in Hs as (Hitems & Hixs & Hmade & _).
  exists (NotifyDelete (Object d)). simpl. rewrite Hkey.
  split; [reflexivity|]. split; [auto|]. split; [eauto|]. auto.
Qed.

(** X23.  The notifications of the informer tell the handler what the
    store does.  When [Process] returns without an error, the handler has
    received one notification per delta, in their order (a delete for a
    [Deleted] delta, otherwise an add or an update for the delta's
    object); an add came only for a key that was not in the store, and
    the old object of an update is the one the store held for that key;
    and a handler that replays its notifications on a copy of the store
    ends with the items of the store. *)
Theorem Process_notifies_what_it_stores (h : handler) (deltas : list (@Delta object)) :
  forall (c c' : cache) (hs hs' : H),
  Process h deltas c hs = Return (c', hs', None) ->
  exists ns,
    hs' = foldl (deliver h) hs ns /\
    Forall2 announces deltas ns /\
    coherent (Cache.keyFunc c) (entries (ThreadSafeStore.items (Cache.cacheStorage c))) ns /\
    entries (ThreadSafeStore.items (Cache.cacheStorage c'))
    = foldl (replay (Cache.keyFunc c))
        (entries (ThreadSafeStore.items (Cache.cacheStorage c))) ns.
Proof.
  induction deltas as [|d rest IH]; intros c c' hs hs'; simpl.
  - intros [= <- <-]. exists []. simpl. split; [reflexivity|].
    split; [constructor|]. split; [exact I|reflexivity].
  - destruct (processDelta h d c hs) as [[[c1 hs1] [err|]]|p] eqn:Hd; simpl;
      [discriminate| |discriminate].
    intros Hrest.
    apply processDelta_spec in Hd as (n & -> & Hannounces & Hfits & Hitems & Hkey & _).
    apply IH in Hrest as (ns & -> & Hall & Hcoherent & Hfinal).
    rewrite Hkey, Hitems in Hcoherent, Hfinal.
    exists (n :: ns). simpl. split; [reflexivity|].
    split; [now constructor|]. split; [now split|exact Hfinal].
Qed.

Lemma processDelta_total (h : handler) (d : @Delta object) (c : cache) (hs : H) key :
  entries (ThreadSafeStore.indexers (Cache.cacheStorage c)) = ∅ ->
  isMade (ThreadSafeStore.items (Cache.cacheStorage c)) ->
  Cache.keyFunc c (Object d) = Ok key ->
  exists c1 hs1, processDelta h d c hs = Return (c1, hs1, None).
Proof.
  intros Hixs Hitems Hkey.
  unfold processDelta, Cache.Get, Cache.GetByKey, Cache.Add, Cache.Update, Cache.Delete.
  rewrite Hkey.
  destruct (CacheReadFacts.unindexed_Add_total c key (Object d) Hixs Hitems)
    as (s & Hadd & _).
  destruct (CacheReadFacts.unindexed_Delete_total c key Hixs Hitems)
    as (s' & Hdelete & _).
  assert (Hupdate : ThreadSafeStore.Update key (Object d) (Cache.cacheStorage c) = Return s)
    by exact Hadd.
  rewrite Hdelete. unfold ThreadSafeStore.Get.
  destruct (Type' d);
    destruct (entries (ThreadSafeStore.items (Cache.cacheStorage c)) !! key);
    rewrite ?Hupdate, ?Hadd; simpl; eauto.
Qed.

(** X24.  Over a store without indexers, as [NewInformer] builds it with
    [NewStore] (its items map is made, not [nil]), [Process] applies
    every delta: when the key function succeeds on the objects of all the
    deltas, [Process] returns without an error and without a panic. *)
Theorem Process_applies_every_delta (h : handler) (deltas : list (@Delta object)) :
  forall (c : cache) (hs : H),
  entries (ThreadSafeStore.indexers (Cache.cacheStorage c)) = ∅ ->
  isMade (ThreadSafeStore.items (Cache.cacheStorage c)) ->
  (forall d, d ∈ deltas -> exists key, Cache.keyFunc c (Object d) = Ok key) ->
  exists c' hs', Process h deltas c hs = Return (c', hs', None).
Proof.
  induction deltas as [|d rest IH]; intros c hs Hixs Hitems Hkeys; simpl; [eauto|].
  destruct (Hkeys d ltac:(left)) as [key Hkey].
  destruct (processDelta_total h d c hs key Hixs Hitems Hkey) as (c1 & hs1 & Hd).
  rewrite Hd. simpl.
  apply processDelta_spec in Hd as (_ & _ & _ & _ & _ & Hkey1 & Hixs1 & Hmade1).
  apply IH.
  - now rewrite Hixs1.
  - now apply Hmade1.
  - intros d' Hd'. rewrite Hkey1. apply Hkeys. now right.
Qed.

Lemma Process_keyFunc (h : handler) (deltas : list (@Delta object)) :
  forall (c c' : cache) (hs hs' : H),
  Process h deltas c hs = Return (c', hs', None) ->
  Cache.keyFunc c' = Cache.keyFunc c.
Proof.
  induction deltas as [|d rest IH]; intros c c' hs hs'; simpl.
  - now intros [= <- <-].
  - destruct (processDelta h d c hs) as [[[c1 hs1] [err|]]|p] eqn:Hd; simpl;
      [discriminate| |discriminate].
    intros Hrest. apply IH in Hrest. rewrite Hrest.
    now apply processDelta_spec in Hd as (_ & _ & _ & _ & _ & Hkey & _).
Qed.

Lemma Process_app (h : handler) (before rest : list (@Delta object)) :
  forall (c c1 : cache) (hs hs1 : H),
  Process h before c hs = Return (c1, hs1, None) ->
  Process h (before ++ rest) c hs = Process h rest c1 hs1.
Proof.
  induction before as [|d before IH]; intros c c1 hs hs1; simpl.
  - now intros [= <- <-].
  - destruct (processDelta h d c hs) as [[[c2 hs2] [err|]]|p]; simpl;
      [discriminate| |discriminate].
    apply IH.
Qed.

(** X25.  [Process] is not atomic: it stops at the first delta whose
    key cannot be computed and returns the [KeyError] for its object;
    the deltas before it stay applied to the store and notified to the
    handler, the deltas after it are dropped. *)
Theorem Process_stops_at_first_key_error (h : handler)
    (before after : list (@Delta object)) (d : @Delta object)
    (c c1 : cache) (hs hs1 : H) err :
  Process h before c hs = Return (c1, hs1, None) ->
  Cache.keyFunc c (Object d) = Fail err ->
  Process h (before ++ d :: after) c hs
  = Return (c1, hs1, Some {| Cache.Obj := Object d; Cache.Err := err |}).
Proof.
  intros Hbefore Hkey. rewrite (Process_app h before (d :: after) c c1 hs hs1 Hbefore).
  apply Process_keyFunc in Hbefore. rewrite <- Hbefore in Hkey. simpl.
  unfold processDelta, Cache.Get, Cache.Add, Cache.Delete. rewrite Hkey.
  destruct (Type' d); reflexivity.
Qed.

End InformerFacts.

Local Open Scope string_scope.

Lemma Process_notifies_what_it_stores_witness :
  exists c' ns,
    Process Fixtures.journal Fixtures.sampleDeltas Fixtures.emptyStore []
    = Return (c', ns, None) /\
    ns = [NotifyAdd (Some "a"); NotifyUpdate (Some "a") (Some "a");
          NotifyAdd (Some "b"); NotifyDelete (Some "a")] /\
    exists ns',
      ns = foldl (deliver Fixtures.journal) [] ns' /\
      entries (ThreadSafeStore.items (Cache.cacheStorage c'))
      = foldl (replay Fixtures.nameKey) ∅ ns'.
Proof.
  pose (r := Process Fixtures.journal Fixtures.sampleDeltas Fixtures.emptyStore []).
  pose (c' := match r with Return (c', _, _) => c' | Panic _ => Fixtures.emptyStore end).
  pose (ns := match r with Return (_, ns, _) => ns | Panic _ => [] end).
  assert (Hrun : Process Fixtures.journal Fixtures.sampleDeltas Fixtures.emptyStore []
                 = Return (c', ns, None)) by (vm_compute; reflexivity).
  exists c', ns. split; [exact Hrun|]. split; [vm_compute; reflexivity|].
  destruct (Process_notifies_what_it_stores Fixtures.journal Fixtures.sampleDeltas
              Fixtures.emptyStore c' [] ns Hrun) as (ns' & Hns & _ & _ & Hitems).
  exists ns'. split; [exact Hns|exact Hitems].
Defined.

Lemma Process_applies_every_delta_witness :
  exists c' hs',
    Process Fixtures.journal Fixtures.sampleDeltas Fixtures.emptyStore []
    = Return (c', hs', None).
Proof.
  apply (Process_applies_every_delta Fixtures.journal Fixtures.sampleDeltas
           Fixtures.emptyStore []); [reflexivity|exact I|].
  intros d Hd.
  repeat (apply elem_of_cons in Hd as [->|Hd]; [eexists; reflexivity|]).
  inversion Hd.
Defined.

Lemma Process_stops_at_first_key_error_witness :
  exists c1 hs1,
    Process Fixtures.journal
      [{| Type' := Added; Object := Some "a" |}; {| Type' := Added; Object := None |};
       {| Type' := Added; Object := Some "b" |}]
      Fixtures.emptyStore []
    = Return (c1, hs1, Some {| Cache.Obj := None; Cache.Err := "object has no meta" |}) /\
    hs1 = [NotifyAdd (Some "a")] /\
    Cache.GetByKey "a" c1 = (Some "a", true) /\
    Cache.GetByKey "b" c1 = (None, false).
Proof.
  eexists _, _. split.
  - apply (Process_stops_at_first_key_error Fixtures.journal
             [{| Type' := Added; Object := Some "a" |}]
             [{| Type' := Added; Object := Some "b" |}]
             {| Type' := Added; Object := None |}
             Fixtures.emptyStore _ [] _ "object has no meta"); reflexivity.
  - split; [reflexivity|]. split; reflexivity.
Defined.

End InformerFacts.

(* ================================================================== *)
(** * Keys: decoding, uniqueness                                        *)
(* ================================================================== *)

Module KeyDecodingFacts.
Import Keys KeyFacts.

Lemma Split_one_or_two s sep :
  (forall p, Split s sep = [p] -> s = p /\ count sep p = 0%nat) /\
  (forall a b, Split s sep = [a; b] ->
     s = String.append a (String sep b) /\
     count sep a = 0%nat /\ count sep b = 0%nat).
Proof.
  induction s as [|c rest [IHone IHtwo]]; simpl.
  - split; [intros p [= <-]; auto|discriminate].
  - pose proof (Split_length rest sep) as Hlen.
    destruct (Ascii.eqb c sep) eqn:Hc.
    + apply Ascii.eqb_eq in Hc. subst c. split.
      * intros p [= <- Hrest]. rewrite Hrest in Hlen. discriminate.
      * intros a b [= <- Hrest]. destruct (IHone b Hrest) as [-> Hb].
        simpl. auto.
    + destruct (Split rest sep) as [|part parts] eqn:Hrest; [discriminate|]. split.
      * intros p [= <- ->]. destruct (IHone part eq_refl) as [-> Hpart].
        simpl. rewrite Hc. auto.
      * intros a b [= <- ->]. destruct (IHtwo part b eq_refl) as (-> & Hpart & Hb).
        simpl. rewrite Hc. auto.
Qed.

Lemma encode_then_split namespace name key :
  count slash namespace = 0%nat -> count slash name = 0%nat ->
  MetaNamespaceKeyFunc (WithMeta namespace name) = Ok key ->
  SplitMetaNamespaceKey key = Ok (namespace, name).
Proof.
  intros Hns Hname. unfold SplitMetaNamespaceKey.
  destruct namespace as [|c ns]; simpl; intros [= <-].
  - now rewrite Split_no_sep.
  - change (String c (String.append ns (String slash name)))
      with (String.append (String c ns) (String slash name)).
    rewrite Split_append by exact Hns. now rewrite Split_no_sep.
Qed.

(** X26.  What [SplitMetaNamespaceKey] accepts.  When it returns
    [(namespace, name)] for [key], neither part contains a '/', and
    [key] is [name] with an empty namespace, or it is
    [namespace + "/" + name]; [MetaNamespaceKeyFunc] gives [key] back for
    an object with that namespace and name unless [key] starts with '/',
    which splits into an empty namespace and encodes as [name] alone. *)
Theorem SplitMetaNamespaceKey_decodes key namespace name :
  SplitMetaNamespaceKey key = Ok (namespace, name) ->
  count slash namespace = 0%nat /\ count slash name = 0%nat /\
  (key = name /\ namespace = EmptyString \/
   key = String.append namespace (String slash name)) /\
  MetaNamespaceKeyFunc (WithMeta namespace name)
  = Ok (match namespace with EmptyString => name | _ => key end).
Proof.
  unfold SplitMetaNamespaceKey.
  destruct (Split_one_or_two key slash) as [Hone Htwo].
  destruct (Split key slash) as [|a [|b [|c l]]] eqn:Hsplit; try discriminate.
  - intros [= <- <-]. destruct (Hone a eq_refl) as [-> Ha].
    split; [reflexivity|]. split; [exact Ha|].
    split; [left; split; reflexivity|reflexivity].
  - intros [= <- <-]. destruct (Htwo a b eq_refl) as (-> & Ha & Hb).
    split; [exact Ha|]. split; [exact Hb|]. split; [now right|].
    now destruct a.
Qed.

(** X27.  Objects whose namespaces and names contain no '/' have the
    same key only when they have the same namespace and the same name
    (with a '/' in a name this fails: namespace "a" with name "b" and the
    empty namespace with name "a/b" share the key "a/b"). *)
Theorem keys_are_unique namespace1 name1 namespace2 name2 key :
  count slash namespace1 = 0%nat -> count slash name1 = 0%nat ->
  count slash namespace2 = 0%nat -> count slash name2 = 0%nat ->
  MetaNamespaceKeyFunc (WithMeta namespace1 name1) = Ok key ->
  MetaNamespaceKeyFunc (WithMeta namespace2 name2) = Ok key ->
  namespace1 = namespace2 /\ name1 = name2.
Proof.
  intros Hns1 Hname1 Hns2 Hname2 Hkey1 Hkey2.
  apply (encode_then_split _ _ _ Hns1 Hname1) in Hkey1.
  apply (encode_then_split _ _ _ Hns2 Hname2) in Hkey2.
  rewrite Hkey1 in Hkey2. injection Hkey2 as <- <-. auto.
Qed.

Local Open Scope string_scope.

Lemma SplitMetaNamespaceKey_decodes_witness :
  MetaNamespaceKeyFunc (WithMeta "kube-system" "coredns") = Ok "kube-system/coredns" /\
  SplitMetaNamespaceKey "/coredns" = Ok ("", "coredns") /\
  MetaNamespaceKeyFunc (WithMeta "" "coredns") = Ok "coredns".
Proof.
  split; [|split; [reflexivity|]].
  - exact (proj2 (proj2 (proj2 (SplitMetaNamespaceKey_decodes
                                  "kube-system/coredns" "kube-system" "coredns" eq_refl)))).
  - exact (proj2 (proj2 (proj2 (SplitMetaNamespaceKey_decodes
                                  "/coredns" "" "coredns" eq_refl)))).
Defined.

Lemma keys_are_unique_witness :
  MetaNamespaceKeyFunc (WithMeta "a" "b") = Ok "a/b" /\
  MetaNamespaceKeyFunc (WithMeta "" "a/b") = Ok "a/b" /\
  (MetaNamespaceKeyFunc (WithMeta "a" "b") = MetaNamespaceKeyFunc (WithMeta "a" "c") ->
   "b" = "c").
Proof.
  split; [reflexivity|]. split; [reflexivity|].
  intros Hsame.
  apply (keys_are_unique "a" "b" "a" "c" "a/b" eq_refl eq_refl eq_refl eq_refl eq_refl).
  now rewrite <- Hsame.
Defined.

End KeyDecodingFacts.
